(** * EventDiff: the schema-diff gate, embedded and verified

    The development follows [cli/eventdiff.mjs] in its two variants: the plain
    one, with literal severities, and the policy-aware one, where every
    severity is looked up through [sevForOwner].  The functions
    [normalizeType], [flatten] and [enumDiff] are the same in both.

    JavaScript values are embedded as follows.

    - A parsed JSON document is a [value].  Arrays and objects carry the
      address they were allocated at, because [Set.prototype.has] and [===]
      compare them by identity; primitive values are compared by content.
    - Numbers are the integer-valued ones, as [Z]; their string form is the
      decimal numeral.
    - Strings are sequences of 8-bit code units ([string]); the order used by
      [Array.prototype.sort] is the lexicographic order on code units.
    - An object is the list of its own properties in enumeration order
      (the order of [Object.entries]).  An object without a property
      [toString] of its own converts to the string [[object Object]].  The
      conversion of an object that has such a property throws; the
      functions [normalizeType], [flatten], [enumDiff] and [diff] give the
      results of the calls that return, and [diff_throws] says which calls
      of [diff] reach a conversion that throws.
    - [Map] and [Set] are insertion-ordered lists without duplicates.
    - The policy configuration and the ownership file are typed documents:
      maps from rule keys to severity labels, where a label is any string,
      and a map from event names to arrays of team names.
    - A property lookup [o[k]] on [SEV_RANK] and on [OWNERS] follows the
      prototype chain: a name the object does not have itself may be one of
      the members of [Object.prototype], which are listed in
      [Object_prototype].  The resolver is only ever called with the rule
      keys written in the script, none of which is such a name.
    - A run is a function of a [World]: the command line, the two optional
      documents, the listing of changed files, [git show] and [JSON.parse].
      It returns the exit code, the printed report and the [git show]
      commands issued.  A run can end on an exception that nothing catches:
      when [git diff] fails, when the owners found for a changed file are
      not a list, and when the comparison of a changed file reaches a
      conversion that throws; the exit code is then 1 and no report is
      printed.
      The lines written before the report are [console]; the report is the
      record that is printed, not its JSON text.
    - The listing of changed files is a field of the world; [changed_of]
      is how the script reads it from the output of [git diff].

    The file has five parts: the embedding of the code, the vocabulary of the
    statements, lemmas, one theorem per claim, and further theorems on the
    rest of the code. *)

From Stdlib Require Import String Ascii ZArith List Bool Lia DecimalString.
From Stdlib Require Import Sorting.Sorted Sorting.Permutation.
From stdpp Require Import base option list gmap strings.

Local Open Scope string_scope.
Local Open Scope Z_scope.

(** ** Code-unit order on strings *)

Definition str_le (a b : string) : Prop := String.leb a b = true.
Definition str_lt (a b : string) : Prop := String.ltb a b = true.

(** ** [Array.prototype.sort] with the default comparator

    The default comparator orders two elements by the code-unit order of
    their string forms, and the sort is stable.  [sort_by key] is the stable
    insertion sort on the keys [key x]. *)

Section Sort.
Context {A : Type} (key : A -> string).

Fixpoint insert_sorted (x : A) (l : list A) : list A :=
  match l with
  | [] => [x]
  | y :: l' =>
      if String.ltb (key x) (key y) then x :: l
      else y :: insert_sorted x l'
  end.

Definition sort_by (l : list A) : list A :=
  fold_left (fun sorted x => insert_sorted x sorted) l [].

Definition key_le (x y : A) : Prop := str_le (key x) (key y).
End Sort.

(** ** JavaScript values *)

#[warnings="-register-all"]
Inductive value : Type :=
| VNull
| VBool (b : bool)
| VNum (n : Z)
| VStr (s : string)
| VArr (addr : nat) (items : list value)
| VObj (addr : nat) (props : list (string * value)).

(** Induction over a value, its array items and its property values. *)
Section ValueInd.
Variable P : value -> Prop.
Hypothesis Hnull : P VNull.
Hypothesis Hbool : forall b, P (VBool b).
Hypothesis Hnum : forall n, P (VNum n).
Hypothesis Hstr : forall s, P (VStr s).
Hypothesis Harr : forall a items, Forall P items -> P (VArr a items).
Hypothesis Hobj :
  forall a props, Forall (fun kv => P (snd kv)) props -> P (VObj a props).

Fixpoint value_ind' (v : value) : P v :=
  match v with
  | VNull => Hnull
  | VBool b => Hbool b
  | VNum n => Hnum n
  | VStr s => Hstr s
  | VArr a items =>
      Harr a items
        ((fix all (l : list value) : Forall P l :=
            match l with
            | [] => @List.Forall_nil _ P
            | x :: l' => @List.Forall_cons _ P x l' (value_ind' x) (all l')
            end) items)
  | VObj a props =>
      Hobj a props
        ((fix all (l : list (string * value))
            : Forall (fun kv => P (snd kv)) l :=
            match l with
            | [] => @List.Forall_nil _ _
            | kv :: l' =>
                @List.Forall_cons _ (fun kv => P (snd kv)) kv l'
                  (value_ind' (snd kv)) (all l')
            end) props)
  end.
End ValueInd.

(** ToBoolean *)
Definition truthy (v : value) : bool :=
  match v with
  | VNull => false
  | VBool b => b
  | VNum n => negb (n =? 0)
  | VStr s => negb (String.eqb s "")
  | VArr _ _ | VObj _ _ => true
  end.

(** SameValueZero, the membership test of [Set]: primitives by content,
    arrays and objects by address. *)
Definition sameValueZero (x y : value) : bool :=
  match x, y with
  | VNull, VNull => true
  | VBool a, VBool b => Bool.eqb a b
  | VNum a, VNum b => a =? b
  | VStr a, VStr b => String.eqb a b
  | VArr a _, VArr b _ => Nat.eqb a b
  | VObj a _, VObj b _ => Nat.eqb a b
  | _, _ => false
  end.

(** [===]; on this fragment (no NaN, no negative zero) it coincides with
    SameValueZero. *)
Definition strict_eq (x y : value) : bool := sameValueZero x y.

Section Join.
Context {A : Type} (str : A -> string) (sep : string).

Fixpoint join_with (l : list A) : string :=
  match l with
  | [] => ""
  | x :: l' =>
      match l' with
      | [] => str x
      | _ :: _ => str x ++ sep ++ join_with l'
      end
  end.
End Join.

(** Number::toString on integers. *)
Definition Number_toString (n : Z) : string :=
  NilZero.string_of_int (Z.to_int n).

(** ToString.  An array prints as its items joined by commas, where a
    [null] item prints as the empty string; an object prints as
    [[object Object]]. *)
Fixpoint ToString (v : value) : string :=
  match v with
  | VNull => "null"
  | VBool true => "true"
  | VBool false => "false"
  | VNum n => Number_toString n
  | VStr s => s
  | VArr _ items =>
      join_with (fun x => match x with VNull => "" | _ => ToString x end)
                "," items
  | VObj _ _ => "[object Object]"
  end.

(** [Array.prototype.join] *)
Definition join (sep : string) (l : list value) : string :=
  join_with (fun x => match x with VNull => "" | _ => ToString x end) sep l.

(** [arr.sort()] on values and on strings. *)
Definition sort_values (l : list value) : list value := sort_by ToString l.
Definition sort_strings (l : list string) : list string := sort_by id l.

(** Own-property read [o.k]; reading a property of a primitive, or one of
    these non-index names on an array, gives [undefined]. *)
Fixpoint assoc {V : Type} (k : string) (l : list (string * V)) : option V :=
  match l with
  | [] => None
  | (k', v) :: l' => if String.eqb k k' then Some v else assoc k l'
  end.

Definition get_prop (o : value) (k : string) : option value :=
  match o with
  | VObj _ props => assoc k props
  | _ => None
  end.

(** ** [Set] and [Map] as insertion-ordered lists *)

Section JsSet.
Context {A : Type} (same : A -> A -> bool).

Definition set_has (s : list A) (x : A) : bool := existsb (same x) s.

Definition set_add (s : list A) (x : A) : list A :=
  if set_has s x then s else s ++ [x].

Definition set_from (l : list A) : list A := fold_left set_add l [].

Definition set_delete (s : list A) (x : A) : list A :=
  List.filter (fun y => negb (same y x)) s.
End JsSet.

Section JsMap.
Context {V : Type}.

Definition map_get (m : list (string * V)) (k : string) : option V :=
  assoc k m.

Fixpoint map_set (m : list (string * V)) (k : string) (v : V)
  : list (string * V) :=
  match m with
  | [] => [(k, v)]
  | (k', v') :: m' =>
      if String.eqb k k' then (k', v) :: m' else (k', v') :: map_set m' k v
  end.

Definition map_keys (m : list (string * V)) : list string := map fst m.
End JsMap.

(** ** normalizeType *)

Record NormType := { nt_type : value; nt_nullable : bool }.

(** The argument is [node.type]: [None] is [undefined].  The result type is
    [rest[0]] when one entry remains (whatever that entry is), the joined
    entries when several remain, and ["unknown"] when none does. *)
Definition normalizeType (t : option value) : NormType :=
  match t with
  | Some (VArr _ items) =>
      let set := set_from sameValueZero items in
      let nullable := set_has sameValueZero set (VStr "null") in
      let set := set_delete sameValueZero set (VStr "null") in
      let rest := sort_values set in
      {| nt_type :=
           match rest with
           | [x] => x
           | _ :: _ => VStr (join "|" rest)
           | [] => VStr "unknown"
           end;
         nt_nullable := nullable |}
  | Some (VStr s) => {| nt_type := VStr s; nt_nullable := false |}
  | _ => {| nt_type := VStr "unknown"; nt_nullable := false |}
  end.

(** ** flatten *)

Record Field := {
  f_path : string;
  f_type : value;
  f_nullable : bool;
  f_required : bool;
  f_enum : option (list value)
}.

Definition Fields := list (string * Field).

(** [path ? `${path}.${k}` : k] *)
Definition child_path (path k : string) : string :=
  if String.eqb path "" then k else path ++ "." ++ k.

(** [Array.isArray(x) ? x : []] on a property that may be missing *)
Definition array_or_empty (x : option value) : list value :=
  match x with
  | Some (VArr _ items) => items
  | _ => []
  end.

(** [Array.isArray(node.enum) ? node.enum.slice() : null] *)
Definition enum_of (node : value) : option (list value) :=
  match get_prop node "enum" with
  | Some (VArr _ items) => Some items
  | _ => None
  end.

(** The set built by the loop over [required]. *)
Definition childReq_of (path : string) (required : list value) : list string :=
  fold_left
    (fun s r =>
       match r with
       | VStr r => set_add String.eqb s (child_path path r)
       | _ => s
       end)
    required [].

(** The record step of [walk]: [fields.set(path, {...})] when [path] is not
    empty. *)
Definition record_field (node : value) (path : string)
           (requiredNames : list string) (fields : Fields) : Fields :=
  let t := normalizeType (get_prop node "type") in
  let req := set_has String.eqb requiredNames path in
  if String.eqb path "" then fields
  else map_set fields path
         {| f_path := path;
            f_type := nt_type t;
            f_nullable := nt_nullable t;
            f_required := req;
            f_enum := enum_of node |}.

Definition walker : Type := string -> list string -> Fields -> Fields.

(** The body of [walk], with the recursive call as a parameter. *)
Definition walk_body (walk : value -> walker) (node : value) : walker :=
  fun path requiredNames fields =>
    if negb (truthy node) then fields
    else
      let fields := record_field node path requiredNames fields in
      let props := get_prop node "properties" in
      let required := array_or_empty (get_prop node "required") in
      match props with
      | Some (VObj _ entries) =>
          let childReq := childReq_of path required in
          fold_left
            (fun fields kv =>
               walk (snd kv) (child_path path (fst kv)) childReq fields)
            entries fields
      | _ => fields
      end.

(** [walk] by structural recursion: the walkers of the entries of every
    object-valued own property are built first, and the one under
    ["properties"] is run.  [walk_eq] below shows it satisfies the equation
    of [walk_body]. *)
Fixpoint walk (node : value) : walker :=
  fun path requiredNames fields =>
    if negb (truthy node) then fields
    else
      let fields := record_field node path requiredNames fields in
      let required := array_or_empty (get_prop node "required") in
      match node with
      | VObj _ own =>
          match
            assoc "properties"
              (map (fun kv =>
                      (fst kv,
                       match snd kv with
                       | VObj _ entries =>
                           Some (map (fun kc => (fst kc, walk (snd kc))) entries)
                       | _ => None
                       end))
                 own)
          with
          | Some (Some walkers) =>
              let childReq := childReq_of path required in
              fold_left
                (fun fields kw => snd kw (child_path path (fst kw)) childReq fields)
                walkers fields
          | _ => fields
          end
      | _ => fields
      end.

Definition flatten (schema : value) : Fields := walk schema "" [] [].

(** ** enumDiff *)

Record EnumDiff := { removed : list value; added : list value }.

(** [x || []] on an argument that is an array or [null] *)
Definition or_empty (x : option (list value)) : list value :=
  match x with
  | Some l => l
  | None => []
  end.

Definition enumDiff (oldEnum newEnum : option (list value)) : EnumDiff :=
  let a := set_from sameValueZero (or_empty oldEnum) in
  let b := set_from sameValueZero (or_empty newEnum) in
  let removed := List.filter (fun v => negb (set_has sameValueZero b v)) a in
  let added := List.filter (fun v => negb (set_has sameValueZero a v)) b in
  {| removed := sort_values removed; added := sort_values added |}.

(** ** Inherited members

    [SEV_RANK] and [OWNERS] are plain objects, and [o[k]] follows the
    prototype chain: a name that the object does not have itself is found
    in [Object.prototype] when it is one of the twelve members of that
    object.  Eleven of them are functions and [__proto__] gives
    [Object.prototype] itself; none of these values is iterable, and each
    converts to the primitive string listed here. *)
Definition Object_prototype : list (string * string) :=
  [("constructor", "function Object() { [native code] }");
   ("__defineGetter__", "function __defineGetter__() { [native code] }");
   ("__defineSetter__", "function __defineSetter__() { [native code] }");
   ("hasOwnProperty", "function hasOwnProperty() { [native code] }");
   ("__lookupGetter__", "function __lookupGetter__() { [native code] }");
   ("__lookupSetter__", "function __lookupSetter__() { [native code] }");
   ("isPrototypeOf", "function isPrototypeOf() { [native code] }");
   ("propertyIsEnumerable", "function propertyIsEnumerable() { [native code] }");
   ("toString", "function toString() { [native code] }");
   ("valueOf", "function valueOf() { [native code] }");
   ("__proto__", "[object Object]");
   ("toLocaleString", "function toLocaleString() { [native code] }")].

Definition inherited (k : string) : bool :=
  if assoc k Object_prototype is Some _ then true else false.

(** ** Policy *)

(** Severity labels are plain strings: the code accepts any label and
    ranks the ones it does not know as [warn]. *)
Abbreviation SevMap := (gmap string string).

Definition DEFAULT_POLICY : SevMap :=
  list_to_map
    [("FIELD_REMOVED_REQUIRED", "block");
     ("FIELD_REMOVED_OPTIONAL", "warn");
     ("FIELD_ADDED_REQUIRED", "block");
     ("FIELD_ADDED_OPTIONAL", "pass");
     ("REQUIRED_BECOMES_REQUIRED", "block");
     ("REQUIRED_BECOMES_OPTIONAL", "warn");
     ("TYPE_CHANGED", "block");
     ("ENUM_VALUE_REMOVED", "block");
     ("ENUM_VALUE_ADDED", "pass");
     ("FILE_REMOVED", "block");
     ("FILE_ADDED", "pass");
     ("INVALID_JSON", "block")].

(** The [policy] object of [eventdiff.config.json], in its two formats:
    [{default: {...}, overrides_by_owner: {...}}], or the older flat map of
    rule keys (which may carry [overrides_by_owner] as well). *)
Inductive PolicyDoc : Type :=
| PolicyNew (default : SevMap) (overrides_by_owner : option (gmap string SevMap))
| PolicyFlat (flat : SevMap) (overrides_by_owner : option (gmap string SevMap)).

Definition doc_overrides (doc : PolicyDoc) : option (gmap string SevMap) :=
  match doc with
  | PolicyNew _ o | PolicyFlat _ o => o
  end.

Record Policy := {
  POLICY_DEFAULT : SevMap;
  POLICY_OVERRIDES_BY_OWNER : gmap string SevMap
}.

(** The configuration block.  [cfg] is [None] when the file is missing, is
    not JSON, or has no [policy] object.  [{...DEFAULT_POLICY, ...m}] is the
    union that prefers [m].  In the flat format the spread copies the
    [overrides_by_owner] property too; its value is an object, which ranks
    and prints as the label ["[object Object]"]. *)
Definition load_policy (cfg : option PolicyDoc) : Policy :=
  match cfg with
  | None =>
      {| POLICY_DEFAULT := DEFAULT_POLICY; POLICY_OVERRIDES_BY_OWNER := ∅ |}
  | Some doc =>
      {| POLICY_DEFAULT :=
           match doc with
           | PolicyNew d _ => d ∪ DEFAULT_POLICY
           | PolicyFlat f None => f ∪ DEFAULT_POLICY
           | PolicyFlat f (Some _) =>
               (<["overrides_by_owner" := "[object Object]"]> f) ∪ DEFAULT_POLICY
           end;
         POLICY_OVERRIDES_BY_OWNER :=
           match doc_overrides doc with
           | Some o => o
           | None => ∅
           end |}
  end.

Definition SEV_RANK : gmap string Z :=
  list_to_map [("pass", 0); ("warn", 1); ("block", 2)].

(** What [SEV_RANK[a] ?? 1] is when [>=] has converted it to a primitive:
    a number, or the string of an inherited member. *)
Inductive RankValue : Type :=
| RankNum (n : Z)
| RankText (s : string).

Definition rank_value (a : string) : RankValue :=
  match SEV_RANK !! a with
  | Some r => RankNum r
  | None =>
      match assoc a Object_prototype with
      | Some text => RankText text
      | None => RankNum 1
      end
  end.

(** [x >= y].  Two strings are compared by code units.  A string against a
    number is converted to a number, which for the strings of
    [Object_prototype] is NaN, and every comparison with NaN is false. *)
Definition rank_geq (x y : RankValue) : bool :=
  match x, y with
  | RankNum m, RankNum n => m >=? n
  | RankText s, RankText t => negb (String.ltb s t)
  | _, _ => false
  end.

Definition maxSev (a b : string) : string :=
  if rank_geq (rank_value a) (rank_value b) then a else b.

(** The rank of a label in the order [pass < warn < block], with 1 for a
    label that [SEV_RANK] does not list.  It is the number [maxSev] compares
    for every label that is not the name of an inherited member. *)
Definition rank (a : string) : Z :=
  match SEV_RANK !! a with
  | Some r => r
  | None => 1
  end.

(** ToBoolean on a string *)
Definition nonempty (s : string) : bool := negb (String.eqb s "").

Definition sevForOwner (pol : Policy) (key : string) (ownerTeams : list string)
  : string :=
  let s :=
    match POLICY_DEFAULT pol !! key with
    | Some d => if nonempty d then d else "warn"
    | None => "warn"
    end in
  fold_left
    (fun s team =>
       match POLICY_OVERRIDES_BY_OWNER pol !! team with
       | Some teamPolicy =>
           match teamPolicy !! key with
           | Some override => if nonempty override then maxSev s override else s
           | None => s
           end
       | None => s
       end)
    ownerTeams s.

(** ** diff *)

Record Change := {
  c_severity : string;
  c_kind : string;
  c_path : string;
  c_message : string
}.

Record Summary := {
  decision : string;
  blocks : nat;
  warns : nat;
  passes : nat
}.

Record DiffResult := { summary : Summary; changes : list Change }.

Definition count_severity (sev : string) (cs : list Change) : nat :=
  length (List.filter (fun c => String.eqb (c_severity c) sev) cs).

(** The tail of [diff]: the three counts and the decision. *)
Definition summarize (cs : list Change) : DiffResult :=
  let blocks := count_severity "block" cs in
  let warns := count_severity "warn" cs in
  let passes := count_severity "pass" cs in
  {| summary :=
       {| decision := if (0 <? blocks)%nat then "FAIL" else "PASS";
          blocks := blocks; warns := warns; passes := passes |};
     changes := cs |}.

(** [Array.from(new Set([...A.keys(), ...B.keys()])).sort()] *)
Definition diff_paths (A B : Fields) : list string :=
  sort_strings (set_from String.eqb (map_keys A ++ map_keys B)).

(** The changes pushed by one round of the loop, for the descriptors
    [a = A.get(path)] and [b = B.get(path)]: the plain variant. *)
Definition nullable_suffix (f : Field) : string :=
  if f_nullable f then " (nullable)" else "".

Definition type_message (path : string) (a b : Field) : string :=
  "Type changed '" ++ path ++ "': " ++ ToString (f_type a) ++ nullable_suffix a
    ++ " → " ++ ToString (f_type b) ++ nullable_suffix b.

Definition type_differs (a b : Field) : bool :=
  negb (strict_eq (f_type a) (f_type b))
  || negb (Bool.eqb (f_nullable a) (f_nullable b)).

Module Plain.

Definition changes_at (path : string) (a b : option Field) : list Change :=
  match a, b with
  | Some a, None =>
      [{| c_severity := if f_required a then "block" else "warn";
          c_kind := "FIELD_REMOVED";
          c_path := path;
          c_message :=
            if f_required a then "Removed required field '" ++ path ++ "'."
            else "Removed optional field '" ++ path ++ "'." |}]
  | None, Some b =>
      [{| c_severity := if f_required b then "block" else "pass";
          c_kind := "FIELD_ADDED";
          c_path := path;
          c_message :=
            if f_required b then "Added required field '" ++ path ++ "'."
            else "Added optional field '" ++ path ++ "'." |}]
  | None, None => []
  | Some a, Some b =>
      let ed := enumDiff (f_enum a) (f_enum b) in
      (if negb (Bool.eqb (f_required a) (f_required b)) then
         [{| c_severity :=
               if negb (f_required a) && f_required b then "block" else "warn";
             c_kind := "REQUIRED_CHANGED";
             c_path := path;
             c_message :=
               if negb (f_required a) && f_required b
               then "Optional → required: '" ++ path ++ "'."
               else "Required → optional: '" ++ path ++ "'." |}]
       else [])
      ++ (if type_differs a b then
            [{| c_severity := "block";
                c_kind := "TYPE_CHANGED";
                c_path := path;
                c_message := type_message path a b |}]
          else [])
      ++ (if (0 <? length (removed ed))%nat then
            [{| c_severity := "block";
                c_kind := "ENUM_VALUE_REMOVED";
                c_path := path;
                c_message :=
                  "Enum removed from '" ++ path ++ "': "
                    ++ join ", " (removed ed) |}]
          else [])
      ++ (if (0 <? length (added ed))%nat then
            [{| c_severity := "pass";
                c_kind := "ENUM_VALUE_ADDED";
                c_path := path;
                c_message :=
                  "Enum added to '" ++ path ++ "': " ++ join ", " (added ed) |}]
          else [])
  end.

Definition diff (oldSchema newSchema : value) : DiffResult :=
  let A := flatten oldSchema in
  let B := flatten newSchema in
  summarize
    (flat_map (fun path => changes_at path (map_get A path) (map_get B path))
       (diff_paths A B)).

End Plain.

(** The policy-aware variant: every severity goes through [sevForOwner],
    and a change of the required flag is reported under its rule key. *)
Section PolicyDiff.
Variable pol : Policy.

Definition changes_at (ownerTeams : list string) (path : string)
           (a b : option Field) : list Change :=
  match a, b with
  | Some a, None =>
      [{| c_severity :=
            if f_required a
            then sevForOwner pol "FIELD_REMOVED_REQUIRED" ownerTeams
            else sevForOwner pol "FIELD_REMOVED_OPTIONAL" ownerTeams;
          c_kind := "FIELD_REMOVED";
          c_path := path;
          c_message :=
            if f_required a then "Removed required field '" ++ path ++ "'."
            else "Removed optional field '" ++ path ++ "'." |}]
  | None, Some b =>
      [{| c_severity :=
            if f_required b
            then sevForOwner pol "FIELD_ADDED_REQUIRED" ownerTeams
            else sevForOwner pol "FIELD_ADDED_OPTIONAL" ownerTeams;
          c_kind := "FIELD_ADDED";
          c_path := path;
          c_message :=
            if f_required b then "Added required field '" ++ path ++ "'."
            else "Added optional field '" ++ path ++ "'." |}]
  | None, None => []
  | Some a, Some b =>
      let ed := enumDiff (f_enum a) (f_enum b) in
      (if negb (Bool.eqb (f_required a) (f_required b)) then
         [{| c_severity :=
               if negb (f_required a) && f_required b
               then sevForOwner pol "REQUIRED_BECOMES_REQUIRED" ownerTeams
               else sevForOwner pol "REQUIRED_BECOMES_OPTIONAL" ownerTeams;
             c_kind :=
               if negb (f_required a) && f_required b
               then "REQUIRED_BECOMES_REQUIRED"
               else "REQUIRED_BECOMES_OPTIONAL";
             c_path := path;
             c_message :=
               if negb (f_required a) && f_required b
               then "Optional → required: '" ++ path ++ "'."
               else "Required → optional: '" ++ path ++ "'." |}]
       else [])
      ++ (if type_differs a b then
            [{| c_severity := sevForOwner pol "TYPE_CHANGED" ownerTeams;
                c_kind := "TYPE_CHANGED";
                c_path := path;
                c_message := type_message path a b |}]
          else [])
      ++ (if (0 <? length (removed ed))%nat then
            [{| c_severity := sevForOwner pol "ENUM_VALUE_REMOVED" ownerTeams;
                c_kind := "ENUM_VALUE_REMOVED";
                c_path := path;
                c_message :=
                  "Enum removed from '" ++ path ++ "': "
                    ++ join ", " (removed ed) |}]
          else [])
      ++ (if (0 <? length (added ed))%nat then
            [{| c_severity := sevForOwner pol "ENUM_VALUE_ADDED" ownerTeams;
                c_kind := "ENUM_VALUE_ADDED";
                c_path := path;
                c_message :=
                  "Enum added to '" ++ path ++ "': " ++ join ", " (added ed) |}]
          else [])
  end.

Definition diff (oldSchema newSchema : value) (ownerTeams : list string)
  : DiffResult :=
  let A := flatten oldSchema in
  let B := flatten newSchema in
  summarize
    (flat_map
       (fun path => changes_at ownerTeams path (map_get A path) (map_get B path))
       (diff_paths A B)).
End PolicyDiff.

(** ** Conversions that throw

    [ToString] on an object calls the method [toString] that the object has
    or inherits, and then [valueOf].  A parsed document holds no function:
    an object with a property [toString] of its own has no callable
    [toString], its inherited [valueOf] returns the object itself, and the
    conversion throws a [TypeError].  Every other object converts to
    [[object Object]], and an array converts when its items do.  The
    functions above give the results of the conversions that return; the
    ones below say where [diff] reaches a conversion that throws. *)

Fixpoint convertible (v : value) : bool :=
  match v with
  | VArr _ items => forallb convertible items
  | VObj _ props => if assoc "toString" props is Some _ then false else true
  | _ => true
  end.

(** [arr.sort()] with the default comparator converts both items of every
    comparison, and compares every item once there are two of them. *)
Definition sort_throws (l : list value) : bool :=
  (2 <=? length l)%nat && negb (forallb convertible l).

(** [arr.join(sep)] converts every item but [null]. *)
Definition join_throws (l : list value) : bool :=
  negb (forallb convertible l).

(** [normalizeType(t)]: the sort, and the join when several entries
    remain. *)
Definition normalizeType_throws (t : option value) : bool :=
  match t with
  | Some (VArr _ items) =>
      let set := set_from sameValueZero items in
      let set := set_delete sameValueZero set (VStr "null") in
      let rest := sort_values set in
      sort_throws set
      || match rest with
         | [x] => false
         | _ :: _ => join_throws rest
         | [] => false
         end
  | _ => false
  end.

(** [walk(node, ...)]: [normalizeType(node.type)] at the node, and the
    calls on the entries of [node.properties]. *)
Fixpoint walk_throws (node : value) : bool :=
  if negb (truthy node) then false
  else
    normalizeType_throws (get_prop node "type")
    || match node with
       | VObj _ own =>
           match
             assoc "properties"
               (map (fun kv =>
                       (fst kv,
                        match snd kv with
                        | VObj _ entries =>
                            Some (existsb (fun kc => walk_throws (snd kc)) entries)
                        | _ => None
                        end))
                  own)
           with
           | Some (Some below) => below
           | _ => false
           end
       | _ => false
       end.

Definition flatten_throws (schema : value) : bool := walk_throws schema.

(** [enumDiff(oldEnum, newEnum)]: the two sorts. *)
Definition enumDiff_throws (oldEnum newEnum : option (list value)) : bool :=
  let a := set_from sameValueZero (or_empty oldEnum) in
  let b := set_from sameValueZero (or_empty newEnum) in
  let removed := List.filter (fun v => negb (set_has sameValueZero b v)) a in
  let added := List.filter (fun v => negb (set_has sameValueZero a v)) b in
  sort_throws removed || sort_throws added.

(** The template of the [TYPE_CHANGED] message converts both types. *)
Definition type_message_throws (a b : Field) : bool :=
  negb (convertible (f_type a)) || negb (convertible (f_type b)).

(** One round of the loop of [diff], in either variant: the message of a
    type change, [enumDiff], and the joins in the two enum messages. *)
Definition changes_throw (a b : option Field) : bool :=
  match a, b with
  | Some a, Some b =>
      type_differs a b && type_message_throws a b
      || enumDiff_throws (f_enum a) (f_enum b)
      || (let ed := enumDiff (f_enum a) (f_enum b) in
          (0 <? length (removed ed))%nat && join_throws (removed ed)
          || (0 <? length (added ed))%nat && join_throws (added ed))
  | _, _ => false
  end.

(** [diff(oldSchema, newSchema)] throws at a conversion: in one of the two
    calls of [flatten], or in a round of its loop. *)
Definition diff_throws (oldSchema newSchema : value) : bool :=
  flatten_throws oldSchema
  || flatten_throws newSchema
  || (let A := flatten oldSchema in
      let B := flatten newSchema in
      existsb (fun path => changes_throw (map_get A path) (map_get B path))
        (diff_paths A B)).

(** ** The run *)

(** *** Command line *)

(** A value of [args]: the text after [=], or [true] when there is none. *)
Inductive argval : Type :=
| ArgTrue
| ArgStr (s : string).

(** [x.split(sep)] for a one-character separator *)
Fixpoint split_on (sep : ascii) (x : string) : list string :=
  match x with
  | EmptyString => [""]
  | String c x' =>
      if Ascii.eqb c sep then "" :: split_on sep x'
      else
        match split_on sep x' with
        | part :: parts => String c part :: parts
        | [] => [String c ""]
        end
  end.

(** [k.replace(/^--/, "")] *)
Definition strip_dashes (k : string) : string :=
  match k with
  | String "-" (String "-" k') => k'
  | _ => k
  end.

(** [const [k, v] = x.split("="); return [k.replace(/^--/, ""), v ?? true]] *)
Definition parse_arg (x : string) : string * argval :=
  match split_on "=" x with
  | k :: v :: _ => (strip_dashes k, ArgStr v)
  | k :: [] => (strip_dashes k, ArgTrue)
  | [] => ("", ArgTrue)
  end.

(** [Object.fromEntries(entries)[k]]: the last entry for [k] wins. *)
Definition args_get (entries : list (string * argval)) (k : string)
  : option argval :=
  assoc k (rev entries).

(** ToBoolean and ToString on [args.k], where [None] is [undefined] *)
Definition arg_truthy (a : option argval) : bool :=
  match a with
  | None => false
  | Some ArgTrue => true
  | Some (ArgStr s) => nonempty s
  end.

Definition arg_text (a : option argval) : string :=
  match a with
  | None => "undefined"
  | Some ArgTrue => "true"
  | Some (ArgStr s) => s
  end.

(** *** Files *)

(** [path.basename(p)]: the last non-empty component. *)
Definition basename (p : string) : string :=
  List.last (List.filter nonempty (split_on "/" p)) "".

(** [s.replace(/\.json$/, "")] *)
Definition strip_json (s : string) : string :=
  let n := String.length s in
  if (5 <=? n)%nat && String.eqb (substring (n - 5) 5 s) ".json"
  then substring 0 (n - 5) s
  else s.

Definition eventNameFromFile (filePath : string) : string :=
  strip_json (basename filePath).

(** What the run reads from outside: the command line, the two optional
    documents, the listing of changed files (after the split, trim and
    filter; [None] when [git diff] fails, so that [sh] throws), [git show]
    (with [None] when the command fails) and [JSON.parse].
    [JSON_parse n text] is the outcome of parsing [text] in the [n]-th call
    of the run, [None] when it throws; the call number stands for the state
    of the heap, which decides the addresses of the arrays and objects of
    the result.  [OWNERS] holds the properties that the owners document has
    itself, each an array of team names. *)
Record World := {
  argv : list string;
  config : option PolicyDoc;
  OWNERS : gmap string (list string);
  git_diff_names : option (list string);
  git_show : string -> string -> option string;
  JSON_parse : nat -> string -> option value
}.

Record GitFile := { ok : bool; content : option string }.

Record FileReport := {
  file : string;
  file_summary : Summary;
  file_changes : list Change
}.

Record RunReport := {
  run_base : option argval;
  run_head : option argval;
  run_dir : argval;
  run_summary : Summary;
  reports : list FileReport
}.

(** The state of the loop over [changed]: the two variables of the script,
    the number of calls of [JSON.parse] made, and the [git show] commands
    issued so far. *)
Record LoopState := {
  ls_reports : list FileReport;
  anyBlock : bool;
  parses : nat;
  shows : list (string * string)
}.

(** The end of the process: its exit code, the report it printed (none on a
    usage error) and the [git show] commands it ran. *)
Record Outcome := {
  exit_code : Z;
  final : option RunReport;
  retrievals : list (string * string)
}.

(** How a stretch of the script ends: it goes on with a value, or it
    throws an exception that nothing catches, which ends the process with
    exit code 1 before anything more is written.  [Thrown] carries the
    state the exception leaves behind. *)
Inductive Completion (A : Type) : Type :=
| Normal (a : A)
| Thrown (a : A).

Arguments Normal {A} a.
Arguments Thrown {A} a.

Section Run.
Variable w : World.

Definition tryGitShow (ref path : string) : GitFile :=
  match git_show w ref path with
  | Some text => {| ok := true; content := Some text |}
  | None => {| ok := false; content := None |}
  end.

(** [JSON.parse(text)] converts its argument to a string first, so a
    [null] content is parsed as the text ["null"].  The result is
    [Some value] for [{ok: true, value}] and [None] for [{ok: false}]. *)
Definition safeJsonParse (n : nat) (text : option string) : option value :=
  JSON_parse w n
    match text with
    | Some t => t
    | None => "null"
    end.

(** [OWNERS[eventName] || []].  An array is truthy, also the empty one.
    When [OWNERS] has no property [eventName] itself and [eventName] is a
    name of [Object_prototype], the lookup finds the inherited member, which
    is truthy and not iterable: that is [None]. *)
Definition owners_lookup (eventName : string) : option (list string) :=
  match OWNERS w !! eventName with
  | Some teams => Some teams
  | None => if inherited eventName then None else Some []
  end.

(** [sevForOwner(key, ownerTeams)] on the value of [ownerTeams]: the loop
    [for (const team of ownerTeams || [])] throws when it is not iterable. *)
Definition sevForOwner_of (pol : Policy) (key : string)
           (ownerTeams : option (list string)) : option string :=
  match ownerTeams with
  | Some teams => Some (sevForOwner pol key teams)
  | None => None
  end.

(** [diff(oldSchema, newSchema, ownerTeams)] on the value of [ownerTeams];
    [None] when the call throws.  It throws at a conversion, as
    [diff_throws] says.  Every change that [diff] pushes resolves its
    severity through [sevForOwner]; with a value that is not iterable the
    call therefore throws at the first change, and returns the result
    without changes when no round pushes one.  Which rounds push a change
    does not depend on the owner teams. *)
Definition diff_of (pol : Policy) (oldSchema newSchema : value)
           (ownerTeams : option (list string)) : option DiffResult :=
  if diff_throws oldSchema newSchema then None
  else
    match ownerTeams with
    | Some teams => Some (diff pol oldSchema newSchema teams)
    | None =>
        let r := diff pol oldSchema newSchema [] in
        match changes r with
        | [] => Some r
        | _ :: _ => None
        end
    end.

Definition single_report (path : string) (dec : string) (b wn p : nat)
           (c : Change) : FileReport :=
  {| file := path;
     file_summary := {| decision := dec; blocks := b; warns := wn; passes := p |};
     file_changes := [c] |}.

(** One round of [for (const path of changed)]. *)
Definition step (pol : Policy) (base head : string) (st : LoopState)
           (path : string) : Completion LoopState :=
  let eventName := eventNameFromFile path in
  let ownerTeams := owners_lookup eventName in
  let oldFile := tryGitShow base path in
  let newFile := tryGitShow head path in
  let shows' := (shows st ++ [(base, path); (head, path)])%list in
  if negb (ok oldFile) && ok newFile then
    match sevForOwner_of pol "FILE_ADDED" ownerTeams with
    | Some severity =>
        Normal
          {| ls_reports :=
               ls_reports st ++
                 [single_report path "PASS" 0 0 1
                    {| c_severity := severity;
                       c_kind := "FILE_ADDED";
                       c_path := path;
                       c_message := "Schema file added: " ++ path |}];
             anyBlock := anyBlock st;
             parses := parses st;
             shows := shows' |}
    | None =>
        Thrown
          {| ls_reports := ls_reports st; anyBlock := anyBlock st;
             parses := parses st; shows := shows' |}
    end
  else if ok oldFile && negb (ok newFile) then
    match sevForOwner_of pol "FILE_REMOVED" ownerTeams with
    | Some severity =>
        Normal
          {| ls_reports :=
               ls_reports st ++
                 [single_report path "FAIL" 1 0 0
                    {| c_severity := severity;
                       c_kind := "FILE_REMOVED";
                       c_path := path;
                       c_message := "Schema file removed: " ++ path |}];
             anyBlock := true;
             parses := parses st;
             shows := shows' |}
    | None =>
        Thrown
          {| ls_reports := ls_reports st; anyBlock := anyBlock st;
             parses := parses st; shows := shows' |}
    end
  else
    let oldParsed := safeJsonParse (parses st) (content oldFile) in
    let newParsed := safeJsonParse (S (parses st)) (content newFile) in
    match oldParsed, newParsed with
    | Some oldValue, Some newValue =>
        match diff_of pol oldValue newValue ownerTeams with
        | Some r =>
            Normal
              {| ls_reports :=
                   ls_reports st ++
                     [{| file := path;
                         file_summary := summary r;
                         file_changes := changes r |}];
                 anyBlock :=
                   if (0 <? blocks (summary r))%nat then true else anyBlock st;
                 parses := S (S (parses st));
                 shows := shows' |}
        | None =>
            Thrown
              {| ls_reports := ls_reports st; anyBlock := anyBlock st;
                 parses := S (S (parses st)); shows := shows' |}
        end
    | _, _ =>
        match sevForOwner_of pol "INVALID_JSON" ownerTeams with
        | Some severity =>
            Normal
              {| ls_reports :=
                   ls_reports st ++
                     [single_report path "FAIL" 1 0 0
                        {| c_severity := severity;
                           c_kind := "INVALID_JSON";
                           c_path := path;
                           c_message :=
                             "Invalid JSON in "
                               ++ (if oldParsed is None then "base" else "head")
                               ++ " version of " ++ path ++ "." |}];
                 anyBlock := true;
                 parses := S (S (parses st));
                 shows := shows' |}
        | None =>
            Thrown
              {| ls_reports := ls_reports st; anyBlock := anyBlock st;
                 parses := S (S (parses st)); shows := shows' |}
        end
    end.

(** The loop: an exception in one round ends it. *)
Fixpoint loop (pol : Policy) (base head : string) (changed : list string)
         (st : LoopState) : Completion LoopState :=
  match changed with
  | [] => Normal st
  | path :: changed' =>
      match step pol base head st path with
      | Normal st' => loop pol base head changed' st'
      | Thrown st' => Thrown st'
      end
  end.

(** The loop that fills the set [ownerTeams] from the reports, after the
    first line is written: [for (const t of teams) ownerTeams.add(t)] throws
    on a value that is not iterable. *)
Fixpoint collect_owners (rs : list FileReport) (ownerTeams : list string)
  : option (list string) :=
  match rs with
  | [] => Some ownerTeams
  | r :: rs' =>
      match owners_lookup (eventNameFromFile (file r)) with
      | Some teams =>
          collect_owners rs' (fold_left (set_add String.eqb) teams ownerTeams)
      | None => None
      end
  end.

Definition sum_of (f : Summary -> nat) (rs : list FileReport) : nat :=
  fold_left (fun a r => (a + f (file_summary r))%nat) rs 0%nat.

(** The end of a run on an exception that nothing catches. *)
Definition uncaught (issued : list (string * string)) : Outcome :=
  {| exit_code := 1; final := None; retrievals := issued |}.

(** The whole script, from the command line to [process.exit]. *)
Definition main : Outcome :=
  let args := map parse_arg (argv w) in
  let base := args_get args "base" in
  let head := args_get args "head" in
  let dir :=
    if arg_truthy (args_get args "dir")
    then match args_get args "dir" with Some d => d | None => ArgTrue end
    else ArgStr "schemas" in
  let pol := load_policy (config w) in
  if negb (arg_truthy base) || negb (arg_truthy head) then
    {| exit_code := 2; final := None; retrievals := [] |}
  else
    match git_diff_names w with
    | None => uncaught []
    | Some changed =>
        if (length changed =? 0)%nat then
          {| exit_code := 0;
             final :=
               Some {| run_base := base; run_head := head; run_dir := dir;
                       run_summary :=
                         {| decision := "PASS";
                            blocks := 0; warns := 0; passes := 0 |};
                       reports := [] |};
             retrievals := [] |}
        else
          match
            loop pol (arg_text base) (arg_text head) changed
              {| ls_reports := []; anyBlock := false; parses := 0; shows := [] |}
          with
          | Thrown st => uncaught (shows st)
          | Normal st =>
              match collect_owners (ls_reports st) [] with
              | None => uncaught (shows st)
              | Some _ =>
                  {| exit_code := if anyBlock st then 1 else 0;
                     final :=
                       Some {| run_base := base; run_head := head;
                               run_dir := dir;
                               run_summary :=
                                 {| decision :=
                                      if anyBlock st then "FAIL" else "PASS";
                                    blocks := sum_of blocks (ls_reports st);
                                    warns := sum_of warns (ls_reports st);
                                    passes := sum_of passes (ls_reports st) |};
                               reports := ls_reports st |};
                     retrievals := shows st |}
              end
          end
    end.
End Run.

(** *** The run of the plain variant *)

(** [cli/eventdiff.mjs] reads neither a configuration nor the owners: the
    severities of the three file changes are the literals, and the
    comparison is [Plain.diff].  A round of its loop throws only at a
    conversion inside [diff]; the run ends on an exception there, and when
    [git diff] fails. *)
Module PlainRun.

(** What the plain variant prints: with no changed file an object of the
    shape of a [diff] result, [{summary, changes: []}], and a run report
    otherwise. *)
Inductive Printed : Type :=
| PrintedDiff (r : DiffResult)
| PrintedRun (r : RunReport).

Record PlainOutcome := {
  p_exit_code : Z;
  p_printed : option Printed;
  p_retrievals : list (string * string)
}.

Section Run.
Variable w : World.

(** [diff(oldSchema, newSchema)]; [None] when the call throws. *)
Definition diff_of (oldSchema newSchema : value) : option DiffResult :=
  if diff_throws oldSchema newSchema then None
  else Some (Plain.diff oldSchema newSchema).

Definition step (base head : string) (st : LoopState) (path : string)
  : Completion LoopState :=
  let oldFile := tryGitShow w base path in
  let newFile := tryGitShow w head path in
  let shows' := (shows st ++ [(base, path); (head, path)])%list in
  if negb (ok oldFile) && ok newFile then
    Normal
      {| ls_reports :=
           ls_reports st ++
             [single_report path "PASS" 0 0 1
                {| c_severity := "pass";
                   c_kind := "FILE_ADDED";
                   c_path := path;
                   c_message := "Schema file added: " ++ path |}];
         anyBlock := anyBlock st;
         parses := parses st;
         shows := shows' |}
  else if ok oldFile && negb (ok newFile) then
    Normal
      {| ls_reports :=
           ls_reports st ++
             [single_report path "FAIL" 1 0 0
                {| c_severity := "block";
                   c_kind := "FILE_REMOVED";
                   c_path := path;
                   c_message := "Schema file removed: " ++ path |}];
         anyBlock := true;
         parses := parses st;
         shows := shows' |}
  else
    let oldParsed := safeJsonParse w (parses st) (content oldFile) in
    let newParsed := safeJsonParse w (S (parses st)) (content newFile) in
    match oldParsed, newParsed with
    | Some oldValue, Some newValue =>
        match diff_of oldValue newValue with
        | Some r =>
            Normal
              {| ls_reports :=
                   ls_reports st ++
                     [{| file := path;
                         file_summary := summary r;
                         file_changes := changes r |}];
                 anyBlock :=
                   if (0 <? blocks (summary r))%nat then true else anyBlock st;
                 parses := S (S (parses st));
                 shows := shows' |}
        | None =>
            Thrown
              {| ls_reports := ls_reports st; anyBlock := anyBlock st;
                 parses := S (S (parses st)); shows := shows' |}
        end
    | _, _ =>
        Normal
          {| ls_reports :=
               ls_reports st ++
                 [single_report path "FAIL" 1 0 0
                    {| c_severity := "block";
                       c_kind := "INVALID_JSON";
                       c_path := path;
                       c_message :=
                         "Invalid JSON in "
                           ++ (if oldParsed is None then "base" else "head")
                           ++ " version of " ++ path ++ "." |}];
             anyBlock := true;
             parses := S (S (parses st));
             shows := shows' |}
    end.

(** The loop: an exception in one round ends it. *)
Fixpoint loop (base head : string) (changed : list string) (st : LoopState)
  : Completion LoopState :=
  match changed with
  | [] => Normal st
  | path :: changed' =>
      match step base head st path with
      | Normal st' => loop base head changed' st'
      | Thrown st' => Thrown st'
      end
  end.

Definition main : PlainOutcome :=
  let args := map parse_arg (argv w) in
  let base := args_get args "base" in
  let head := args_get args "head" in
  let dir :=
    if arg_truthy (args_get args "dir")
    then match args_get args "dir" with Some d => d | None => ArgTrue end
    else ArgStr "schemas" in
  if negb (arg_truthy base) || negb (arg_truthy head) then
    {| p_exit_code := 2; p_printed := None; p_retrievals := [] |}
  else
    match git_diff_names w with
    | None => {| p_exit_code := 1; p_printed := None; p_retrievals := [] |}
    | Some changed =>
        if (length changed =? 0)%nat then
          {| p_exit_code := 0;
             p_printed :=
               Some (PrintedDiff
                       {| summary :=
                            {| decision := "PASS";
                               blocks := 0; warns := 0; passes := 0 |};
                          changes := [] |});
             p_retrievals := [] |}
        else
          match
            loop (arg_text base) (arg_text head) changed
              {| ls_reports := []; anyBlock := false; parses := 0;
                 shows := [] |}
          with
          | Thrown st =>
              {| p_exit_code := 1; p_printed := None;
                 p_retrievals := shows st |}
          | Normal st =>
              {| p_exit_code := if anyBlock st then 1 else 0;
                 p_printed :=
                   Some (PrintedRun
                           {| run_base := base; run_head := head;
                              run_dir := dir;
                              run_summary :=
                                {| decision :=
                                     if anyBlock st then "FAIL" else "PASS";
                                   blocks := sum_of blocks (ls_reports st);
                                   warns := sum_of warns (ls_reports st);
                                   passes := sum_of passes (ls_reports st) |};
                              reports := ls_reports st |});
                 p_retrievals := shows st |}
          end
    end.
End Run.
End PlainRun.

(** *** The listing of changed files *)

(** The white space and line terminators of [String.prototype.trim] among
    the 8-bit code units: tab, line feed, vertical tab, form feed, carriage
    return, space and no-break space. *)
Definition is_space (c : ascii) : bool :=
  let n := nat_of_ascii c in
  ((9 <=? n) && (n <=? 13) || (n =? 32) || (n =? 160))%nat.

Fixpoint trim_start (s : string) : string :=
  match s with
  | EmptyString => ""
  | String c s' => if is_space c then trim_start s' else s
  end.

Fixpoint trim_end (s : string) : string :=
  match s with
  | EmptyString => ""
  | String c s' =>
      match trim_end s' with
      | EmptyString => if is_space c then "" else String c ""
      | t => String c t
      end
  end.

Definition trim (s : string) : string := trim_end (trim_start s).

(** [sh(cmd).split("\n").map((s) => s.trim()).filter(Boolean)], where
    [stdout] is what the command wrote and [sh] trims it. *)
Definition changed_of (stdout : string) : list string :=
  List.filter nonempty (map trim (split_on "010" (trim stdout))).


(** * Vocabulary of the statements *)

(** Pairwise different members, for the membership test [same]. *)
Definition distinct {A : Type} (same : A -> A -> bool) (s : list A) : Prop :=
  ForallOrdPairs (fun x y => same x y = false) s.

(** [v] is a member of the set built from [l]. *)
Definition in_set (v : value) (l : list value) : Prop :=
  exists w, In w l /\ sameValueZero v w = true.

(** One side of [enumDiff]: the members of [l] that [m] lacks, sorted. *)
Definition only_in (l m : list value) : list value :=
  sort_values
    (List.filter
       (fun v => negb (set_has sameValueZero (set_from sameValueZero m) v))
       (set_from sameValueZero l)).

(** The descriptor [walk] stores for [node] at [path], under the
    required-name set it was called with. *)
Definition descriptor_of (node : value) (path : string)
           (requiredNames : list string) : Field :=
  {| f_path := path;
     f_type := nt_type (normalizeType (get_prop node "type"));
     f_nullable := nt_nullable (normalizeType (get_prop node "type"));
     f_required := set_has String.eqb requiredNames path;
     f_enum := enum_of node |}.

(** The calls of [walk] made by [flatten schema]: the root call, and for a
    called truthy node with an object-valued [properties], one call per
    entry, with the set built from the node's own [required]. *)
Inductive visited (schema : value) : value -> string -> list string -> Prop :=
| visited_root : visited schema schema "" []
| visited_child parent path requiredNames a entries k child :
    visited schema parent path requiredNames ->
    truthy parent = true ->
    get_prop parent "properties" = Some (VObj a entries) ->
    In (k, child) entries ->
    visited schema child (child_path path k)
      (childReq_of path (array_or_empty (get_prop parent "required"))).

(** The three severities, and the check that the labels configured for a
    rule key (in the default table in force and in every owner's overrides)
    are among them. *)
Definition is_sev (s : string) : Prop :=
  s = "pass" \/ s = "warn" \/ s = "block".

Definition is_sevb (s : string) : bool :=
  String.eqb s "pass" || String.eqb s "warn" || String.eqb s "block".

Definition label_ok (m : SevMap) (key : string) : bool :=
  match m !! key with
  | Some s => is_sevb s
  | None => true
  end.

Definition labels_ok (pol : Policy) (key : string) : bool :=
  label_ok (POLICY_DEFAULT pol) key
  && forallb (fun tp => label_ok (snd tp) key)
       (map_to_list (POLICY_OVERRIDES_BY_OWNER pol)).

(** The default map the configuration gives, if any. *)
Definition configured_default (cfg : option PolicyDoc) : SevMap :=
  match cfg with
  | Some (PolicyNew d _) => d
  | Some (PolicyFlat f _) => f
  | None => ∅
  end.

(** The effective default of a rule key: the configured one, else the
    built-in one, else ["warn"]. *)
Definition effective_default (cfg : option PolicyDoc) (key : string) : string :=
  match configured_default cfg !! key with
  | Some s => s
  | None =>
      match DEFAULT_POLICY !! key with
      | Some s => s
      | None => "warn"
      end
  end.

(** The overrides that exist for a rule key among the owner teams. *)
Definition overrides_for (pol : Policy) (key : string) (teams : list string)
  : list string :=
  flat_map
    (fun team =>
       match POLICY_OVERRIDES_BY_OWNER pol !! team with
       | Some teamPolicy =>
           match teamPolicy !! key with
           | Some override => [override]
           | None => []
           end
       | None => []
       end)
    teams.

(** The owner teams of a changed file: the list that the lookup of its
    event name gives, and no team when it gives something else. *)
Definition owners_of (w : World) (path : string) : list string :=
  match owners_lookup w (eventNameFromFile path) with
  | Some teams => teams
  | None => []
  end.

(** The lookup of the owners of a changed file gives a list: the owners
    document has the event name, or the name is not one that every object
    inherits. *)
Definition owners_listed (w : World) (path : string) : Prop :=
  owners_lookup w (eventNameFromFile path) <> None.

(** The four outcomes for one changed file, decided in this order; [n] is
    the number of [JSON.parse] calls made before the file is reached. *)
Inductive FileCase : Type :=
| FileAdded
| FileRemoved
| InvalidJson (side : string)
| Delegated (oldValue newValue : value).

(** The text [JSON.parse] is given for a content: its string form. *)
Definition content_text (c : option string) : string :=
  match c with
  | Some t => t
  | None => "null"
  end.

Definition file_case (w : World) (base head path : string) (n : nat)
  : FileCase :=
  match git_show w base path, git_show w head path with
  | None, Some _ => FileAdded
  | Some _, None => FileRemoved
  | oldContent, newContent =>
      match JSON_parse w n (content_text oldContent),
            JSON_parse w (S n) (content_text newContent) with
      | Some oldValue, Some newValue => Delegated oldValue newValue
      | None, _ => InvalidJson "base"
      | Some _, None => InvalidJson "head"
      end
  end.

Definition one_change (sev kind path message : string) : list Change :=
  [{| c_severity := sev; c_kind := kind; c_path := path; c_message := message |}].

Definition report_of_case (w : World) (pol : Policy) (path : string)
           (c : FileCase) : FileReport :=
  match c with
  | FileAdded =>
      {| file := path;
         file_summary :=
           {| decision := "PASS"; blocks := 0; warns := 0; passes := 1 |};
         file_changes :=
           one_change (sevForOwner pol "FILE_ADDED" (owners_of w path))
             "FILE_ADDED" path ("Schema file added: " ++ path) |}
  | FileRemoved =>
      {| file := path;
         file_summary :=
           {| decision := "FAIL"; blocks := 1; warns := 0; passes := 0 |};
         file_changes :=
           one_change (sevForOwner pol "FILE_REMOVED" (owners_of w path))
             "FILE_REMOVED" path ("Schema file removed: " ++ path) |}
  | InvalidJson side =>
      {| file := path;
         file_summary :=
           {| decision := "FAIL"; blocks := 1; warns := 0; passes := 0 |};
         file_changes :=
           one_change (sevForOwner pol "INVALID_JSON" (owners_of w path))
             "INVALID_JSON" path
             ("Invalid JSON in " ++ side ++ " version of " ++ path ++ ".") |}
  | Delegated oldValue newValue =>
      {| file := path;
         file_summary :=
           summary (diff pol oldValue newValue (owners_of w path));
         file_changes :=
           changes (diff pol oldValue newValue (owners_of w path)) |}
  end.

(** A report that counts a block. *)
Definition has_block (r : FileReport) : bool :=
  (0 <? blocks (file_summary r))%nat.

(** The command line names both revisions. *)
Definition usage_ok (w : World) : bool :=
  arg_truthy (args_get (map parse_arg (argv w)) "base")
  && arg_truthy (args_get (map parse_arg (argv w)) "head").

Definition base_of (w : World) : string :=
  arg_text (args_get (map parse_arg (argv w)) "base").
Definition head_of (w : World) : string :=
  arg_text (args_get (map parse_arg (argv w)) "head").

(** The comparison of the two versions of a changed file reaches no
    conversion that throws, whatever the state of the heap when the two are
    parsed. *)
Definition converts (w : World) (base head path : string) : Prop :=
  forall n oldValue newValue,
    file_case w base head path n = Delegated oldValue newValue ->
    diff_throws oldValue newValue = false.

(** The comparison of the two versions of a changed file throws at a
    conversion, whatever the state of the heap. *)
Definition comparison_throws (w : World) (path : string) : Prop :=
  forall n, exists oldValue newValue,
    file_case w (base_of w) (head_of w) path n = Delegated oldValue newValue /\
    diff_throws oldValue newValue = true.

(** The entries of the type array of a node, and its enum values, all
    convert to strings. *)
Definition converts_at (node : value) : Prop :=
  (forall a items x,
      get_prop node "type" = Some (VArr a items) -> In x items ->
      convertible x = true) /\
  (forall items x,
      enum_of node = Some items -> In x items -> convertible x = true).

(** The round of a changed file returns: the lookup of its owners gives a
    list, and the comparison of its versions converts. *)
Definition round_returns (w : World) (path : string) : Prop :=
  owners_listed w path /\ converts w (base_of w) (head_of w) path.

(** The natural order of enum values: numbers by magnitude, strings by
    code units. *)
Definition natural_le (x y : value) : Prop :=
  match x, y with
  | VNum a, VNum b => a <= b
  | VStr a, VStr b => str_le a b
  | _, _ => True
  end.

(** Every stored descriptor was stored by a call on a truthy node at a
    non-empty path. *)
Definition recorded (schema : value) (fields : Fields) : Prop :=
  forall q d,
    map_get fields q = Some d ->
    q <> "" /\
    exists node rn,
      visited schema node q rn /\ truthy node = true /\
      d = descriptor_of node q rn.

(** The names kept by [normalizeType]. *)
Definition type_names (names : list string) : list string :=
  sort_strings (set_delete String.eqb (set_from String.eqb names) "null").

(** The same document at other addresses: [relabel f v] moves every array
    and object of [v] from its address [a] to [f a]. *)
Fixpoint relabel (f : nat -> nat) (v : value) : value :=
  match v with
  | VArr a items => VArr (f a) (map (relabel f) items)
  | VObj a props =>
      VObj (f a) (map (fun kv => (fst kv, relabel f (snd kv))) props)
  | _ => v
  end.

Definition relabel_field (f : nat -> nat) (d : Field) : Field :=
  {| f_path := f_path d;
     f_type := relabel f (f_type d);
     f_nullable := f_nullable d;
     f_required := f_required d;
     f_enum := option_map (map (relabel f)) (f_enum d) |}.

Definition relabel_fields (f : nat -> nat) (fields : Fields) : Fields :=
  map (fun kd => (fst kd, relabel_field f (snd kd))) fields.

(** The overrides [sevForOwner] applies for a rule key: those of the owner
    teams that exist and are not the empty string, in the order of the
    teams. *)
Definition applied_overrides (pol : Policy) (key : string) (teams : list string)
  : list string :=
  flat_map
    (fun team =>
       match POLICY_OVERRIDES_BY_OWNER pol !! team with
       | Some teamPolicy =>
           match teamPolicy !! key with
           | Some override => if nonempty override then [override] else []
           | None => []
           end
       | None => []
       end)
    teams.

(** The value [sevForOwner] starts from: [POLICY_DEFAULT[key] || "warn"]. *)
Definition start_severity (pol : Policy) (key : string) : string :=
  match POLICY_DEFAULT pol !! key with
  | Some d => if nonempty d then d else "warn"
  | None => "warn"
  end.

(** Arrays and objects, as opposed to primitive values. *)
Definition is_compound (v : value) : bool :=
  match v with
  | VArr _ _ | VObj _ _ => true
  | _ => false
  end.

(** When one round of [diff] emits a change of kind [K], in terms of the two
    descriptors it looks at. *)
Definition kind_condition (K : string) (a b : option Field) : Prop :=
  match a, b with
  | Some _, None => K = "FIELD_REMOVED"
  | None, Some _ => K = "FIELD_ADDED"
  | None, None => False
  | Some a, Some b =>
      (K = "REQUIRED_BECOMES_REQUIRED" /\
       f_required a = false /\ f_required b = true) \/
      (K = "REQUIRED_BECOMES_OPTIONAL" /\
       f_required a = true /\ f_required b = false) \/
      (K = "TYPE_CHANGED" /\ type_differs a b = true) \/
      (K = "ENUM_VALUE_REMOVED" /\
       removed (enumDiff (f_enum a) (f_enum b)) <> []) \/
      (K = "ENUM_VALUE_ADDED" /\
       added (enumDiff (f_enum a) (f_enum b)) <> [])
  end.

(** [diff] reports a change of kind [K] at path [p]. *)
Definition reported (pol : Policy) (owners : list string)
           (oldSchema newSchema : value) (K p : string) : Prop :=
  exists c,
    In c (changes (diff pol oldSchema newSchema owners)) /\
    c_kind c = K /\ c_path c = p.

(** The rule keys [diff] resolves severities for. *)
Definition diff_rule_keys : list string :=
  ["FIELD_REMOVED_REQUIRED"; "FIELD_REMOVED_OPTIONAL";
   "FIELD_ADDED_REQUIRED"; "FIELD_ADDED_OPTIONAL";
   "REQUIRED_BECOMES_REQUIRED"; "REQUIRED_BECOMES_OPTIONAL";
   "TYPE_CHANGED"; "ENUM_VALUE_REMOVED"; "ENUM_VALUE_ADDED"].

(** The kind the plain variant gives a change of the policy-aware one: the
    two directions of a change of the required flag are one kind there. *)
Definition plain_kind (k : string) : string :=
  if String.eqb k "REQUIRED_BECOMES_REQUIRED"
     || String.eqb k "REQUIRED_BECOMES_OPTIONAL"
  then "REQUIRED_CHANGED"
  else k.

Definition to_plain (c : Change) : Change :=
  {| c_severity := c_severity c;
     c_kind := plain_kind (c_kind c);
     c_path := c_path c;
     c_message := c_message c |}.

(** The plain form of a file report and of a run report. *)
Definition plain_report (r : FileReport) : FileReport :=
  {| file := file r;
     file_summary := file_summary r;
     file_changes := map to_plain (file_changes r) |}.

Definition plain_run (r : RunReport) : RunReport :=
  {| run_base := run_base r;
     run_head := run_head r;
     run_dir := run_dir r;
     run_summary := run_summary r;
     reports := map plain_report (reports r) |}.

Definition plain_state (st : LoopState) : LoopState :=
  {| ls_reports := map plain_report (ls_reports st);
     anyBlock := anyBlock st;
     parses := parses st;
     shows := shows st |}.

(** The plain form of the end of a stretch of the script. *)
Definition plain_completion (c : Completion LoopState) : Completion LoopState :=
  match c with
  | Normal st => Normal (plain_state st)
  | Thrown st => Thrown (plain_state st)
  end.

(** A changed file that must fail the run: one that the head revision no
    longer has, or one with a version that [JSON.parse] rejects whenever it
    is called on it. *)
Definition lost_or_invalid (w : World) (path : string) : Prop :=
  match git_show w (base_of w) path, git_show w (head_of w) path with
  | Some _, None => True
  | None, Some _ => False
  | a, b =>
      (forall n, JSON_parse w n (content_text a) = None) \/
      (forall n, JSON_parse w n (content_text b) = None)
  end.

(** A changed file that only the head revision has. *)
Definition only_at_head (w : World) (path : string) : Prop :=
  git_show w (base_of w) path = None /\ git_show w (head_of w) path <> None.

(** The counts of a summary are those of the changes beside it. *)
Definition counts_match (s : Summary) (cs : list Change) : Prop :=
  blocks s = count_severity "block" cs /\
  warns s = count_severity "warn" cs /\
  passes s = count_severity "pass" cs.

(** All changes of a run, in the order of the reports. *)
Definition all_changes (rs : list FileReport) : list Change :=
  flat_map file_changes rs.

(** ** What the policy-aware script writes before the report *)

(** [anyBlock ? "FAIL" : (final.summary.warns > 0 ? "WARN" : "PASS")] *)
Definition label (anyBlock : bool) (warns : nat) : string :=
  if anyBlock then "FAIL" else if (0 <? warns)%nat then "WARN" else "PASS".

Definition count_text (n : nat) : string := Number_toString (Z.of_nat n).

Definition headline (lbl : string) (s : Summary) : string :=
  "EventDiff: " ++ lbl ++ " | blocks=" ++ count_text (blocks s)
    ++ " warns=" ++ count_text (warns s)
    ++ " passes=" ++ count_text (passes s).

Definition owner_lines (teams : list string) : list string :=
  if (0 <? length teams)%nat
  then ["Owner: " ++ join_with id ", " teams;
        "ACTION: Request review from owner team(s) above"]
  else ["Owner: (none configured)";
        "ACTION: Add owners.json mapping for this event"].

Definition change_lines (c : Change) : list string :=
  (if String.eqb (c_severity c) "block"
   then ["BLOCK: " ++ c_kind c ++ " - " ++ c_message c]
   else [])
  ++ (if String.eqb (c_severity c) "warn"
      then ["WARN: " ++ c_kind c ++ " - " ++ c_message c]
      else []).

(** The lines written to the standard output before the report itself;
    the usage message and the trace of an uncaught exception go to the
    standard error.  The first line is written before the owner teams are
    collected, so it stays alone when that loop throws. *)
Definition console (w : World) : list string :=
  let args := map parse_arg (argv w) in
  let base := args_get args "base" in
  let head := args_get args "head" in
  if negb (arg_truthy base) || negb (arg_truthy head) then []
  else
    match git_diff_names w with
    | None => []
    | Some changed =>
        if (length changed =? 0)%nat then
          ["EventDiff: PASS | blocks=0 warns=0 passes=0";
           "Owner: (none configured for changed files)";
           "ACTION: No schema changes detected"]
        else
          match
            loop w (load_policy (config w)) (arg_text base) (arg_text head)
              changed
              {| ls_reports := []; anyBlock := false; parses := 0; shows := [] |}
          with
          | Thrown _ => []
          | Normal st =>
              let final_summary :=
                {| decision := if anyBlock st then "FAIL" else "PASS";
                   blocks := sum_of blocks (ls_reports st);
                   warns := sum_of warns (ls_reports st);
                   passes := sum_of passes (ls_reports st) |} in
              headline (label (anyBlock st) (warns final_summary)) final_summary
                :: match collect_owners w (ls_reports st) [] with
                   | None => []
                   | Some ownerTeams =>
                       (owner_lines ownerTeams
                          ++ flat_map
                               (fun r => flat_map change_lines (file_changes r))
                               (ls_reports st))%list
                   end
          end
    end.

(** [c] occurs in [s]. *)
Fixpoint contains (c : ascii) (s : string) : bool :=
  match s with
  | EmptyString => false
  | String c' s' => Ascii.eqb c' c || contains c s'
  end.

(** What [git diff --name-only] writes for a list of names: each name
    followed by a line feed. *)
Fixpoint name_lines (names : list string) : string :=
  match names with
  | [] => ""
  | name :: names' => name ++ String "010" (name_lines names')
  end.

(** A name that the listing hands over unchanged. *)
Definition plain_name (name : string) : Prop :=
  name <> "" /\ trim name = name /\ contains "010" name = false.

(** A descriptor whose type and enum values are all primitive, so that a
    second parse of the document gives an equal one. *)
Definition primitive_field (d : Field) : Prop :=
  is_compound (f_type d) = false /\
  forall v, In v (or_empty (f_enum d)) -> is_compound v = false.

(** A change without its severity: kind, path and message. *)
Definition unrated (c : Change) : string * string * string :=
  (c_kind c, c_path c, c_message c).

(** * Example inputs *)

(** A configuration with one owner looser and one stricter than the
    default. *)
Definition cfg_two_owners : option PolicyDoc :=
  Some (PolicyNew {[ "FIELD_REMOVED_OPTIONAL" := "warn" ]}
          (Some {[ "team-a" := {[ "FIELD_REMOVED_OPTIONAL" := "pass" ]};
                   "team-b" := {[ "FIELD_REMOVED_OPTIONAL" := "block" ]} ]})).

Definition no_retrieval : string -> string -> option string := fun _ _ => None.

(** A parser that knows the three literals, for the examples below. *)
Definition parse_literals (n : nat) (text : string) : option value :=
  if String.eqb text "null" then Some VNull
  else if String.eqb text "true" then Some (VBool true)
  else if String.eqb text "false" then Some (VBool false)
  else None.

(** A run in which no file changed. *)
Definition world_no_change : World :=
  {| argv := ["--base=HEAD"; "--head=HEAD"; "--dir=schemas"];
     config := None;
     OWNERS := {[ "checkout_completed" := ["team-payments-platform"] ]};
     git_diff_names := Some [];
     git_show := no_retrieval;
     JSON_parse := parse_literals |}.

(** A run over one file that neither revision has. *)
Definition world_both_absent : World :=
  {| argv := ["--base=abc"; "--head=def"];
     config := None;
     OWNERS := ∅;
     git_diff_names := Some ["schemas/gone.json"];
     git_show := no_retrieval;
     JSON_parse := parse_literals |}.

(** The schemas of the three demonstration scenarios. *)
Definition schema_of (props : list (string * value)) (required : list value)
  : value :=
  VObj 0 [("type", VStr "object");
          ("properties", VObj 1 props);
          ("required", VArr 2 required)].

Definition checkout_v1 : value :=
  schema_of
    [("total_amount", VObj 3 [("type", VStr "number")]);
     ("payment_method", VObj 4 [("type", VStr "string")])]
    [VStr "total_amount"; VStr "payment_method"].

Definition checkout_type_changed : value :=
  schema_of
    [("total_amount", VObj 3 [("type", VStr "string")]);
     ("payment_method", VObj 4 [("type", VStr "string")])]
    [VStr "total_amount"; VStr "payment_method"].

Definition checkout_optional_payment : value :=
  schema_of
    [("total_amount", VObj 3 [("type", VStr "number")]);
     ("payment_method", VObj 4 [("type", VStr "string")])]
    [VStr "total_amount"].

Definition checkout_with_coupon : value :=
  schema_of
    [("total_amount", VObj 3 [("type", VStr "number")]);
     ("payment_method", VObj 4 [("type", VStr "string")]);
     ("coupon_code", VObj 5 [("type", VStr "string")])]
    [VStr "total_amount"; VStr "payment_method"].

(** A schema whose enum holds an object, allocated from address [base]. *)
Definition enum_of_object (base : nat) : value :=
  VObj base
    [("properties",
      VObj (base + 1)
        [("mode", VObj (base + 2)
                    [("enum", VArr (base + 3) [VObj (base + 4) []])])])].

(** A run over one file that only the head revision has, under a policy
    that gives [FILE_ADDED] the severity [block]. *)
Definition world_added_blocking : World :=
  {| argv := ["--base=abc"; "--head=def"];
     config := Some (PolicyNew {[ "FILE_ADDED" := "block" ]} None);
     OWNERS := ∅;
     git_diff_names := Some ["schemas/new.json"];
     git_show := fun ref _ => if String.eqb ref "def" then Some "{}" else None;
     JSON_parse := parse_literals |}.

(** A parser that knows the demonstration schemas by name. *)
Definition parse_checkout (n : nat) (text : string) : option value :=
  if String.eqb text "v1" then Some checkout_v1
  else if String.eqb text "v2" then Some checkout_type_changed
  else parse_literals n text.

(** A run without a configuration over three files: one changed, one
    removed and one added. *)
Definition world_three_files : World :=
  {| argv := ["--base=abc"; "--head=def"];
     config := None;
     OWNERS := {[ "checkout_completed" := ["team-payments-platform"] ]};
     git_diff_names :=
       Some ["schemas/checkout_completed.json"; "schemas/old.json";
             "schemas/new.json"];
     git_show :=
       fun ref path =>
         if String.eqb path "schemas/checkout_completed.json"
         then Some (if String.eqb ref "abc" then "v1" else "v2")
         else if String.eqb path "schemas/old.json"
         then (if String.eqb ref "abc" then Some "true" else None)
         else (if String.eqb ref "abc" then None else Some "true");
     JSON_parse := parse_checkout |}.

(** The same files under a policy that tries to let a removed file pass. *)
Definition world_removed_relaxed : World :=
  {| argv := argv world_three_files;
     config := Some (PolicyNew {[ "FILE_REMOVED" := "pass" ]} None);
     OWNERS := OWNERS world_three_files;
     git_diff_names := Some ["schemas/old.json"];
     git_show := git_show world_three_files;
     JSON_parse := parse_checkout |}.

(** A command line that names a revision twice, and cuts a value. *)
Definition argv_repeated : list string :=
  ["--base=old"; "--dir=events"; "--base=abc"; "--head=def=ghi"].

(** A configuration that gives a rule key the empty label. *)
Definition cfg_empty_label : option PolicyDoc :=
  Some (PolicyNew {[ "TYPE_CHANGED" := "" ]} None).

(** A configuration with an owner override outside the three severities. *)
Definition cfg_unknown_labels : option PolicyDoc :=
  Some (PolicyNew ∅
          (Some {[ "team-a" := {[ "FILE_ADDED" := "error" ]};
                   "team-b" := {[ "FILE_ADDED" := "warn" ]} ]})).

(** A configuration whose owner override is the name of an inherited
    member. *)
Definition cfg_inherited_label : option PolicyDoc :=
  Some (PolicyNew ∅
          (Some {[ "team-a" := {[ "TYPE_CHANGED" := "constructor" ]} ]})).

(** A run whose [git diff] fails, as on a revision that does not exist. *)
Definition world_listing_fails : World :=
  {| argv := ["--base=no-such-revision"; "--head=HEAD"];
     config := None;
     OWNERS := ∅;
     git_diff_names := None;
     git_show := no_retrieval;
     JSON_parse := parse_literals |}.

(** A run over two files, the first a new file named [constructor.json];
    the owners document has an entry for the second only. *)
Definition world_constructor_file : World :=
  {| argv := ["--base=abc"; "--head=def"];
     config := None;
     OWNERS := {[ "checkout_completed" := ["team-payments-platform"] ]};
     git_diff_names :=
       Some ["schemas/constructor.json"; "schemas/checkout_completed.json"];
     git_show :=
       fun ref path =>
         if String.eqb path "schemas/constructor.json"
         then (if String.eqb ref "abc" then None else Some "true")
         else Some (if String.eqb ref "abc" then "v1" else "v2");
     JSON_parse := parse_checkout |}.

(** A schema whose field [total_amount] has a type array holding a name and
    an object with a property [toString] of its own. *)
Definition checkout_toString_type : value :=
  schema_of
    [("total_amount",
      VObj 3 [("type", VArr 5 [VStr "number"; VObj 6 [("toString", VNum 1)]])]);
     ("payment_method", VObj 4 [("type", VStr "string")])]
    [VStr "total_amount"; VStr "payment_method"].

Definition parse_toString (n : nat) (text : string) : option value :=
  if String.eqb text "v3" then Some checkout_toString_type
  else parse_checkout n text.

(** A run over two files, the first changed to the schema above, the second
    new. *)
Definition world_toString_type : World :=
  {| argv := ["--base=abc"; "--head=def"];
     config := None;
     OWNERS := {[ "checkout_completed" := ["team-payments-platform"] ]};
     git_diff_names :=
       Some ["schemas/checkout_completed.json"; "schemas/new.json"];
     git_show :=
       fun ref path =>
         if String.eqb path "schemas/checkout_completed.json"
         then Some (if String.eqb ref "abc" then "v1" else "v3")
         else (if String.eqb ref "abc" then None else Some "true");
     JSON_parse := parse_toString |}.

(** A run over one file named [constructor.json] that neither revision
    has: its round pushes a report without changes, and the collection of
    the owner teams throws after the first line. *)
Definition world_constructor_quiet : World :=
  {| argv := ["--base=abc"; "--head=def"];
     config := None;
     OWNERS := ∅;
     git_diff_names := Some ["schemas/constructor.json"];
     git_show := no_retrieval;
     JSON_parse := parse_literals |}.

(** * Tactics *)

Ltac use_both_or_neither :=
  repeat match goal with
    | H : _ <-> _ |- _ => destruct H
    end;
  repeat match goal with
    | H : ?a = ?a -> _ |- _ => specialize (H eq_refl)
    end.

Ltac case_iff :=
  split;
  [ intros Hc; try discriminate Hc; try (injection Hc as ?; subst);
    repeat split; intros; try congruence;
    first [ left; repeat split; congruence
          | right; repeat split; congruence
          | idtac ]
  | intros Hc; decompose [and or] Hc; clear Hc; subst;
    first [ congruence | exfalso; use_both_or_neither; congruence ] ].

Ltac solve_side :=
  solve [repeat split;
         first [reflexivity | assumption | discriminate | congruence]].

Ltac choose_disjunct :=
  first [ solve_side | left; choose_disjunct | right; choose_disjunct ].

Ltac pick_change :=
  match goal with
  | |- exists c, In c ?l /\ c_kind c = _ =>
      let rec go l' :=
        lazymatch l' with
        | ?x :: ?r =>
            first [ exists x; split; [simpl; auto 10 | reflexivity] | go r ]
        end in
      go l
  end.

Ltac absurd_presence :=
  exfalso;
  match goal with
  | H : ~ (Some _ <> None) |- _ => apply H; discriminate
  | H : None <> None |- _ => apply H; reflexivity
  | H : Some _ = None |- _ => discriminate H
  end.

Ltac presence :=
  first [ discriminate
        | let X := fresh in intros X; apply X; reflexivity
        | congruence ].

(** The four outcomes of the two parses of a round. *)
Ltac parse_cases w st :=
  match goal with
  | |- context [JSON_parse w (parses st) ?c] =>
      destruct (JSON_parse w (parses st) c)
  end;
  try match goal with
      | |- context [JSON_parse w (S (parses st)) ?c] =>
          destruct (JSON_parse w (S (parses st)) c)
      end.

(** * Lemmas *)

(** ** The order on strings *)

Module StrOrd.

Lemma ascii_compare_refl c : Ascii.compare c c = Eq.
Proof. unfold Ascii.compare. apply N.compare_refl. Qed.

Lemma compare_refl s : String.compare s s = Eq.
Proof.
  induction s as [|c s IH]; simpl; [reflexivity|].
  rewrite ascii_compare_refl. exact IH.
Qed.

Lemma ascii_compare_lt_trans a b c :
  Ascii.compare a b = Lt -> Ascii.compare b c = Lt -> Ascii.compare a c = Lt.
Proof.
  unfold Ascii.compare. rewrite !N.compare_lt_iff. lia.
Qed.

Lemma compare_lt_trans :
  forall a b c, String.compare a b = Lt -> String.compare b c = Lt ->
                String.compare a c = Lt.
Proof.
  induction a as [|x a IH]; intros [|y b] [|z c]; simpl; try congruence.
  destruct (Ascii.compare x y) eqn:Hxy; try congruence;
  destruct (Ascii.compare y z) eqn:Hyz; try congruence; intros H1 H2.
  - apply Ascii.compare_eq_iff in Hxy, Hyz. subst.
    rewrite ascii_compare_refl. eauto.
  - apply Ascii.compare_eq_iff in Hxy. subst. rewrite Hyz. reflexivity.
  - apply Ascii.compare_eq_iff in Hyz. subst. rewrite Hxy. reflexivity.
  - rewrite (ascii_compare_lt_trans _ _ _ Hxy Hyz). reflexivity.
Qed.

Lemma le_refl a : str_le a a.
Proof. unfold str_le, String.leb. rewrite compare_refl. reflexivity. Qed.

Lemma le_lt_or_eq a b : str_le a b <-> str_lt a b \/ a = b.
Proof.
  unfold str_le, str_lt, String.leb, String.ltb. split.
  - destruct (String.compare a b) eqn:H; intros; try discriminate.
    + right. apply String.compare_eq_iff. exact H.
    + left. reflexivity.
  - intros [H| ->].
    + destruct (String.compare a b); try discriminate; reflexivity.
    + rewrite compare_refl. reflexivity.
Qed.

Lemma lt_trans a b c : str_lt a b -> str_lt b c -> str_lt a c.
Proof.
  unfold str_lt, String.ltb. intros H1 H2.
  destruct (String.compare a b) eqn:Hab; try discriminate.
  destruct (String.compare b c) eqn:Hbc; try discriminate.
  rewrite (compare_lt_trans _ _ _ Hab Hbc). reflexivity.
Qed.

Lemma le_trans a b c : str_le a b -> str_le b c -> str_le a c.
Proof.
  rewrite !le_lt_or_eq. intros [H1| ->] [H2| ->]; auto.
  left. eapply lt_trans; eassumption.
Qed.

Lemma le_total a b : str_le a b \/ str_le b a.
Proof. apply String.leb_total. Qed.

Lemma le_antisym a b : str_le a b -> str_le b a -> a = b.
Proof. apply String.leb_antisym. Qed.

Lemma lt_irrefl a : ~ str_lt a a.
Proof. unfold str_lt, String.ltb. rewrite compare_refl. discriminate. Qed.

Lemma not_lt_le a b : String.ltb a b = false -> str_le b a.
Proof.
  unfold str_le, String.leb, String.ltb. rewrite (String.compare_antisym b a).
  destruct (String.compare a b); simpl; congruence.
Qed.

Lemma lt_le a b : str_lt a b -> str_le a b.
Proof. intros H. apply le_lt_or_eq. left. exact H. Qed.

Lemma le_neq_lt a b : str_le a b -> a <> b -> str_lt a b.
Proof. rewrite le_lt_or_eq. intros [H|H] Hne; [exact H | contradiction]. Qed.

End StrOrd.

(** ** Sorting *)

Section SortFacts.
Context {A : Type} (key : A -> string).

Lemma insert_sorted_perm x l : Permutation (x :: l) (insert_sorted key x l).
Proof.
  induction l as [|y l IH]; simpl; [reflexivity|].
  destruct (String.ltb (key x) (key y)); [reflexivity|].
  rewrite perm_swap. constructor. exact IH.
Qed.

Lemma insert_sorted_hdrel a x l :
  key_le key a x -> HdRel (key_le key) a l ->
  HdRel (key_le key) a (insert_sorted key x l).
Proof.
  intros Hax Hal. destruct l as [|y l]; simpl.
  - constructor. exact Hax.
  - destruct (String.ltb (key x) (key y)); constructor.
    + exact Hax.
    + inversion Hal; assumption.
Qed.

Lemma insert_sorted_sorted x l :
  Sorted (key_le key) l -> Sorted (key_le key) (insert_sorted key x l).
Proof.
  induction 1 as [|y l Hs IH Hhd]; simpl.
  - repeat constructor.
  - destruct (String.ltb (key x) (key y)) eqn:Hlt.
    + constructor; [constructor; assumption|].
      constructor. apply StrOrd.lt_le. exact Hlt.
    + constructor; [exact IH|].
      apply insert_sorted_hdrel; [|exact Hhd].
      apply StrOrd.not_lt_le. exact Hlt.
Qed.

Lemma sort_by_snoc l x :
  sort_by key (l ++ [x]) = insert_sorted key x (sort_by key l).
Proof. unfold sort_by. rewrite fold_left_app. reflexivity. Qed.

Lemma sort_by_perm l : Permutation l (sort_by key l).
Proof.
  induction l as [|x l IH] using rev_ind; [constructor|].
  rewrite sort_by_snoc, <- insert_sorted_perm, <- IH.
  symmetry. apply Permutation_cons_append.
Qed.

Lemma sort_by_sorted l : Sorted (key_le key) (sort_by key l).
Proof.
  induction l as [|x l IH] using rev_ind; [constructor|].
  rewrite sort_by_snoc. apply insert_sorted_sorted. exact IH.
Qed.

Lemma sort_by_In x l : In x (sort_by key l) <-> In x l.
Proof.
  split; apply Permutation_in; [symmetry|]; apply sort_by_perm.
Qed.

Lemma sort_by_length l : length (sort_by key l) = length l.
Proof. symmetry. apply Permutation_length, sort_by_perm. Qed.

Lemma sort_by_nil l : sort_by key l = [] <-> l = [].
Proof.
  split; [|intros ->; reflexivity].
  intros H. apply length_zero_iff_nil. rewrite <- sort_by_length, H.
  reflexivity.
Qed.

Lemma key_le_trans : Transitive (key_le key).
Proof. intros x y z. apply StrOrd.le_trans. Qed.

Lemma sort_by_strongly_sorted l : StronglySorted (key_le key) (sort_by key l).
Proof.
  apply Sorted_StronglySorted; [apply key_le_trans | apply sort_by_sorted].
Qed.
End SortFacts.

Example ToString_examples :
  ToString (VNum 10) = "10" /\ ToString (VNum (-3)) = "-3" /\
  ToString (VArr 0 [VNum 1; VNull; VStr "a"]) = "1,,a" /\
  sort_values [VNum 1; VNum 2; VNum 10] = [VNum 1; VNum 10; VNum 2].
Proof. repeat split. Qed.

(** ** Sets as lists *)

Section SetFacts.
Context {A : Type} (same : A -> A -> bool).
Hypothesis same_refl : forall x, same x x = true.
Hypothesis same_sym : forall x y, same x y = same y x.
Hypothesis same_trans :
  forall x y z, same x y = true -> same y z = true -> same x z = true.

Lemma set_has_true s x :
  set_has same s x = true <-> exists y, In y s /\ same x y = true.
Proof. unfold set_has. apply existsb_exists. Qed.

Lemma set_has_false s x :
  set_has same s x = false <-> forall y, In y s -> same x y = false.
Proof.
  unfold set_has. split.
  - intros H y Hy. destruct (same x y) eqn:E; [|reflexivity].
    assert (existsb (same x) s = true) by (apply existsb_exists; eauto).
    congruence.
  - intros H. destruct (existsb (same x) s) eqn:E; [|reflexivity].
    apply existsb_exists in E. destruct E as (y & Hy & Hxy).
    rewrite (H y Hy) in Hxy. discriminate.
Qed.

Lemma set_has_In s x : In x s -> set_has same s x = true.
Proof. intros H. apply set_has_true. eauto. Qed.

Lemma set_has_same s x y :
  same x y = true -> set_has same s x = set_has same s y.
Proof.
  intros Hxy.
  destruct (set_has same s y) eqn:E.
  - apply set_has_true in E. destruct E as (z & Hz & Hyz).
    apply set_has_true. eauto.
  - apply set_has_false. intros z Hz.
    destruct (same x z) eqn:Exz; [|reflexivity].
    assert (same y z = true).
    { apply same_trans with x; [rewrite same_sym|]; assumption. }
    pose proof (proj1 (set_has_false s y) E z Hz). congruence.
Qed.

Lemma distinct_snoc s x :
  distinct same s -> set_has same s x = false -> distinct same (s ++ [x]).
Proof.
  intros Hd Hx. induction Hd as [|y s Hy Hd IH].
  - simpl. repeat constructor.
  - simpl. constructor.
    + apply Forall_app. split; [exact Hy|].
      constructor; [|constructor].
      rewrite same_sym. apply (proj1 (set_has_false _ _) Hx). left. reflexivity.
    + apply IH. apply set_has_false. intros z Hz.
      apply (proj1 (set_has_false _ _) Hx). right. exact Hz.
Qed.

Lemma set_add_distinct s x : distinct same s -> distinct same (set_add same s x).
Proof.
  intros Hd. unfold set_add. destruct (set_has same s x) eqn:E; [exact Hd|].
  apply distinct_snoc; assumption.
Qed.

Lemma set_add_In s x y : In y (set_add same s x) -> In y s \/ y = x.
Proof.
  unfold set_add. destruct (set_has same s x); [auto|].
  rewrite in_app_iff. simpl. intuition.
Qed.

Lemma set_add_keeps s x y : In y s -> In y (set_add same s x).
Proof.
  unfold set_add. destruct (set_has same s x); [auto|].
  rewrite in_app_iff. auto.
Qed.

Lemma set_add_has s x : set_has same (set_add same s x) x = true.
Proof.
  unfold set_add. destruct (set_has same s x) eqn:E; [exact E|].
  apply set_has_In. rewrite in_app_iff. simpl. auto.
Qed.

Lemma fold_set_add_distinct l acc :
  distinct same acc -> distinct same (fold_left (set_add same) l acc).
Proof.
  revert acc. induction l as [|x l IH]; simpl; intros acc Hd; [exact Hd|].
  apply IH, set_add_distinct, Hd.
Qed.

Lemma fold_set_add_In l acc y :
  In y (fold_left (set_add same) l acc) -> In y acc \/ In y l.
Proof.
  revert acc. induction l as [|x l IH]; simpl; intros acc H; [auto|].
  apply IH in H. destruct H as [H|H]; [|auto].
  apply set_add_In in H. intuition.
Qed.

Lemma fold_set_add_keeps l acc y :
  In y acc -> In y (fold_left (set_add same) l acc).
Proof.
  revert acc. induction l as [|x l IH]; simpl; intros acc H; [auto|].
  apply IH, set_add_keeps, H.
Qed.

Lemma fold_set_add_has l acc x :
  In x l -> set_has same (fold_left (set_add same) l acc) x = true.
Proof.
  revert acc. induction l as [|z l IH]; simpl; intros acc H; [contradiction|].
  destruct H as [->|H]; [|apply IH, H].
  pose proof (set_add_has acc x) as Hx. apply set_has_true in Hx.
  destruct Hx as (y & Hy & Hxy). apply set_has_true.
  exists y. split; [|exact Hxy]. apply fold_set_add_keeps, Hy.
Qed.

Lemma set_from_distinct l : distinct same (set_from same l).
Proof. apply fold_set_add_distinct. constructor. Qed.

Lemma set_from_In l y : In y (set_from same l) -> In y l.
Proof.
  intros H. apply fold_set_add_In in H. destruct H as [[]|H]. exact H.
Qed.

Lemma set_from_has l x : In x l -> set_has same (set_from same l) x = true.
Proof. apply fold_set_add_has. Qed.

Lemma set_from_has_iff l x :
  set_has same (set_from same l) x = set_has same l x.
Proof.
  destruct (set_has same l x) eqn:E.
  - apply set_has_true in E. destruct E as (y & Hy & Hxy).
    rewrite (set_has_same _ x y Hxy). apply set_from_has, Hy.
  - apply set_has_false. intros y Hy. apply set_from_In in Hy.
    apply (proj1 (set_has_false _ _) E y Hy).
Qed.

Lemma distinct_filter (f : A -> bool) s :
  distinct same s -> distinct same (List.filter f s).
Proof.
  induction 1 as [|x s Hx Hd IH]; simpl; [constructor|].
  destruct (f x); [|exact IH].
  constructor; [|exact IH].
  apply List.Forall_forall. intros y Hy. apply filter_In in Hy.
  rewrite List.Forall_forall in Hx. apply Hx, Hy.
Qed.

Lemma distinct_perm s s' :
  Permutation s s' -> distinct same s -> distinct same s'.
Proof.
  unfold distinct.
  induction 1 as [|x s s' Hp IH|x y s|s s' s'' H1 IH1 H2 IH2]; intros Hd.
  - constructor.
  - inversion Hd as [|? ? Hx Hs]; subst. constructor; [|auto].
    eapply Permutation_Forall; eassumption.
  - inversion Hd as [|? ? Hy Hs]; subst.
    inversion Hs as [|? ? Hx Hs']; subst.
    inversion Hy as [|? ? Hyx Hy']; subst.
    constructor; [|constructor; assumption].
    constructor; [rewrite same_sym; exact Hyx | exact Hx].
  - auto.
Qed.
End SetFacts.

(** ** SameValueZero *)

Lemma sameValueZero_refl x : sameValueZero x x = true.
Proof.
  destruct x as [|b|n|s|a l|a l]; simpl; auto.
  - destruct b; reflexivity.
  - apply Z.eqb_refl.
  - apply String.eqb_refl.
  - apply Nat.eqb_refl.
  - apply Nat.eqb_refl.
Qed.

Lemma sameValueZero_sym x y : sameValueZero x y = sameValueZero y x.
Proof.
  destruct x as [|b|n|s|a l|a l], y as [|b'|n'|s'|a' l'|a' l']; simpl; auto.
  - destruct b, b'; reflexivity.
  - apply Z.eqb_sym.
  - apply String.eqb_sym.
  - apply Nat.eqb_sym.
  - apply Nat.eqb_sym.
Qed.

Lemma sameValueZero_trans x y z :
  sameValueZero x y = true -> sameValueZero y z = true ->
  sameValueZero x z = true.
Proof.
  destruct x as [|b|n|s|a l|a l], y as [|b'|n'|s'|a' l'|a' l'],
           z as [|b''|n''|s''|a'' l''|a'' l'']; simpl; try congruence.
  - destruct b, b', b''; simpl; congruence.
  - rewrite !Z.eqb_eq. congruence.
  - rewrite !String.eqb_eq. congruence.
  - rewrite !Nat.eqb_eq. congruence.
  - rewrite !Nat.eqb_eq. congruence.
Qed.

Lemma sameValueZero_str s y : sameValueZero (VStr s) y = true <-> y = VStr s.
Proof.
  destruct y; simpl; try (split; congruence).
  rewrite String.eqb_eq. split; congruence.
Qed.

Lemma in_set_has v l : in_set v l <-> set_has sameValueZero l v = true.
Proof. unfold in_set. symmetry. apply set_has_true. Qed.

Lemma in_set_from v l : in_set v (set_from sameValueZero l) <-> in_set v l.
Proof.
  rewrite !in_set_has.
  rewrite (set_from_has_iff sameValueZero sameValueZero_refl sameValueZero_sym
             sameValueZero_trans).
  reflexivity.
Qed.

Lemma enumDiff_sides o n :
  enumDiff o n =
  {| removed := only_in (or_empty o) (or_empty n);
     added := only_in (or_empty n) (or_empty o) |}.
Proof. reflexivity. Qed.

Lemma only_in_sound l m v : In v (only_in l m) -> In v l /\ ~ in_set v m.
Proof.
  unfold only_in, sort_values. rewrite sort_by_In, filter_In.
  intros [Hv Hn]. split.
  - eapply set_from_In, Hv.
  - rewrite <- in_set_from, in_set_has.
    destruct (set_has _ _ v); simpl in Hn; congruence.
Qed.

Lemma only_in_complete l m v : In v l -> ~ in_set v m -> in_set v (only_in l m).
Proof.
  intros Hl Hm.
  assert (Hs : in_set v (set_from sameValueZero l)).
  { apply in_set_from. exists v. split; [exact Hl | apply sameValueZero_refl]. }
  destruct Hs as (w & Hw & Hvw). exists w. split; [|exact Hvw].
  unfold only_in, sort_values. rewrite sort_by_In, filter_In. split; [exact Hw|].
  destruct (set_has sameValueZero (set_from sameValueZero m) w) eqn:E;
    [|reflexivity].
  exfalso. apply Hm. apply in_set_from. apply in_set_has.
  rewrite (set_has_same sameValueZero sameValueZero_sym sameValueZero_trans
             _ v w Hvw).
  exact E.
Qed.

Lemma only_in_distinct l m : distinct sameValueZero (only_in l m).
Proof.
  unfold only_in, sort_values.
  eapply (distinct_perm sameValueZero sameValueZero_sym);
    [apply sort_by_perm|].
  apply distinct_filter.
  apply set_from_distinct; auto using sameValueZero_sym.
Qed.

Lemma only_in_sorted l m : Sorted (key_le ToString) (only_in l m).
Proof. apply sort_by_sorted. Qed.

Lemma filter_none {A : Type} (f : A -> bool) (l : list A) :
  (forall x, In x l -> f x = false) -> List.filter f l = [].
Proof.
  induction l as [|x l IH]; simpl; intros H; [reflexivity|].
  rewrite (H x) by auto. apply IH. auto.
Qed.

Lemma only_in_self l : only_in l l = [].
Proof.
  unfold only_in, sort_values. apply sort_by_nil.
  apply filter_none. intros v Hv.
  rewrite (set_has_In sameValueZero sameValueZero_refl _ _ Hv). reflexivity.
Qed.

(** ** Maps as lists *)

Lemma assoc_In_key {V : Type} (k : string) (m : list (string * V)) :
  In k (map fst m) <-> exists v, assoc k m = Some v.
Proof.
  induction m as [|[k' v'] m IH]; simpl.
  - split; [contradiction | intros [v H]; discriminate].
  - destruct (String.eqb_spec k k') as [->|Hne].
    + split; eauto.
    + rewrite <- IH. split; [intros [H|H]; [congruence|exact H] | auto].
Qed.

Lemma assoc_In {V : Type} (k : string) (m : list (string * V)) v :
  assoc k m = Some v -> In (k, v) m.
Proof.
  induction m as [|[k' v'] m IH]; simpl; [discriminate|].
  destruct (String.eqb_spec k k') as [->|Hne].
  - intros [= ->]. left. reflexivity.
  - intros H. right. apply IH, H.
Qed.

Lemma map_get_set {V : Type} (m : list (string * V)) k v k' :
  map_get (map_set m k v) k' =
  if String.eqb k' k then Some v else map_get m k'.
Proof.
  unfold map_get. induction m as [|[k0 v0] m IH]; simpl.
  - reflexivity.
  - destruct (String.eqb_spec k k0) as [->|Hne]; simpl.
    + destruct (String.eqb_spec k' k0); reflexivity.
    + rewrite IH. destruct (String.eqb_spec k' k0) as [->|Hne'].
      * destruct (String.eqb_spec k0 k); [congruence|reflexivity].
      * reflexivity.
Qed.

(** ** The paths visited by [diff] *)

Lemma string_set_has s x : set_has String.eqb s x = true <-> In x s.
Proof.
  rewrite (set_has_true String.eqb). split.
  - intros (y & Hy & Hxy). apply String.eqb_eq in Hxy. subst. exact Hy.
  - intros H. exists x. split; [exact H | apply String.eqb_refl].
Qed.

Lemma string_set_from_In l x : In x (set_from String.eqb l) <-> In x l.
Proof.
  split; [apply set_from_In|].
  intros H. apply string_set_has.
  apply (set_from_has String.eqb String.eqb_refl), H.
Qed.

Lemma distinct_strings_NoDup (s : list string) :
  distinct String.eqb s -> List.NoDup s.
Proof.
  unfold distinct. induction 1 as [|x s Hx Hd IH]; constructor; [|exact IH].
  rewrite List.Forall_forall in Hx. intros Hin.
  apply Hx in Hin. rewrite String.eqb_refl in Hin. discriminate.
Qed.

Lemma sorted_NoDup_strict (l : list string) :
  StronglySorted str_le l -> List.NoDup l -> StronglySorted str_lt l.
Proof.
  induction 1 as [|x l Hs IH Hx]; intros Hnd; constructor.
  - apply IH. inversion Hnd; assumption.
  - inversion Hnd as [|? ? Hnotin Hnd']; subst.
    rewrite List.Forall_forall in Hx |- *. intros y Hy.
    apply StrOrd.le_neq_lt; [apply Hx, Hy|].
    intros ->. contradiction.
Qed.

Lemma diff_paths_In A B p :
  In p (diff_paths A B) <-> In p (map_keys A) \/ In p (map_keys B).
Proof.
  unfold diff_paths, sort_strings.
  rewrite sort_by_In, string_set_from_In, in_app_iff. reflexivity.
Qed.

Lemma diff_paths_sorted A B : StronglySorted str_le (diff_paths A B).
Proof. apply (sort_by_strongly_sorted id). Qed.

Lemma diff_paths_strict A B : StronglySorted str_lt (diff_paths A B).
Proof.
  apply sorted_NoDup_strict; [apply diff_paths_sorted|].
  apply distinct_strings_NoDup.
  unfold diff_paths, sort_strings.
  eapply (distinct_perm String.eqb String.eqb_sym); [apply sort_by_perm|].
  apply set_from_distinct. apply String.eqb_sym.
Qed.

(** ** One round of [diff] *)

Lemma enumDiff_self e : enumDiff e e = {| removed := []; added := [] |}.
Proof. rewrite enumDiff_sides, only_in_self. reflexivity. Qed.

Lemma type_differs_self d : type_differs d d = false.
Proof.
  unfold type_differs, strict_eq.
  rewrite sameValueZero_refl, Bool.eqb_reflx. reflexivity.
Qed.

Lemma plain_changes_at_same path d : Plain.changes_at path (Some d) (Some d) = [].
Proof.
  unfold Plain.changes_at.
  rewrite Bool.eqb_reflx, type_differs_self, enumDiff_self. reflexivity.
Qed.

Lemma changes_at_same pol owners path d :
  changes_at pol owners path (Some d) (Some d) = [].
Proof.
  unfold changes_at.
  rewrite Bool.eqb_reflx, type_differs_self, enumDiff_self. reflexivity.
Qed.

Lemma plain_changes_at_path path a b c :
  In c (Plain.changes_at path a b) -> c_path c = path.
Proof.
  unfold Plain.changes_at. destruct a as [a|], b as [b|]; simpl;
    rewrite ?in_app_iff; intros H.
  - destruct H as [H|[H|[H|H]]]; revert H;
      match goal with |- In _ (if ?c then _ else _) -> _ => destruct c end;
      simpl; intros H; try contradiction; destruct H as [<-|[]]; reflexivity.
  - destruct H as [<-|[]]; reflexivity.
  - destruct H as [<-|[]]; reflexivity.
  - contradiction.
Qed.

Lemma changes_at_path pol owners path a b c :
  In c (changes_at pol owners path a b) -> c_path c = path.
Proof.
  unfold changes_at. destruct a as [a|], b as [b|]; simpl;
    rewrite ?in_app_iff; intros H.
  - destruct H as [H|[H|[H|H]]]; revert H;
      match goal with |- In _ (if ?c then _ else _) -> _ => destruct c end;
      simpl; intros H; try contradiction; destruct H as [<-|[]]; reflexivity.
  - destruct H as [<-|[]]; reflexivity.
  - destruct H as [<-|[]]; reflexivity.
  - contradiction.
Qed.

Lemma flat_map_nil {X Y : Type} (f : X -> list Y) (l : list X) :
  (forall x, In x l -> f x = []) -> flat_map f l = [].
Proof.
  induction l as [|x l IH]; simpl; intros H; [reflexivity|].
  rewrite (H x) by auto. apply IH. auto.
Qed.

Lemma flat_map_paths_sorted (f : string -> list Change) (paths : list string) :
  (forall p c, In c (f p) -> c_path c = p) ->
  StronglySorted str_le paths ->
  StronglySorted str_le (map c_path (flat_map f paths)).
Proof.
  intros Hf. induction 1 as [|p paths Hs IH Hp]; simpl; [constructor|].
  rewrite map_app.
  assert (Hall : Forall (fun q => q = p) (map c_path (f p))).
  { apply List.Forall_forall. intros q Hq. apply in_map_iff in Hq.
    destruct Hq as (c & <- & Hc). apply Hf, Hc. }
  induction Hall as [|q l -> Hl IHl]; simpl; [exact IH|].
  constructor; [exact IHl|].
  apply Forall_app. split.
  - eapply Forall_impl; [exact Hl|]. intros ? ->. apply StrOrd.le_refl.
  - apply List.Forall_forall. intros q Hq. apply in_map_iff in Hq.
    destruct Hq as (c & <- & Hc). apply in_flat_map in Hc.
    destruct Hc as (p' & Hp' & Hc). rewrite (Hf _ _ Hc).
    rewrite List.Forall_forall in Hp. apply Hp, Hp'.
Qed.

(** ** walk *)

Lemma assoc_map {V W : Type} (g : V -> W) k (l : list (string * V)) :
  assoc k (map (fun kv => (fst kv, g (snd kv))) l) = option_map g (assoc k l).
Proof.
  induction l as [|[k' v] l IH]; simpl; [reflexivity|].
  destruct (String.eqb k k'); [reflexivity | exact IH].
Qed.

Lemma fold_left_map {X Y Z : Type} (f : Z -> Y -> Z) (g : X -> Y) l z :
  fold_left f (map g l) z = fold_left (fun z x => f z (g x)) l z.
Proof. revert z. induction l as [|x l IH]; simpl; intros z; auto. Qed.

(** [walk] satisfies the equation of the source. *)
Lemma walk_eq node path requiredNames fields :
  walk node path requiredNames fields =
  walk_body walk node path requiredNames fields.
Proof.
  unfold walk_body.
  destruct node as [|b|n|s|a items|a own]; simpl;
    try (repeat match goal with
                | |- context [if ?c then _ else _] => destruct c
                end; reflexivity).
  rewrite (assoc_map
             (fun v =>
                match v with
                | VObj _ entries =>
                    Some (map (fun kc => (fst kc, walk (snd kc))) entries)
                | _ => None
                end)).
  destruct (assoc "properties" own) as [[| | | | |a' entries]|]; simpl;
    try reflexivity.
  rewrite (fold_left_map
             (fun (fs : Fields) (kw : string * walker) =>
                snd kw (child_path path (fst kw))
                  (childReq_of path (array_or_empty (assoc "required" own)))
                  fs)
             (fun kc : string * value => (fst kc, walk (snd kc)))).
  reflexivity.
Qed.

(** Induction along the calls of [walk]. *)
Lemma walk_ind (Q : value -> Prop) :
  (forall node,
      (forall a entries k child,
          get_prop node "properties" = Some (VObj a entries) ->
          In (k, child) entries -> Q child) ->
      Q node) ->
  forall node, Q node.
Proof.
  intros H node.
  cut (Q node /\
       forall a entries k child,
         node = VObj a entries -> In (k, child) entries -> Q child);
    [tauto|].
  induction node as [|b|n|s|a items IH|a props IH] using value_ind'.
  1-5: split; [apply H; simpl; discriminate | discriminate].
  assert (Hsub : forall k child, In (k, child) props -> Q child).
  { intros k child Hin. rewrite List.Forall_forall in IH.
    apply (IH (k, child) Hin). }
  split.
  - apply H. simpl. intros a' entries k child Hget Hin.
    apply assoc_In in Hget. rewrite List.Forall_forall in IH.
    destruct (IH _ Hget) as [_ Hentries]. simpl in Hentries.
    eapply Hentries; [reflexivity | exact Hin].
  - intros a' entries k child [= _ <-]. apply Hsub.
Qed.

Lemma record_field_get node path rn fields q :
  map_get (record_field node path rn fields) q =
  if String.eqb path "" then map_get fields q
  else if String.eqb q path then Some (descriptor_of node path rn)
       else map_get fields q.
Proof.
  unfold record_field. destruct (String.eqb path ""); [reflexivity|].
  rewrite map_get_set. reflexivity.
Qed.

Lemma record_field_recorded schema node path rn fields :
  visited schema node path rn -> truthy node = true ->
  recorded schema fields -> recorded schema (record_field node path rn fields).
Proof.
  intros Hv Ht Hrec q d. rewrite record_field_get.
  destruct (String.eqb_spec path "") as [Hp|Hp]; [apply Hrec|].
  destruct (String.eqb_spec q path) as [->|Hq]; [|apply Hrec].
  intros [= <-]. split; [exact Hp|]. eauto.
Qed.

Lemma walk_recorded schema node :
  forall path rn fields,
    visited schema node path rn -> recorded schema fields ->
    recorded schema (walk node path rn fields).
Proof.
  induction node as [node IH] using walk_ind.
  intros path rn fields Hv Hrec. rewrite walk_eq. unfold walk_body.
  destruct (truthy node) eqn:Ht; simpl; [|exact Hrec].
  pose proof (record_field_recorded _ _ _ _ _ Hv Ht Hrec) as Hrec'.
  destruct (get_prop node "properties") as [[| | | | |a entries]|] eqn:Hp;
    try exact Hrec'.
  assert (Hfold : forall es fs,
             incl es entries -> recorded schema fs ->
             recorded schema
               (fold_left
                  (fun fields kv =>
                     walk (snd kv) (child_path path (fst kv))
                       (childReq_of path
                          (array_or_empty (get_prop node "required")))
                       fields)
                  es fs)).
  { induction es as [|[k child] es IHes]; simpl; intros fs Hincl Hfs;
      [exact Hfs|].
    apply IHes; [intros x Hx; apply Hincl; right; exact Hx|].
    assert (Hin : In (k, child) entries) by (apply Hincl; left; reflexivity).
    eapply IH; [reflexivity | exact Hin | | exact Hfs].
    eapply visited_child; eassumption. }
  apply Hfold; [apply incl_refl | exact Hrec'].
Qed.

Lemma flatten_recorded schema : recorded schema (flatten schema).
Proof.
  apply walk_recorded; [constructor|]. intros q d H. discriminate.
Qed.












(** ** normalizeType on a list of names *)

Lemma set_has_names acc x :
  set_has sameValueZero (map VStr acc) (VStr x) = set_has String.eqb acc x.
Proof.
  unfold set_has. induction acc as [|y acc IH]; simpl; [reflexivity|].
  rewrite IH. reflexivity.
Qed.

Lemma set_add_names acc x :
  set_add sameValueZero (map VStr acc) (VStr x) =
  map VStr (set_add String.eqb acc x).
Proof.
  unfold set_add. rewrite set_has_names.
  destruct (set_has String.eqb acc x); [reflexivity|].
  rewrite map_app. reflexivity.
Qed.

Lemma set_from_names names :
  set_from sameValueZero (map VStr names) =
  map VStr (set_from String.eqb names).
Proof.
  unfold set_from. change (@nil value) with (map VStr []).
  generalize (@nil string) as acc.
  induction names as [|x names IH]; simpl; intros acc; [reflexivity|].
  rewrite set_add_names. apply IH.
Qed.

Lemma set_delete_names s x :
  set_delete sameValueZero (map VStr s) (VStr x) =
  map VStr (set_delete String.eqb s x).
Proof.
  unfold set_delete. induction s as [|y s IH]; simpl; [reflexivity|].
  destruct (negb (String.eqb y x)); simpl; rewrite IH; reflexivity.
Qed.

Lemma insert_sorted_names x s :
  insert_sorted ToString (VStr x) (map VStr s) =
  map VStr (insert_sorted id x s).
Proof.
  induction s as [|y s IH]; simpl; [reflexivity|].
  destruct (String.ltb x y); simpl; [reflexivity|].
  rewrite IH. reflexivity.
Qed.

Lemma sort_values_names l : sort_values (map VStr l) = map VStr (sort_strings l).
Proof.
  unfold sort_values, sort_strings, sort_by.
  change (@nil value) with (map VStr []).
  generalize (@nil string) as acc.
  induction l as [|x l IH]; simpl; intros acc; [reflexivity|].
  rewrite insert_sorted_names. apply IH.
Qed.

Lemma join_names sep l : join sep (map VStr l) = join_with id sep l.
Proof.
  unfold join. induction l as [|x l IH]; simpl; [reflexivity|].
  destruct l as [|y l]; [reflexivity|].
  simpl in IH |- *. rewrite IH. reflexivity.
Qed.

Lemma normalizeType_names a names :
  normalizeType (Some (VArr a (map VStr names))) =
  {| nt_type :=
       VStr match type_names names with
            | [] => "unknown"
            | [x] => x
            | _ :: _ :: _ => join_with id "|" (type_names names)
            end;
     nt_nullable := set_has String.eqb (set_from String.eqb names) "null" |}.
Proof.
  unfold normalizeType, type_names.
  rewrite set_from_names, set_has_names, set_delete_names, sort_values_names.
  destruct (sort_strings _) as [|x [|y rest]] eqn:E; try reflexivity.
  rewrite <- join_names. reflexivity.
Qed.

Lemma type_names_In names n :
  In n (type_names names) <-> In n names /\ n <> "null".
Proof.
  unfold type_names, sort_strings, set_delete.
  rewrite sort_by_In, filter_In, string_set_from_In.
  destruct (String.eqb_spec n "null"); simpl; intuition congruence.
Qed.

Lemma type_names_sorted names : StronglySorted str_lt (type_names names).
Proof.
  apply sorted_NoDup_strict; [apply (sort_by_strongly_sorted id)|].
  apply distinct_strings_NoDup. unfold type_names, sort_strings.
  eapply (distinct_perm String.eqb String.eqb_sym); [apply sort_by_perm|].
  apply distinct_filter, set_from_distinct, String.eqb_sym.
Qed.

Lemma normalizeType_nullable t :
  nt_nullable (normalizeType t) = true <->
  exists a items, t = Some (VArr a items) /\ In (VStr "null") items.
Proof.
  destruct t as [[| | | |a items|]|]; simpl;
    try (split; [discriminate | intros (? & ? & [=] & _)]).
  rewrite (set_from_has_iff sameValueZero sameValueZero_refl sameValueZero_sym
             sameValueZero_trans).
  rewrite (set_has_true sameValueZero). split.
  - intros (y & Hy & Hs). apply sameValueZero_str in Hs. subst. eauto.
  - intros (a' & items' & [= <- <-] & H). exists (VStr "null").
    split; [exact H | reflexivity].
Qed.

(** ** Policy *)

Lemma is_sevb_spec s : is_sevb s = true <-> is_sev s.
Proof.
  unfold is_sevb, is_sev. rewrite !orb_true_iff, !String.eqb_eq. tauto.
Qed.

Lemma is_sev_nonempty s : is_sev s -> nonempty s = true.
Proof. intros [->|[->| ->]]; reflexivity. Qed.

Lemma rank_inj a b : is_sev a -> is_sev b -> rank a = rank b -> a = b.
Proof.
  intros [->|[->| ->]] [->|[->| ->]]; vm_compute; congruence.
Qed.

Lemma rank_value_plain a : inherited a = false -> rank_value a = RankNum (rank a).
Proof.
  unfold inherited, rank_value, rank. intros H.
  destruct (SEV_RANK !! a); [reflexivity|].
  destruct (assoc a Object_prototype); [discriminate | reflexivity].
Qed.

Lemma is_sev_plain a : is_sev a -> inherited a = false.
Proof. intros [->|[->| ->]]; reflexivity. Qed.

(** On labels that are no inherited names [maxSev] compares ranks. *)
Lemma maxSev_plain a b :
  inherited a = false -> inherited b = false ->
  maxSev a b = if rank a >=? rank b then a else b.
Proof.
  intros Ha Hb. unfold maxSev.
  rewrite (rank_value_plain a Ha), (rank_value_plain b Hb). reflexivity.
Qed.

Lemma maxSev_either a b : maxSev a b = a \/ maxSev a b = b.
Proof. unfold maxSev. destruct (rank_geq _ _); auto. Qed.

Lemma maxSev_cases a b :
  inherited a = false -> inherited b = false ->
  (maxSev a b = a /\ rank b <= rank a) \/ (maxSev a b = b /\ rank a <= rank b).
Proof.
  intros Ha Hb. rewrite (maxSev_plain a b Ha Hb).
  destruct (Z.geb_spec (rank a) (rank b)); [left|right];
    (split; [reflexivity | lia]).
Qed.

Lemma fold_maxSev_In l : forall s, In (fold_left maxSev l s) (s :: l).
Proof.
  induction l as [|o l IH]; intros s; simpl; [auto|].
  destruct (IH (maxSev s o)) as [Hin|Hin]; [|auto].
  rewrite <- Hin. destruct (maxSev_either s o) as [E|E]; rewrite E; auto.
Qed.

Lemma fold_maxSev l : forall s,
  Forall (fun x => inherited x = false) (s :: l) ->
  In (fold_left maxSev l s) (s :: l) /\
  forall x, In x (s :: l) -> rank x <= rank (fold_left maxSev l s).
Proof.
  induction l as [|o l IH]; intros s Hplain; simpl.
  - split; [auto|]. intros x [->|[]]. lia.
  - inversion Hplain as [|? ? Hs Hrest]; subst.
    inversion Hrest as [|? ? Ho Hl]; subst.
    assert (Hm : inherited (maxSev s o) = false).
    { destruct (maxSev_either s o) as [E|E]; rewrite E; assumption. }
    destruct (IH (maxSev s o)) as [Hin Hmax]; [constructor; assumption|].
    split; [apply (fold_maxSev_In (o :: l) s)|].
    intros x Hx.
    assert (Hso : rank s <= rank (maxSev s o) /\ rank o <= rank (maxSev s o)).
    { destruct (maxSev_cases s o Hs Ho) as [[-> ?]|[-> ?]]; lia. }
    pose proof (Hmax (maxSev s o) (or_introl eq_refl)).
    destruct Hx as [->|[->|Hx]]; [lia | lia |].
    apply Hmax. right. exact Hx.
Qed.

Lemma label_ok_sev m key s : label_ok m key = true -> m !! key = Some s -> is_sev s.
Proof.
  unfold label_ok. intros H E. rewrite E in H. apply is_sevb_spec, H.
Qed.

Lemma labels_ok_default pol key s :
  labels_ok pol key = true -> POLICY_DEFAULT pol !! key = Some s -> is_sev s.
Proof.
  unfold labels_ok. rewrite andb_true_iff. intros [H _]. eapply label_ok_sev, H.
Qed.

Lemma labels_ok_override pol key team teamPolicy o :
  labels_ok pol key = true ->
  POLICY_OVERRIDES_BY_OWNER pol !! team = Some teamPolicy ->
  teamPolicy !! key = Some o -> is_sev o.
Proof.
  unfold labels_ok. rewrite andb_true_iff, forallb_forall. intros [_ H] Ht Ho.
  apply (label_ok_sev teamPolicy key); [|exact Ho].
  apply (H (team, teamPolicy)). apply list_elem_of_In.
  apply elem_of_map_to_list. exact Ht.
Qed.

Lemma overrides_for_sev pol key teams o :
  labels_ok pol key = true -> In o (overrides_for pol key teams) -> is_sev o.
Proof.
  intros Hok Hin. unfold overrides_for in Hin. apply in_flat_map in Hin.
  destruct Hin as (team & _ & Hin).
  destruct (POLICY_OVERRIDES_BY_OWNER pol !! team) as [tp|] eqn:Et; [|destruct Hin].
  destruct (tp !! key) as [o'|] eqn:Eo; [|destruct Hin].
  destruct Hin as [<-|[]]. eapply labels_ok_override; eassumption.
Qed.

(** The loop of [sevForOwner] folds [maxSev] over the overrides that exist. *)
Lemma owner_loop_fold pol key teams :
  labels_ok pol key = true ->
  forall s,
    fold_left
      (fun s team =>
         match POLICY_OVERRIDES_BY_OWNER pol !! team with
         | Some teamPolicy =>
             match teamPolicy !! key with
             | Some override =>
                 if nonempty override then maxSev s override else s
             | None => s
             end
         | None => s
         end)
      teams s
    = fold_left maxSev (overrides_for pol key teams) s.
Proof.
  intros Hok. unfold overrides_for.
  induction teams as [|team teams IH]; intros s; simpl; [reflexivity|].
  rewrite fold_left_app, IH.
  destruct (POLICY_OVERRIDES_BY_OWNER pol !! team) as [tp|] eqn:Et;
    [|reflexivity].
  destruct (tp !! key) as [o|] eqn:Eo; [|reflexivity].
  rewrite (is_sev_nonempty o); [reflexivity|].
  eapply labels_ok_override; eassumption.
Qed.

Lemma union_default_lookup (m : SevMap) key :
  (m ∪ DEFAULT_POLICY) !! key =
  match m !! key with
  | Some s => Some s
  | None => DEFAULT_POLICY !! key
  end.
Proof.
  rewrite lookup_union. destruct (m !! key), (DEFAULT_POLICY !! key); reflexivity.
Qed.

(** The starting value of [sevForOwner] is the effective default. *)
Lemma start_effective_default cfg key :
  labels_ok (load_policy cfg) key = true ->
  match POLICY_DEFAULT (load_policy cfg) !! key with
  | Some d => if nonempty d then d else "warn"
  | None => "warn"
  end = effective_default cfg key.
Proof.
  intros Hok.
  assert (Hd : forall s, POLICY_DEFAULT (load_policy cfg) !! key = Some s ->
                         is_sev s)
    by (intros s; apply labels_ok_default, Hok).
  assert (Hlookup :
            POLICY_DEFAULT (load_policy cfg) !! key =
            match configured_default cfg !! key with
            | Some s => Some s
            | None => DEFAULT_POLICY !! key
            end).
  { destruct cfg as [[d o|f [o|]]|]; simpl in *;
      rewrite ?union_default_lookup, ?lookup_empty; try reflexivity.
    destruct (decide (key = "overrides_by_owner")) as [->|Hne].
    - specialize (Hd "[object Object]"). rewrite union_default_lookup in Hd.
      rewrite lookup_insert_eq in Hd. destruct (Hd eq_refl) as [H|[H|H]];
        discriminate.
    - rewrite lookup_insert_ne by congruence. reflexivity. }
  unfold effective_default. rewrite Hlookup in *.
  destruct (configured_default cfg !! key) as [s|].
  - rewrite (is_sev_nonempty s); [reflexivity | apply Hd; reflexivity].
  - destruct (DEFAULT_POLICY !! key) as [s|]; [|reflexivity].
    rewrite (is_sev_nonempty s); [reflexivity | apply Hd; reflexivity].
Qed.

Lemma sevForOwner_fold cfg key teams :
  labels_ok (load_policy cfg) key = true ->
  sevForOwner (load_policy cfg) key teams =
  fold_left maxSev (overrides_for (load_policy cfg) key teams)
    (effective_default cfg key).
Proof.
  intros Hok. unfold sevForOwner.
  rewrite owner_loop_fold by exact Hok.
  rewrite start_effective_default by exact Hok. reflexivity.
Qed.

Lemma effective_default_sev cfg key :
  labels_ok (load_policy cfg) key = true -> is_sev (effective_default cfg key).
Proof.
  intros Hok. rewrite <- start_effective_default by exact Hok.
  destruct (POLICY_DEFAULT (load_policy cfg) !! key) as [d|] eqn:E.
  - rewrite (is_sev_nonempty d); eapply labels_ok_default; eassumption.
  - right. left. reflexivity.
Qed.

Lemma overrides_for_perm pol key teams teams' :
  Permutation teams teams' ->
  Permutation (overrides_for pol key teams) (overrides_for pol key teams').
Proof. apply Permutation_flat_map. Qed.

(** With no override configured, the severity is the default. *)
Lemma sevForOwner_no_overrides pol key teams :
  POLICY_OVERRIDES_BY_OWNER pol = ∅ ->
  sevForOwner pol key teams = sevForOwner pol key [].
Proof.
  intros E. unfold sevForOwner. rewrite E. simpl.
  generalize (match POLICY_DEFAULT pol !! key with
              | Some d => if nonempty d then d else "warn"
              | None => "warn"
              end) as s.
  induction teams as [|t teams IH]; intros s; simpl; [reflexivity|].
  rewrite lookup_empty. apply IH.
Qed.

(** ** The loop over the changed files *)

Lemma owners_listed_lookup w path :
  owners_listed w path ->
  owners_lookup w (eventNameFromFile path) = Some (owners_of w path).
Proof.
  unfold owners_listed, owners_of.
  destruct (owners_lookup w (eventNameFromFile path));
    [reflexivity | contradiction].
Qed.

(** One round either pushes exactly the report of the file's case, or
    throws; and then the lookup of the file's owners gave no list, or the
    comparison of the two documents reached a conversion that throws. *)
Lemma step_spec w pol base head st path :
  let c := file_case w base head path (parses st) in
  let rep := report_of_case w pol path c in
  match step w pol base head st path with
  | Normal st' =>
      ls_reports st' = (ls_reports st ++ [rep])%list /\
      anyBlock st' = anyBlock st || has_block rep /\
      shows st' = (shows st ++ [(base, path); (head, path)])%list
  | Thrown st' =>
      (owners_lookup w (eventNameFromFile path) = None \/
       exists oldValue newValue,
         c = Delegated oldValue newValue /\
         diff_throws oldValue newValue = true) /\
      ls_reports st' = ls_reports st /\
      shows st' = (shows st ++ [(base, path); (head, path)])%list
  end.
Proof.
  unfold step, file_case, tryGitShow, owners_of, has_block, sevForOwner_of,
    diff_of, safeJsonParse.
  destruct (owners_lookup w (eventNameFromFile path)) as [teams|] eqn:Eo.
  - destruct (git_show w base path) as [old|],
             (git_show w head path) as [new|];
      cbn [ok content negb andb content_text];
      try parse_cases w st;
      try match goal with
          | |- context [diff_throws ?ov ?nv] =>
              destruct (diff_throws ov nv) eqn:Et;
                [split; [right; eauto | split; reflexivity]|]
          end;
      cbn [report_of_case file_summary file_changes blocks ls_reports anyBlock
           shows single_report one_change];
      unfold owners_of; rewrite ?Eo, ?orb_true_r, ?orb_false_r;
      repeat split; try reflexivity;
      match goal with
      | |- context [(0 <? ?n)%nat] =>
          destruct (0 <? n)%nat; rewrite ?orb_true_r, ?orb_false_r; reflexivity
      end.
  - destruct (git_show w base path) as [old|],
             (git_show w head path) as [new|];
      cbn [ok content negb andb content_text];
      try (split; [left; reflexivity | split; reflexivity]);
      parse_cases w st;
      try (split; [left; reflexivity | split; reflexivity]);
      (match goal with
       | |- context [diff_throws ?ov ?nv] =>
           destruct (diff_throws ov nv) eqn:Et;
             [split; [left; reflexivity | split; reflexivity]|]
       end);
      match goal with
      | |- context [changes (diff pol ?ov ?nv [])] =>
          destruct (changes (diff pol ov nv [])) eqn:Ec
      end;
      try (split; [left; reflexivity | split; reflexivity]);
      cbn [report_of_case file_summary file_changes blocks ls_reports anyBlock
           shows];
      unfold owners_of; rewrite Eo, Ec;
      repeat split; try reflexivity;
      match goal with
      | |- context [(0 <? ?n)%nat] =>
          destruct (0 <? n)%nat; rewrite ?orb_true_r, ?orb_false_r; reflexivity
      end.
Qed.

(** A round on a file whose owners are listed, and whose comparison
    converts, does not throw. *)
Lemma step_listed w pol base head st path :
  owners_listed w path -> converts w base head path ->
  exists st', step w pol base head st path = Normal st'.
Proof.
  intros H Hc. pose proof (step_spec w pol base head st path) as Hs.
  cbv zeta in Hs. destruct (step w pol base head st path) as [st'|st'];
    [eauto|].
  destruct Hs as [[Hnone|(ov & nv & Hcase & Ht)] _]; [contradiction|].
  rewrite (Hc _ _ _ Hcase) in Ht. discriminate.
Qed.

(** The whole loop: one report per changed file, in the order of the list,
    or an exception at a file whose owners are not listed or whose
    comparison throws, after the retrievals of the files up to it. *)
Lemma loop_spec w pol base head changed : forall st,
  match loop w pol base head changed st with
  | Normal st' =>
      exists reps,
        ls_reports st' = (ls_reports st ++ reps)%list /\
        Forall2
          (fun path rep =>
             exists n,
               rep = report_of_case w pol path (file_case w base head path n))
          changed reps /\
        anyBlock st' = anyBlock st || existsb has_block reps /\
        shows st' =
          (shows st
             ++ flat_map (fun path => [(base, path); (head, path)]) changed)%list
  | Thrown st' =>
      exists before path after,
        changed = (before ++ path :: after)%list /\
        (~ owners_listed w path \/ ~ converts w base head path) /\
        shows st' =
          (shows st
             ++ flat_map (fun path => [(base, path); (head, path)])
                  (before ++ [path]))%list
  end.
Proof.
  induction changed as [|path changed IH]; intros st; cbn [loop].
  - exists []. rewrite !app_nil_r, orb_false_r. repeat split. constructor.
  - pose proof (step_spec w pol base head st path) as Hs. cbv zeta in Hs.
    destruct (step w pol base head st path) as [st1|st1].
    + destruct Hs as (Hr & Hb & Hs). specialize (IH st1).
      destruct (loop w pol base head changed st1) as [st'|st'].
      * destruct IH as (reps & Hr' & Hall & Hb' & Hs').
        eexists (_ :: reps). repeat split.
        -- rewrite Hr', Hr, <- app_assoc. reflexivity.
        -- constructor; [eauto | exact Hall].
        -- rewrite Hb', Hb. simpl. rewrite orb_assoc. reflexivity.
        -- rewrite Hs', Hs, <- app_assoc. reflexivity.
      * destruct IH as (before & p & after & -> & Hp & Hs').
        exists (path :: before), p, after. split; [reflexivity|].
        split; [exact Hp|]. rewrite Hs', Hs, <- app_assoc. reflexivity.
    + destruct Hs as (Hwhy & _ & Hs).
      exists [], path, changed. split; [reflexivity|]. split.
      * destruct Hwhy as [Hnone|(ov & nv & Hcase & Ht)]; [left|right].
        -- unfold owners_listed. rewrite Hnone. intros H. apply H. reflexivity.
        -- intros Hc. rewrite (Hc _ _ _ Hcase) in Ht. discriminate.
      * rewrite Hs. simpl. reflexivity.
Qed.

Lemma loop_listed w pol base head changed : forall st,
  Forall (fun path => owners_listed w path /\ converts w base head path)
    changed ->
  exists st', loop w pol base head changed st = Normal st'.
Proof.
  induction changed as [|path changed IH]; intros st H; cbn [loop]; [eauto|].
  inversion H as [|? ? [Hp Hc] Hrest]; subst.
  destruct (step_listed w pol base head st path Hp Hc) as (st1 & ->).
  apply IH, Hrest.
Qed.

Lemma report_decision w pol path c :
  decision (file_summary (report_of_case w pol path c)) =
  if has_block (report_of_case w pol path c) then "FAIL" else "PASS".
Proof. destruct c; reflexivity. Qed.

Lemma report_file w pol path c : file (report_of_case w pol path c) = path.
Proof. destruct c; reflexivity. Qed.

Lemma sum_of_list_sum f rs :
  sum_of f rs = list_sum (map (fun r => f (file_summary r)) rs).
Proof.
  unfold sum_of.
  cut (forall a,
          fold_left (fun a r => (a + f (file_summary r))%nat) rs a =
          (a + list_sum (map (fun r => f (file_summary r)) rs))%nat).
  { intros H. apply H. }
  induction rs as [|r rs IH]; intros a; simpl; [lia|].
  rewrite IH. lia.
Qed.

(** The set of owner teams is collected when every report's file has its
    owners listed, and it is then the set of their teams. *)
Lemma collect_owners_spec w rs : forall acc,
  match collect_owners w rs acc with
  | Some teams =>
      Forall (fun r => owners_listed w (file r)) rs /\
      teams =
        fold_left (set_add String.eqb)
          (flat_map (fun r => owners_of w (file r)) rs) acc
  | None => exists r, In r rs /\ ~ owners_listed w (file r)
  end.
Proof.
  induction rs as [|r rs IH]; intros acc; cbn [collect_owners].
  - split; [constructor | reflexivity].
  - destruct (owners_lookup w (eventNameFromFile (file r))) as [teams|] eqn:E.
    + specialize (IH (fold_left (set_add String.eqb) teams acc)).
      destruct (collect_owners w rs _) as [all|].
      * destruct IH as [Hall ->]. split.
        -- constructor; [|exact Hall]. unfold owners_listed. rewrite E.
           discriminate.
        -- cbn [flat_map]. rewrite fold_left_app.
           replace (owners_of w (file r)) with teams; [reflexivity|].
           unfold owners_of. rewrite E. reflexivity.
      * destruct IH as (r' & Hr' & Hn). exists r'. split; [right|]; assumption.
    + exists r. split; [left; reflexivity|]. unfold owners_listed. rewrite E.
      intros H. apply H. reflexivity.
Qed.

(** The shape of a run that passes the usage check over a listing that
    [git diff] gave. *)
Lemma main_usage_ok w changed :
  usage_ok w = true ->
  git_diff_names w = Some changed ->
  match
    loop w (load_policy (config w)) (base_of w) (head_of w) changed
      {| ls_reports := []; anyBlock := false; parses := 0; shows := [] |}
  with
  | Thrown st => main w = uncaught (shows st) /\ changed <> []
  | Normal st =>
      match collect_owners w (ls_reports st) [] with
      | None => main w = uncaught (shows st) /\ changed <> []
      | Some _ =>
          exit_code (main w) = (if anyBlock st then 1 else 0) /\
          retrievals (main w) = shows st /\
          exists rep,
            final (main w) = Some rep /\
            decision (run_summary rep) = (if anyBlock st then "FAIL" else "PASS") /\
            blocks (run_summary rep) = sum_of blocks (ls_reports st) /\
            warns (run_summary rep) = sum_of warns (ls_reports st) /\
            passes (run_summary rep) = sum_of passes (ls_reports st) /\
            reports rep = ls_reports st
      end
  end.
Proof.
  unfold usage_ok, base_of, head_of. rewrite andb_true_iff. intros [Hb Hh] Hl.
  unfold main. rewrite Hb, Hh, Hl. cbn [negb orb].
  destruct changed as [|path changed].
  - cbn [loop collect_owners length Nat.eqb ls_reports anyBlock shows].
    cbv iota. cbn [exit_code retrievals final].
    repeat split. eexists. repeat split.
  - cbn [length Nat.eqb]. cbv iota zeta.
    destruct (loop w _ _ _ (path :: changed) _) as [st|st];
      [|split; [reflexivity | discriminate]].
    destruct (collect_owners w (ls_reports st) []);
      [|split; [reflexivity | discriminate]].
    repeat split. eexists. repeat split.
Qed.

Lemma main_usage_error w :
  usage_ok w = false ->
  main w = {| exit_code := 2; final := None; retrievals := [] |}.
Proof.
  unfold usage_ok, main. rewrite andb_false_iff.
  intros [H|H]; rewrite H; simpl; rewrite ?orb_true_r; reflexivity.
Qed.

Lemma main_listing_fails w :
  usage_ok w = true -> git_diff_names w = None -> main w = uncaught [].
Proof.
  unfold usage_ok, main. rewrite andb_true_iff. intros [Hb Hh] ->.
  rewrite Hb, Hh. reflexivity.
Qed.

(** ** Addresses do not show in the result of [diff] *)

Section MapCommute.
Context {A B : Type} (h : A -> B).
Context (sameA : A -> A -> bool) (sameB : B -> B -> bool).
Hypothesis same_h : forall x y, sameB (h x) (h y) = sameA x y.

Lemma set_has_map s x : set_has sameB (map h s) (h x) = set_has sameA s x.
Proof.
  unfold set_has. induction s as [|y s IH]; simpl; [reflexivity|].
  rewrite same_h, IH. reflexivity.
Qed.

Lemma set_add_map s x : set_add sameB (map h s) (h x) = map h (set_add sameA s x).
Proof.
  unfold set_add. rewrite set_has_map.
  destruct (set_has sameA s x); [reflexivity|].
  rewrite map_app. reflexivity.
Qed.

Lemma set_from_map l : set_from sameB (map h l) = map h (set_from sameA l).
Proof.
  unfold set_from. change (@nil B) with (map h []).
  generalize (@nil A) as acc.
  induction l as [|x l IH]; simpl; intros acc; [reflexivity|].
  rewrite set_add_map. apply IH.
Qed.

Lemma set_delete_map s x :
  set_delete sameB (map h s) (h x) = map h (set_delete sameA s x).
Proof.
  unfold set_delete. induction s as [|y s IH]; simpl; [reflexivity|].
  rewrite same_h. destruct (negb (sameA y x)); simpl; rewrite IH; reflexivity.
Qed.

Lemma filter_lacking_map s t :
  List.filter (fun v => negb (set_has sameB (map h t) v)) (map h s) =
  map h (List.filter (fun v => negb (set_has sameA t v)) s).
Proof.
  induction s as [|y s IH]; simpl; [reflexivity|].
  rewrite set_has_map. destruct (negb (set_has sameA t y)); simpl;
    rewrite IH; reflexivity.
Qed.

Context (keyA : A -> string) (keyB : B -> string).
Hypothesis key_h : forall x, keyB (h x) = keyA x.

Lemma insert_sorted_map x s :
  insert_sorted keyB (h x) (map h s) = map h (insert_sorted keyA x s).
Proof.
  induction s as [|y s IH]; simpl; [reflexivity|].
  rewrite !key_h. destruct (String.ltb (keyA x) (keyA y)); simpl;
    [reflexivity|].
  rewrite IH. reflexivity.
Qed.

Lemma sort_by_map l : sort_by keyB (map h l) = map h (sort_by keyA l).
Proof.
  unfold sort_by. change (@nil B) with (map h []).
  generalize (@nil A) as acc.
  induction l as [|x l IH]; simpl; intros acc; [reflexivity|].
  rewrite insert_sorted_map. apply IH.
Qed.
End MapCommute.

Lemma join_with_map {A B : Type} (g : B -> string) (h : A -> B) sep l :
  join_with g sep (map h l) = join_with (fun x => g (h x)) sep l.
Proof.
  induction l as [|x l IH]; simpl; [reflexivity|].
  destruct l as [|y l]; [reflexivity|].
  simpl in IH |- *. rewrite IH. reflexivity.
Qed.

Lemma join_with_ext {A : Type} (g g' : A -> string) sep l :
  Forall (fun x => g x = g' x) l -> join_with g sep l = join_with g' sep l.
Proof.
  induction 1 as [|x l Hx Hl IH]; simpl; [reflexivity|].
  rewrite Hx, IH. reflexivity.
Qed.

Section Relabel.
Variable f : nat -> nat.
Hypothesis f_inj : forall a b, f a = f b -> a = b.

Lemma eqb_relabel a b : Nat.eqb (f a) (f b) = Nat.eqb a b.
Proof.
  destruct (Nat.eqb_spec a b) as [->|Hne]; [apply Nat.eqb_refl|].
  apply Nat.eqb_neq. intros E. apply Hne, f_inj, E.
Qed.

Lemma sameValueZero_relabel x y :
  sameValueZero (relabel f x) (relabel f y) = sameValueZero x y.
Proof. destruct x, y; simpl; try reflexivity; apply eqb_relabel. Qed.

Lemma item_text_relabel x :
  ToString (relabel f x) = ToString x ->
  match relabel f x with VNull => "" | _ => ToString (relabel f x) end =
  match x with VNull => "" | _ => ToString x end.
Proof. destruct x; simpl; auto. Qed.

Lemma ToString_relabel x : ToString (relabel f x) = ToString x.
Proof.
  induction x as [|b|n|s|a items IH|a props IH] using value_ind';
    try reflexivity.
  simpl. rewrite join_with_map. apply join_with_ext.
  eapply List.Forall_impl; [|exact IH]. intros x Hx. apply item_text_relabel, Hx.
Qed.

Lemma join_relabel sep l : join sep (map (relabel f) l) = join sep l.
Proof.
  unfold join. rewrite join_with_map. apply join_with_ext.
  apply List.Forall_forall. intros x _.
  apply item_text_relabel, ToString_relabel.
Qed.

Lemma truthy_relabel x : truthy (relabel f x) = truthy x.
Proof. destruct x; reflexivity. Qed.

Lemma get_prop_relabel node k :
  get_prop (relabel f node) k = option_map (relabel f) (get_prop node k).
Proof.
  destruct node; try reflexivity. simpl.
  apply (assoc_map (relabel f)).
Qed.

Lemma sort_values_relabel l :
  sort_values (map (relabel f) l) = map (relabel f) (sort_values l).
Proof. apply sort_by_map, ToString_relabel. Qed.

Lemma normalizeType_relabel t :
  normalizeType (option_map (relabel f) t) =
  {| nt_type := relabel f (nt_type (normalizeType t));
     nt_nullable := nt_nullable (normalizeType t) |}.
Proof.
  destruct t as [[| | | |a items|]|]; try reflexivity.
  cbn [option_map relabel normalizeType nt_type nt_nullable].
  rewrite (set_from_map (relabel f) sameValueZero sameValueZero
             sameValueZero_relabel).
  change (VStr "null") with (relabel f (VStr "null")).
  rewrite (set_has_map (relabel f) sameValueZero sameValueZero
             sameValueZero_relabel).
  rewrite (set_delete_map (relabel f) sameValueZero sameValueZero
             sameValueZero_relabel).
  rewrite sort_values_relabel.
  destruct (sort_values _) as [|x [|y rest]]; try reflexivity.
  cbn [map]. f_equal.
  change (relabel f x :: relabel f y :: map (relabel f) rest)
    with (map (relabel f) (x :: y :: rest)).
  rewrite join_relabel. reflexivity.
Qed.

Lemma enum_of_relabel node :
  enum_of (relabel f node) = option_map (map (relabel f)) (enum_of node).
Proof.
  unfold enum_of. rewrite get_prop_relabel.
  destruct (get_prop node "enum") as [[| | | | |]|]; reflexivity.
Qed.

Lemma childReq_of_relabel path required :
  childReq_of path (map (relabel f) required) = childReq_of path required.
Proof.
  unfold childReq_of. generalize (@nil string) as acc.
  induction required as [|r required IH]; simpl; intros acc; [reflexivity|].
  rewrite <- IH. destruct r; reflexivity.
Qed.

Lemma required_relabel node :
  array_or_empty (get_prop (relabel f node) "required") =
  map (relabel f) (array_or_empty (get_prop node "required")).
Proof.
  rewrite get_prop_relabel.
  destruct (get_prop node "required") as [[| | | | |]|]; reflexivity.
Qed.

Lemma map_set_relabel fields path d :
  map_set (relabel_fields f fields) path (relabel_field f d) =
  relabel_fields f (map_set fields path d).
Proof.
  unfold relabel_fields. induction fields as [|[k0 d0] fields IH]; simpl;
    [reflexivity|].
  destruct (String.eqb path k0); simpl; [reflexivity|].
  rewrite IH. reflexivity.
Qed.

Lemma record_field_relabel node path rn fields :
  record_field (relabel f node) path rn (relabel_fields f fields) =
  relabel_fields f (record_field node path rn fields).
Proof.
  unfold record_field. destruct (String.eqb path ""); [reflexivity|].
  rewrite <- map_set_relabel. f_equal.
  unfold relabel_field. cbn [f_path f_type f_nullable f_required f_enum].
  rewrite get_prop_relabel, normalizeType_relabel, enum_of_relabel.
  reflexivity.
Qed.

Lemma walk_relabel node :
  forall path rn fields,
    walk (relabel f node) path rn (relabel_fields f fields) =
    relabel_fields f (walk node path rn fields).
Proof.
  induction node as [node IH] using walk_ind.
  intros path rn fields. rewrite !walk_eq. unfold walk_body.
  rewrite truthy_relabel. destruct (truthy node); simpl; [|reflexivity].
  rewrite record_field_relabel, required_relabel, childReq_of_relabel.
  rewrite get_prop_relabel.
  destruct (get_prop node "properties") as [[| | | | |a entries]|] eqn:Hp;
    try reflexivity.
  cbn [option_map relabel]. rewrite fold_left_map. cbn [fst snd].
  generalize (record_field node path rn fields) as fs.
  assert (Hsub : incl entries entries) by apply incl_refl.
  revert Hsub. generalize entries at 1 3 4 as es.
  induction es as [|[k child] es IHes]; simpl; intros Hincl fs; [reflexivity|].
  rewrite (IH a entries k child); [|reflexivity | apply Hincl; left; reflexivity].
  apply IHes. intros x Hx. apply Hincl. right. exact Hx.
Qed.

Lemma flatten_relabel schema :
  flatten (relabel f schema) = relabel_fields f (flatten schema).
Proof. apply (walk_relabel schema "" [] []). Qed.

Lemma map_keys_relabel fields : map_keys (relabel_fields f fields) = map_keys fields.
Proof.
  unfold map_keys, relabel_fields. rewrite map_map. reflexivity.
Qed.

Lemma map_get_relabel fields p :
  map_get (relabel_fields f fields) p =
  option_map (relabel_field f) (map_get fields p).
Proof. apply (assoc_map (relabel_field f)). Qed.

Lemma only_in_relabel l m :
  only_in (map (relabel f) l) (map (relabel f) m) =
  map (relabel f) (only_in l m).
Proof.
  unfold only_in.
  rewrite !(set_from_map (relabel f) sameValueZero sameValueZero
              sameValueZero_relabel).
  rewrite (filter_lacking_map (relabel f) sameValueZero sameValueZero
             sameValueZero_relabel).
  apply sort_values_relabel.
Qed.

Lemma or_empty_relabel e :
  or_empty (option_map (map (relabel f)) e) = map (relabel f) (or_empty e).
Proof. destruct e; reflexivity. Qed.

Lemma enumDiff_relabel e1 e2 :
  enumDiff (option_map (map (relabel f)) e1) (option_map (map (relabel f)) e2) =
  {| removed := map (relabel f) (removed (enumDiff e1 e2));
     added := map (relabel f) (added (enumDiff e1 e2)) |}.
Proof.
  rewrite !enumDiff_sides, !or_empty_relabel, !only_in_relabel. reflexivity.
Qed.

Lemma type_differs_relabel a b :
  type_differs (relabel_field f a) (relabel_field f b) = type_differs a b.
Proof.
  unfold type_differs, strict_eq. simpl. rewrite sameValueZero_relabel.
  reflexivity.
Qed.

Lemma type_message_relabel path a b :
  type_message path (relabel_field f a) (relabel_field f b) =
  type_message path a b.
Proof.
  unfold type_message, nullable_suffix. simpl. rewrite !ToString_relabel.
  reflexivity.
Qed.

Lemma changes_at_relabel pol owners path a b :
  changes_at pol owners path (option_map (relabel_field f) a)
    (option_map (relabel_field f) b) =
  changes_at pol owners path a b.
Proof.
  destruct a as [a|], b as [b|]; try reflexivity.
  unfold changes_at. cbn [option_map].
  rewrite type_differs_relabel, type_message_relabel.
  cbn [relabel_field f_required f_enum].
  rewrite enumDiff_relabel. cbn [removed added].
  rewrite !length_map, !join_relabel. reflexivity.
Qed.

Lemma plain_changes_at_relabel path a b :
  Plain.changes_at path (option_map (relabel_field f) a)
    (option_map (relabel_field f) b) =
  Plain.changes_at path a b.
Proof.
  destruct a as [a|], b as [b|]; try reflexivity.
  unfold Plain.changes_at. cbn [option_map].
  rewrite type_differs_relabel, type_message_relabel.
  cbn [relabel_field f_required f_enum].
  rewrite enumDiff_relabel. cbn [removed added].
  rewrite !length_map, !join_relabel. reflexivity.
Qed.

Lemma diff_relabel pol oldSchema newSchema owners :
  diff pol (relabel f oldSchema) (relabel f newSchema) owners =
  diff pol oldSchema newSchema owners.
Proof.
  unfold diff, diff_paths. rewrite !flatten_relabel, !map_keys_relabel.
  f_equal. apply flat_map_ext. intros p.
  rewrite !map_get_relabel. apply changes_at_relabel.
Qed.

Lemma plain_diff_relabel oldSchema newSchema :
  Plain.diff (relabel f oldSchema) (relabel f newSchema) =
  Plain.diff oldSchema newSchema.
Proof.
  unfold Plain.diff, diff_paths. rewrite !flatten_relabel, !map_keys_relabel.
  f_equal. apply flat_map_ext. intros p.
  rewrite !map_get_relabel. apply plain_changes_at_relabel.
Qed.
End Relabel.

(** * The claims *)

(** ** C1: the policy resolver *)

(** C1.  When the labels configured for a rule key are severities, the
    resolver [sevForOwner] returns a maximum, in the order
    [pass < warn < block] given by [rank], of the effective default of the
    key (configured, else built-in, else [warn]) and of the overrides that
    exist for the key among the owner teams: the result is one of them and
    none of them ranks higher.  So overrides of [pass] on a default of
    [warn] give [warn], and the result is the same for every reordering of
    the owner teams. *)
Theorem sevForOwner_strictest_wins
        (cfg : option PolicyDoc) (key : string) (ownerTeams : list string) :
  labels_ok (load_policy cfg) key = true ->
  let pol := load_policy cfg in
  let d := effective_default cfg key in
  let ovs := overrides_for pol key ownerTeams in
  let r := sevForOwner pol key ownerTeams in
  rank "pass" < rank "warn" < rank "block" /\
  is_sev r /\
  In r (d :: ovs) /\
  (forall x, In x (d :: ovs) -> rank x <= rank r) /\
  (d = "warn" -> (forall o, In o ovs -> o = "pass") -> r = "warn") /\
  (forall teams',
      Permutation ownerTeams teams' -> sevForOwner pol key teams' = r).
Proof.
  intros Hok pol d ovs r. subst pol.
  assert (Hr : r = fold_left maxSev ovs d) by (apply sevForOwner_fold, Hok).
  assert (Hsev : forall x, In x (d :: ovs) -> is_sev x).
  { intros x [<-|Hx]; [apply effective_default_sev, Hok|].
    eapply overrides_for_sev; eassumption. }
  assert (Hplain : forall teams,
             Forall (fun x => inherited x = false)
               (d :: overrides_for (load_policy cfg) key teams)).
  { intros teams. apply List.Forall_forall. intros x Hx. apply is_sev_plain.
    destruct Hx as [<-|Hx]; [apply effective_default_sev, Hok|].
    eapply overrides_for_sev; eassumption. }
  destruct (fold_maxSev ovs d (Hplain ownerTeams)) as [Hin Hmax].
  rewrite <- Hr in Hin, Hmax.
  split; [vm_compute; split; reflexivity|].
  split; [apply Hsev, Hin|].
  split; [exact Hin|].
  split; [exact Hmax|].
  split.
  - intros Hd Hpass. destruct Hin as [Hin|Hin]; [congruence|].
    apply rank_inj; [apply Hsev; right; exact Hin | right; left; reflexivity |].
    pose proof (Hmax d (or_introl eq_refl)) as Hge.
    rewrite Hd in Hge. rewrite (Hpass r Hin) in Hge. vm_compute in Hge.
    exfalso. apply Hge. reflexivity.
  - intros teams' Hperm.
    pose proof (overrides_for_perm (load_policy cfg) key _ _ Hperm) as Hp.
    rewrite (sevForOwner_fold cfg key teams' Hok).
    destruct (fold_maxSev (overrides_for (load_policy cfg) key teams') d
                (Hplain teams'))
      as [Hin' Hmax'].
    set (r' := fold_left maxSev (overrides_for (load_policy cfg) key teams')
                 (effective_default cfg key)) in *.
    assert (Hr'in : In r' (d :: ovs)).
    { eapply Permutation_in; [|exact Hin'].
      constructor. symmetry. exact Hp. }
    assert (Hrin : In r (d :: overrides_for (load_policy cfg) key teams')).
    { eapply Permutation_in; [|exact Hin]. constructor. exact Hp. }
    apply rank_inj; [apply Hsev, Hr'in | apply Hsev, Hin |].
    pose proof (Hmax r' Hr'in). pose proof (Hmax' r Hrin).
    subst r' d. lia.
Qed.

(** The resolver on a configuration with two owners, one looser and one
    stricter than the default. *)
Lemma sevForOwner_strictest_wins_witness :
  labels_ok (load_policy cfg_two_owners) "FIELD_REMOVED_OPTIONAL" = true /\
  sevForOwner (load_policy cfg_two_owners) "FIELD_REMOVED_OPTIONAL"
    ["team-b"; "team-a"] =
  sevForOwner (load_policy cfg_two_owners) "FIELD_REMOVED_OPTIONAL"
    ["team-a"; "team-b"].
Proof.
  split; [vm_compute; reflexivity|].
  apply (sevForOwner_strictest_wins cfg_two_owners "FIELD_REMOVED_OPTIONAL"
           ["team-a"; "team-b"]).
  - vm_compute. reflexivity.
  - apply perm_swap.
Defined.

Example sevForOwner_pass_override_keeps_warn :
  sevForOwner (load_policy cfg_two_owners) "FIELD_REMOVED_OPTIONAL" ["team-a"]
  = "warn" /\
  sevForOwner (load_policy cfg_two_owners) "FIELD_REMOVED_OPTIONAL"
    ["team-a"; "team-b"] = "block" /\
  sevForOwner (load_policy cfg_two_owners) "NO_SUCH_RULE" ["team-a"] = "warn".
Proof. vm_compute. repeat split. Qed.



(** ** C2: enumDiff *)

(** C2, as amended.  For all inputs (an absent one counting as the empty
    list), [removed] holds exactly the members of the old list that the new
    list lacks and [added] those of the new list that the old one lacks,
    membership being the one of [Set]; no member occurs twice; and each list
    is sorted ascending by the code-unit order of the string forms of its
    values, which is the order of the default [sort()].  On
    [["x","y"]] and [["y","z"]] the result is [{removed:["x"], added:["z"]}]. *)
Theorem enumDiff_spec (oldValues newValues : option (list value)) :
  let a := or_empty oldValues in
  let b := or_empty newValues in
  let r := enumDiff oldValues newValues in
  (forall v, In v (removed r) -> In v a /\ ~ in_set v b) /\
  (forall v, In v a -> ~ in_set v b -> in_set v (removed r)) /\
  (forall v, In v (added r) -> In v b /\ ~ in_set v a) /\
  (forall v, In v b -> ~ in_set v a -> in_set v (added r)) /\
  distinct sameValueZero (removed r) /\
  distinct sameValueZero (added r) /\
  Sorted (key_le ToString) (removed r) /\
  Sorted (key_le ToString) (added r) /\
  enumDiff None newValues = enumDiff (Some []) newValues /\
  enumDiff oldValues None = enumDiff oldValues (Some []) /\
  enumDiff (Some [VStr "x"; VStr "y"]) (Some [VStr "y"; VStr "z"]) =
    {| removed := [VStr "x"]; added := [VStr "z"] |}.
Proof.
  intros a b r. subst r a b.
  rewrite (enumDiff_sides oldValues newValues). cbn [removed added].
  split; [intros v Hv; apply only_in_sound, Hv|].
  split; [intros v Hv Hn; apply only_in_complete; assumption|].
  split; [intros v Hv; apply only_in_sound, Hv|].
  split; [intros v Hv Hn; apply only_in_complete; assumption|].
  split; [apply only_in_distinct|].
  split; [apply only_in_distinct|].
  split; [apply only_in_sorted|].
  split; [apply only_in_sorted|].
  split; [reflexivity|].
  split; reflexivity.
Qed.

(** C2 as stated fails on numbers: the three removed values come out as
    1, 10, 2, which is not their ascending order. *)
Lemma enumDiff_numbers_not_ascending :
  removed (enumDiff (Some [VNum 1; VNum 2; VNum 10]) (Some [])) =
    [VNum 1; VNum 10; VNum 2] /\
  ~ Sorted natural_le
      (removed (enumDiff (Some [VNum 1; VNum 2; VNum 10]) (Some []))).
Proof.
  split; [reflexivity|].
  intros H. change (Sorted natural_le [VNum 1; VNum 10; VNum 2]) in H.
  inversion H as [|? ? Htail _]; subst.
  inversion Htail as [|? ? _ Hhd]; subst.
  inversion Hhd as [|? ? Hle]; subst.
  simpl in Hle. lia.
Qed.

(** ** C3: normalizeType *)

(** C3.  For an array of names, [normalizeType] gives as type the names
    other than ["null"], each once, in ascending order and joined by [|]
    (one name alone is that name, none gives ["unknown"]), and the nullable
    flag tells whether ["null"] is among the names.  A string gives itself
    and [false]; an absent declaration or one of any other form gives
    ["unknown"] and [false].  In every case the flag is [true] exactly when
    the declaration is an array that contains ["null"]. *)
Theorem normalizeType_spec :
  (forall a names,
      exists rest,
        StronglySorted str_lt rest /\
        (forall n, In n rest <-> In n names /\ n <> "null") /\
        nt_type (normalizeType (Some (VArr a (map VStr names)))) =
          VStr match rest with
               | [] => "unknown"
               | [x] => x
               | _ :: _ :: _ => join_with id "|" rest
               end /\
        (nt_nullable (normalizeType (Some (VArr a (map VStr names)))) = true
         <-> In "null" names)) /\
  (forall s,
      normalizeType (Some (VStr s)) =
        {| nt_type := VStr s; nt_nullable := false |}) /\
  (let unknown := {| nt_type := VStr "unknown"; nt_nullable := false |} in
   normalizeType None = unknown /\
   normalizeType (Some VNull) = unknown /\
   (forall b, normalizeType (Some (VBool b)) = unknown) /\
   (forall n, normalizeType (Some (VNum n)) = unknown) /\
   (forall a props, normalizeType (Some (VObj a props)) = unknown)) /\
  (forall t,
      nt_nullable (normalizeType t) = true <->
      exists a items, t = Some (VArr a items) /\ In (VStr "null") items) /\
  normalizeType
    (Some (VArr 0 [VStr "string"; VStr "null"; VStr "number"; VStr "string"]))
  = {| nt_type := VStr "number|string"; nt_nullable := true |}.
Proof.
  split; [|split; [|split; [|split]]].
  - intros a names. exists (type_names names).
    split; [apply type_names_sorted|].
    split; [apply type_names_In|].
    rewrite normalizeType_names. simpl. split; [reflexivity|].
    rewrite string_set_has, string_set_from_In. reflexivity.
  - reflexivity.
  - repeat split.
  - apply normalizeType_nullable.
  - reflexivity.
Qed.

(** ** C4: the order of the changes *)

(** C4.  [diff] goes through the paths that are keys of either flattened
    snapshot, each once, in ascending code-unit order, and its changes are
    those of the successive paths: the paths of the emitted changes are in
    ascending order.  This holds for both variants.  The result is a
    function of the policy, the two snapshots and the owner teams, and it is
    the same at whatever addresses the arrays and objects of the two
    documents were allocated: a later run on the same inputs gives the same
    changes, kinds and severities. *)
Theorem diff_changes_in_path_order
        (pol : Policy) (oldSchema newSchema : value) (ownerTeams : list string) :
  let A := flatten oldSchema in
  let B := flatten newSchema in
  let paths := diff_paths A B in
  (forall p, In p paths <-> In p (map_keys A) \/ In p (map_keys B)) /\
  StronglySorted str_lt paths /\
  changes (diff pol oldSchema newSchema ownerTeams) =
    flat_map
      (fun path => changes_at pol ownerTeams path (map_get A path) (map_get B path))
      paths /\
  (forall path c,
      In c (changes_at pol ownerTeams path (map_get A path) (map_get B path)) ->
      c_path c = path) /\
  Sorted str_le (map c_path (changes (diff pol oldSchema newSchema ownerTeams))) /\
  changes (Plain.diff oldSchema newSchema) =
    flat_map
      (fun path => Plain.changes_at path (map_get A path) (map_get B path))
      paths /\
  Sorted str_le (map c_path (changes (Plain.diff oldSchema newSchema))) /\
  (forall pol' old' new' teams',
      pol' = pol -> old' = oldSchema -> new' = newSchema -> teams' = ownerTeams ->
      diff pol' old' new' teams' = diff pol oldSchema newSchema ownerTeams) /\
  (forall f : nat -> nat,
      (forall a b, f a = f b -> a = b) ->
      diff pol (relabel f oldSchema) (relabel f newSchema) ownerTeams =
        diff pol oldSchema newSchema ownerTeams /\
      Plain.diff (relabel f oldSchema) (relabel f newSchema) =
        Plain.diff oldSchema newSchema).
Proof.
  intros A B paths.
  split; [apply diff_paths_In|].
  split; [apply diff_paths_strict|].
  split; [reflexivity|].
  split; [intros path c; apply changes_at_path|].
  split.
  { apply StronglySorted_Sorted. unfold diff. cbn [changes summarize].
    apply flat_map_paths_sorted; [|apply diff_paths_sorted].
    intros p c. apply changes_at_path. }
  split; [reflexivity|].
  split.
  { apply StronglySorted_Sorted. unfold Plain.diff. cbn [changes summarize].
    apply flat_map_paths_sorted; [|apply diff_paths_sorted].
    intros p c. apply plain_changes_at_path. }
  split; [intros pol' old' new' teams' -> -> -> ->; reflexivity|].
  intros f Hf. split; [apply diff_relabel | apply plain_diff_relabel]; exact Hf.
Qed.

(** ** C7: a snapshot against itself *)

(** C7.  For every snapshot and owner set, and for every policy table,
    [diff] of the snapshot against itself has no change and the summary
    [{decision: PASS, blocks: 0, warns: 0, passes: 0}], in both variants. *)
Theorem diff_self_is_empty (pol : Policy) (S : value) (ownerTeams : list string) :
  let nothing :=
    {| summary := {| decision := "PASS"; blocks := 0; warns := 0; passes := 0 |};
       changes := [] |} in
  diff pol S S ownerTeams = nothing /\ Plain.diff S S = nothing.
Proof.
  intros nothing.
  assert (Hget : forall p,
             In p (diff_paths (flatten S) (flatten S)) ->
             exists d, map_get (flatten S) p = Some d).
  { intros p Hp. apply diff_paths_In in Hp. apply assoc_In_key. tauto. }
  split.
  - unfold diff. rewrite flat_map_nil; [reflexivity|].
    intros p Hp. destruct (Hget p Hp) as [d ->]. apply changes_at_same.
  - unfold Plain.diff. rewrite flat_map_nil; [reflexivity|].
    intros p Hp. destruct (Hget p Hp) as [d ->]. apply plain_changes_at_same.
Qed.

(** ** C8: flatten *)


(** ** C5: decisions, sums and exit code *)

(** What a printed report says about the run. *)
Lemma main_reports w changed rep :
  usage_ok w = true ->
  git_diff_names w = Some changed ->
  final (main w) = Some rep ->
  Forall2
    (fun path r =>
       exists n,
         r = report_of_case w (load_policy (config w)) path
               (file_case w (base_of w) (head_of w) path n))
    changed (reports rep) /\
  decision (run_summary rep) =
    (if existsb has_block (reports rep) then "FAIL" else "PASS") /\
  exit_code (main w) = (if existsb has_block (reports rep) then 1 else 0) /\
  blocks (run_summary rep) = sum_of blocks (reports rep) /\
  warns (run_summary rep) = sum_of warns (reports rep) /\
  passes (run_summary rep) = sum_of passes (reports rep) /\
  retrievals (main w) =
    flat_map (fun path => [(base_of w, path); (head_of w, path)]) changed /\
  collect_owners w (reports rep) [] <> None.
Proof.
  intros Hok Hl Hfin.
  pose proof (main_usage_ok w changed Hok Hl) as Hm.
  pose proof (loop_spec w (load_policy (config w)) (base_of w) (head_of w)
                changed
                {| ls_reports := []; anyBlock := false; parses := 0; shows := [] |})
    as Hloop.
  destruct (loop w _ _ _ changed _) as [st|st].
  - destruct (collect_owners w (ls_reports st) []) as [teams|] eqn:Ec.
    + destruct Hm as (Hexit & Hret & rep' & Hfin' & Hdec & Hb & Hw & Hp & Hreps).
      rewrite Hfin in Hfin'. injection Hfin' as <-.
      destruct Hloop as (reps & Hr & Hall & Hany & Hshows).
      simpl in Hr, Hany, Hshows.
      rewrite Hreps, Hr. rewrite Hr in Hb, Hw, Hp, Ec.
      rewrite Hany in Hdec, Hexit. rewrite Hret, Hshows, Ec.
      repeat split; try assumption. discriminate.
    + destruct Hm as [Hm _]. rewrite Hm in Hfin. discriminate.
  - destruct Hm as [Hm _]. rewrite Hm in Hfin. discriminate.
Qed.

(** A run over files whose rounds return prints its report. *)
Lemma main_prints w changed :
  usage_ok w = true ->
  git_diff_names w = Some changed ->
  Forall (round_returns w) changed ->
  exists rep, final (main w) = Some rep.
Proof.
  intros Hok Hl Hlisted.
  pose proof (main_usage_ok w changed Hok Hl) as Hm.
  pose proof (loop_spec w (load_policy (config w)) (base_of w) (head_of w)
                changed
                {| ls_reports := []; anyBlock := false; parses := 0; shows := [] |})
    as Hloop.
  destruct (loop_listed w (load_policy (config w)) (base_of w) (head_of w)
              changed
              {| ls_reports := []; anyBlock := false; parses := 0; shows := [] |}
              Hlisted) as (st & E).
  rewrite E in Hm, Hloop.
  pose proof (collect_owners_spec w (ls_reports st) []) as Hc.
  destruct (collect_owners w (ls_reports st) []) as [teams|].
  - destruct Hm as (_ & _ & rep & Hfin & _). eauto.
  - exfalso. destruct Hc as (r & Hr & Hn).
    destruct Hloop as (reps & Hreps & Hall & _). simpl in Hreps.
    rewrite Hreps in Hr. clear -Hall Hr Hn Hlisted.
    induction Hall as [|path r' ps rs (n & ->) _ IH]; [destruct Hr|].
    inversion Hlisted as [|? ? [Hp _] Hrest]; subst.
    destruct Hr as [<-|Hr]; [|auto].
    rewrite report_file in Hn. contradiction.
Qed.

(** C5.  A run ends in one of three ways.  On a missing [--base] or
    [--head] it exits with code 2 and prints no report.  When [git diff]
    fails it exits with code 1 and prints no report.  Otherwise, whenever it
    prints its report, every file report has decision [FAIL] when its
    [blocks] is positive and [PASS] otherwise, the run's [blocks], [warns]
    and [passes] are the sums of the files' counts, the run's decision is
    [FAIL] exactly when some file report has a positive [blocks] and [PASS]
    otherwise, and the exit code is 1 exactly when the decision is [FAIL]
    and 0 otherwise; and the report is printed whenever the round of every
    changed file returns: the lookup of its owners gives a list, and the
    comparison of its two versions reaches no conversion that throws. *)
Theorem run_decision_and_exit_code (w : World) :
  (usage_ok w = false /\ exit_code (main w) = 2 /\ final (main w) = None) \/
  (usage_ok w = true /\ git_diff_names w = None /\
   exit_code (main w) = 1 /\ final (main w) = None) \/
  (usage_ok w = true /\
   exists changed,
     git_diff_names w = Some changed /\
     (Forall (round_returns w) changed -> exists rep, final (main w) = Some rep) /\
     forall rep,
       final (main w) = Some rep ->
       Forall
         (fun r =>
            decision (file_summary r) =
            if (0 <? blocks (file_summary r))%nat then "FAIL" else "PASS")
         (reports rep) /\
       blocks (run_summary rep) =
         list_sum (map (fun r => blocks (file_summary r)) (reports rep)) /\
       warns (run_summary rep) =
         list_sum (map (fun r => warns (file_summary r)) (reports rep)) /\
       passes (run_summary rep) =
         list_sum (map (fun r => passes (file_summary r)) (reports rep)) /\
       (decision (run_summary rep) = "FAIL" <->
        exists r, In r (reports rep) /\ (0 < blocks (file_summary r))%nat) /\
       (decision (run_summary rep) = "FAIL" \/
        decision (run_summary rep) = "PASS") /\
       (exit_code (main w) = 1 <-> decision (run_summary rep) = "FAIL") /\
       (exit_code (main w) = 0 <-> decision (run_summary rep) = "PASS")).
Proof.
  destruct (usage_ok w) eqn:Hok; [right|left].
  - destruct (git_diff_names w) as [changed|] eqn:Hl; [right|left].
    + split; [reflexivity|]. exists changed. split; [reflexivity|].
      split; [apply main_prints; assumption|].
      intros rep Hfin.
      destruct (main_reports w changed rep Hok Hl Hfin)
        as (Hall & Hdec & Hexit & Hb & Hw & Hp & _).
      split.
      { clear -Hall. induction Hall as [|path r ps rs (n & ->) _ IH];
          constructor; [|exact IH].
        apply report_decision. }
      rewrite <- !sum_of_list_sum.
      split; [exact Hb|]. split; [exact Hw|]. split; [exact Hp|].
      assert (Hex : existsb has_block (reports rep) = true <->
                    exists r, In r (reports rep) /\
                              (0 < blocks (file_summary r))%nat).
      { rewrite existsb_exists. unfold has_block.
        split; intros (r & Hr & H); exists r; split; auto;
          apply Nat.ltb_lt; exact H. }
      rewrite Hdec, Hexit, <- Hex.
      destruct (existsb has_block (reports rep));
        repeat split; auto; try discriminate; intros; try congruence.
    + rewrite (main_listing_fails w Hok Hl). auto.
  - rewrite (main_usage_error w Hok). auto.
Qed.

(** A run whose [git diff] fails: the exit code is 1 and no report is
    printed, so no decision is [FAIL]. *)
Lemma exit_code_1_without_report :
  usage_ok world_listing_fails = true /\
  exit_code (main world_listing_fails) = 1 /\
  final (main world_listing_fails) = None.
Proof. repeat split. Qed.

(** ** C6: the outcome of one changed file *)

(** C6, at a listing whose first file is named after a member that every
    object inherits.  [OWNERS["constructor"]] is then not a list of teams,
    the round of [schemas/constructor.json] throws when it resolves the
    severity of [FILE_ADDED], and nothing catches the exception: the run
    ends with exit code 1 and no report, without having retrieved the
    second changed file, and without a line on the standard output. *)
Theorem inherited_file_name_ends_the_run :
  usage_ok world_constructor_file = true /\
  git_diff_names world_constructor_file =
    Some ["schemas/constructor.json"; "schemas/checkout_completed.json"] /\
  OWNERS world_constructor_file !! "constructor" = None /\
  owners_lookup world_constructor_file
    (eventNameFromFile "schemas/constructor.json") = None /\
  file_case world_constructor_file "abc" "def" "schemas/constructor.json" 0
    = FileAdded /\
  step world_constructor_file (load_policy None) "abc" "def"
    {| ls_reports := []; anyBlock := false; parses := 0; shows := [] |}
    "schemas/constructor.json" =
  Thrown {| ls_reports := []; anyBlock := false; parses := 0;
            shows := [("abc", "schemas/constructor.json");
                      ("def", "schemas/constructor.json")] |} /\
  exit_code (main world_constructor_file) = 1 /\
  final (main world_constructor_file) = None /\
  retrievals (main world_constructor_file) =
    [("abc", "schemas/constructor.json"); ("def", "schemas/constructor.json")] /\
  console world_constructor_file = [].
Proof. vm_compute. repeat split. Qed.

(** ** C9: no changed file *)

(** C9.  When both revisions are named and no file changed, the run prints
    the report with decision [PASS], three zero counts and no file report,
    runs no [git show], and exits with code 0. *)
Theorem no_changed_files (w : World) :
  usage_ok w = true ->
  git_diff_names w = Some [] ->
  exit_code (main w) = 0 /\
  retrievals (main w) = [] /\
  exists rep,
    final (main w) = Some rep /\
    run_summary rep =
      {| decision := "PASS"; blocks := 0; warns := 0; passes := 0 |} /\
    reports rep = [].
Proof.
  unfold usage_ok, main. rewrite andb_true_iff. intros [Hb Hh] Hnone.
  rewrite Hb, Hh, Hnone. simpl. repeat split. eexists. repeat split.
Qed.

Lemma no_changed_files_witness :
  usage_ok world_no_change = true /\
  git_diff_names world_no_change = Some [] /\
  exit_code (main world_no_change) = 0.
Proof.
  split; [reflexivity|]. split; [reflexivity|].
  apply (no_changed_files world_no_change); reflexivity.
Defined.

(** ** C10: a file absent on both sides *)

(** C10.  When the content of a changed file is absent at both revisions
    and [JSON.parse] reads the text ["null"] as the value [null], neither the
    [FILE_ADDED] nor the [FILE_REMOVED] branch is taken, both calls of
    [safeJsonParse] on the [null] content succeed with [null], [diff] of
    [null] against [null] has no change, and the round does not throw (also
    when the owners of the file are not listed) and pushes an ordinary
    report with no change, three zero counts and decision [PASS], leaving
    the block flag as it was. *)
Theorem absent_on_both_sides
        (w : World) (pol : Policy) (base head : string) (st : LoopState)
        (path : string) :
  git_show w base path = None ->
  git_show w head path = None ->
  JSON_parse w (parses st) "null" = Some VNull ->
  JSON_parse w (S (parses st)) "null" = Some VNull ->
  let quiet := {| decision := "PASS"; blocks := 0; warns := 0; passes := 0 |} in
  file_case w base head path (parses st) = Delegated VNull VNull /\
  safeJsonParse w (parses st) (content (tryGitShow w base path)) = Some VNull /\
  safeJsonParse w (S (parses st)) (content (tryGitShow w head path)) = Some VNull /\
  diff pol VNull VNull (owners_of w path) = {| summary := quiet; changes := [] |} /\
  diff_of pol VNull VNull (owners_lookup w (eventNameFromFile path)) =
    Some {| summary := quiet; changes := [] |} /\
  exists st',
    step w pol base head st path = Normal st' /\
    ls_reports st' =
      (ls_reports st
         ++ [{| file := path; file_summary := quiet; file_changes := [] |}])%list /\
    anyBlock st' = anyBlock st.
Proof.
  intros Hold Hnew Hp1 Hp2 quiet.
  assert (Hcase : file_case w base head path (parses st) = Delegated VNull VNull).
  { unfold file_case, content_text. rewrite Hold, Hnew, Hp1, Hp2. reflexivity. }
  split; [exact Hcase|].
  unfold tryGitShow. rewrite Hold, Hnew. cbn [content].
  split; [exact Hp1|]. split; [exact Hp2|]. split; [reflexivity|].
  split; [destruct (owners_lookup w (eventNameFromFile path)); reflexivity|].
  pose proof (step_spec w pol base head st path) as Hs. cbv zeta in Hs.
  rewrite Hcase in Hs.
  assert (Hstep : exists st', step w pol base head st path = Normal st').
  { unfold step, tryGitShow, safeJsonParse, diff_of. rewrite Hold, Hnew.
    cbn [ok content negb andb]. rewrite Hp1, Hp2.
    destruct (owners_lookup w (eventNameFromFile path)); cbn; eauto. }
  destruct Hstep as (st' & E). rewrite E in Hs. destruct Hs as (Hr & Hb & _).
  exists st'. split; [exact E|]. split; [exact Hr|].
  rewrite Hb. apply orb_false_r.
Qed.

Lemma absent_on_both_sides_witness :
  git_show world_both_absent "abc" "schemas/gone.json" = None /\
  JSON_parse world_both_absent 0 "null" = Some VNull /\
  final (main world_both_absent) =
    Some {| run_base := Some (ArgStr "abc");
            run_head := Some (ArgStr "def");
            run_dir := ArgStr "schemas";
            run_summary :=
              {| decision := "PASS"; blocks := 0; warns := 0; passes := 0 |};
            reports :=
              [{| file := "schemas/gone.json";
                  file_summary :=
                    {| decision := "PASS"; blocks := 0; warns := 0; passes := 0 |};
                  file_changes := [] |}] |} /\
  exists st',
    step world_both_absent (load_policy None) "abc" "def"
      {| ls_reports := []; anyBlock := false; parses := 0; shows := [] |}
      "schemas/gone.json" = Normal st' /\
    ls_reports st' =
      [{| file := "schemas/gone.json";
          file_summary :=
            {| decision := "PASS"; blocks := 0; warns := 0; passes := 0 |};
          file_changes := [] |}].
Proof.
  split; [reflexivity|]. split; [reflexivity|]. split; [reflexivity|].
  destruct (absent_on_both_sides world_both_absent (load_policy None) "abc" "def"
              {| ls_reports := []; anyBlock := false; parses := 0; shows := [] |}
              "schemas/gone.json")
    as (_ & _ & _ & _ & _ & st' & Hstep & Hr & _); try reflexivity.
  exists st'. split; [exact Hstep | exact Hr].
Defined.

(** * Further facts about the code *)

(** With a label outside the three severities among the overrides the
    order of the owner teams shows in the result of [sevForOwner]: the label
    ranks as [warn], and of two equally ranked labels the earlier is kept. *)
Theorem sevForOwner_order_shows_with_unknown_labels :
  let pol :=
    load_policy
      (Some (PolicyNew ∅
               (Some {[ "team-a" := {[ "FILE_ADDED" := "error" ]};
                        "team-b" := {[ "FILE_ADDED" := "warn" ]} ]}))) in
  sevForOwner pol "FILE_ADDED" ["team-a"; "team-b"] = "error" /\
  sevForOwner pol "FILE_ADDED" ["team-b"; "team-a"] = "warn".
Proof. vm_compute. split; reflexivity. Qed.

(** The three demonstration scenarios under the built-in policy: a type
    change is one [TYPE_CHANGED] change of severity [block] and decision
    [FAIL]; a field leaving [required] is one [REQUIRED_BECOMES_OPTIONAL]
    change of severity [warn] and decision [PASS]; a new optional field is
    one [FIELD_ADDED] change of severity [pass]. *)
Theorem demonstration_scenarios :
  diff (load_policy None) checkout_v1 checkout_type_changed [] =
    {| summary := {| decision := "FAIL"; blocks := 1; warns := 0; passes := 0 |};
       changes :=
         [{| c_severity := "block"; c_kind := "TYPE_CHANGED";
             c_path := "total_amount";
             c_message := "Type changed 'total_amount': number → string" |}] |} /\
  diff (load_policy None) checkout_v1 checkout_optional_payment [] =
    {| summary := {| decision := "PASS"; blocks := 0; warns := 1; passes := 0 |};
       changes :=
         [{| c_severity := "warn"; c_kind := "REQUIRED_BECOMES_OPTIONAL";
             c_path := "payment_method";
             c_message := "Required → optional: 'payment_method'." |}] |} /\
  diff (load_policy None) checkout_v1 checkout_with_coupon [] =
    {| summary := {| decision := "PASS"; blocks := 0; warns := 0; passes := 1 |};
       changes :=
         [{| c_severity := "pass"; c_kind := "FIELD_ADDED";
             c_path := "coupon_code";
             c_message := "Added optional field 'coupon_code'." |}] |}.
Proof. vm_compute. repeat split. Qed.

(** Two parses of one document put its objects at different addresses, and
    [Set] tells objects apart by address: when an enum holds an object, the
    two parses differ by one removed and one added enum value. *)
Theorem object_enum_differs_between_parses :
  enum_of_object 10 = relabel (fun a => (a + 10)%nat) (enum_of_object 0) /\
  diff (load_policy None) (enum_of_object 0) (enum_of_object 10) [] =
    {| summary := {| decision := "FAIL"; blocks := 1; warns := 0; passes := 1 |};
       changes :=
         [{| c_severity := "block"; c_kind := "ENUM_VALUE_REMOVED";
             c_path := "mode";
             c_message := "Enum removed from 'mode': [object Object]" |};
          {| c_severity := "pass"; c_kind := "ENUM_VALUE_ADDED";
             c_path := "mode";
             c_message := "Enum added to 'mode': [object Object]" |}] |}.
Proof. vm_compute. split; reflexivity. Qed.

(** The summary of a [FILE_ADDED] report is fixed: when the policy gives the
    change the severity [block], the report still counts no block, the run's
    decision is [PASS] and the exit code is 0. *)
Theorem added_file_never_fails_the_run :
  exit_code (main world_added_blocking) = 0 /\
  final (main world_added_blocking) =
    Some {| run_base := Some (ArgStr "abc");
            run_head := Some (ArgStr "def");
            run_dir := ArgStr "schemas";
            run_summary :=
              {| decision := "PASS"; blocks := 0; warns := 0; passes := 1 |};
            reports :=
              [{| file := "schemas/new.json";
                  file_summary :=
                    {| decision := "PASS"; blocks := 0; warns := 0; passes := 1 |};
                  file_changes :=
                    [{| c_severity := "block"; c_kind := "FILE_ADDED";
                        c_path := "schemas/new.json";
                        c_message := "Schema file added: schemas/new.json" |}] |}] |}.
Proof. vm_compute. split; reflexivity. Qed.

(** The helpers on the command line and on file names. *)
Example command_line_and_names :
  map parse_arg ["--base=abc"; "--head"; "--dir=x=y"; "--base="] =
    [("base", ArgStr "abc"); ("head", ArgTrue); ("dir", ArgStr "x");
     ("base", ArgStr "")] /\
  args_get (map parse_arg ["--base=abc"; "--base="]) "base" = Some (ArgStr "") /\
  eventNameFromFile "schemas/checkout_completed.json" = "checkout_completed" /\
  eventNameFromFile "../schemas/a.json.bak" = "a.json.bak" /\
  ToString (VNum 0) = "0" /\
  ToString (VArr 0 [VStr "a"; VArr 1 [VNum 1; VNum 2]; VObj 2 []]) =
    "a,1,2,[object Object]".
Proof. vm_compute. repeat split. Qed.

(** * More of the code *)

(** ** maxSev and sevForOwner on arbitrary labels *)

(** [maxSev] on labels that are no names of inherited members compares
    ranks, where [pass], [warn] and [block] rank 0, 1 and 2 and every other
    such label ranks 1, like [warn].  It returns one of its arguments, of
    the higher rank, the first when the ranks are equal; it is idempotent
    and associative, and it is commutative on two labels exactly when their
    ranks differ or they are the same label. *)
Theorem maxSev_algebra (a b c : string) :
  inherited a = false -> inherited b = false -> inherited c = false ->
  (rank "pass" = 0 /\ rank "warn" = 1 /\ rank "block" = 2 /\
   (is_sevb a = false -> rank a = 1)) /\
  maxSev a b = (if rank a >=? rank b then a else b) /\
  (maxSev a b = a \/ maxSev a b = b) /\
  rank (maxSev a b) = Z.max (rank a) (rank b) /\
  (rank a = rank b -> maxSev a b = a) /\
  maxSev a a = a /\
  maxSev (maxSev a b) c = maxSev a (maxSev b c) /\
  (maxSev a b = maxSev b a <-> rank a <> rank b \/ a = b).
Proof.
  intros Ha Hb Hc.
  split.
  { do 3 (split; [reflexivity|]). unfold is_sevb, rank, SEV_RANK.
    intros H. apply orb_false_iff in H. destruct H as [H Hblock].
    apply orb_false_iff in H. destruct H as [Hpass Hwarn].
    apply String.eqb_neq in Hpass, Hwarn, Hblock. simpl.
    rewrite !lookup_insert_ne by congruence. reflexivity. }
  split; [apply maxSev_plain; assumption|].
  assert (Hab : inherited (maxSev a b) = false).
  { destruct (maxSev_either a b) as [E|E]; rewrite E; assumption. }
  assert (Hbc : inherited (maxSev b c) = false).
  { destruct (maxSev_either b c) as [E|E]; rewrite E; assumption. }
  rewrite (maxSev_plain (maxSev a b) c Hab Hc),
          (maxSev_plain a (maxSev b c) Ha Hbc),
          (maxSev_plain a b Ha Hb), (maxSev_plain b c Hb Hc),
          (maxSev_plain b a Hb Ha), (maxSev_plain a a Ha Ha).
  clear Ha Hb Hc Hab Hbc.
  repeat match goal with
         | |- context [rank ?x >=? rank ?y] =>
             is_var x; is_var y; destruct (Z.geb_spec (rank x) (rank y))
         end;
    repeat split; intros; subst; auto; try lia;
    try (left; lia); try (right; lia);
    try match goal with
        | H : _ \/ _ |- _ => destruct H; [lia | congruence]
        end.
Qed.

Lemma maxSev_algebra_witness :
  is_sevb "error" = false /\
  rank "error" = 1 /\
  maxSev "error" "warn" = "error" /\
  maxSev "warn" "error" = "warn".
Proof.
  pose proof (maxSev_algebra "error" "warn" "block" eq_refl eq_refl eq_refl)
    as ((_ & _ & _ & Hrank) & _ & _ & _ & Hfirst & _).
  pose proof (maxSev_algebra "warn" "error" "block" eq_refl eq_refl eq_refl)
    as (_ & _ & _ & _ & Hfirst' & _).
  split; [reflexivity|]. split; [apply Hrank; reflexivity|].
  split; [apply Hfirst | apply Hfirst']; reflexivity.
Defined.

(** A label that is the name of an inherited member ([constructor],
    [toString], ...) does not rank at all: against a label that is no such
    name the comparison is false, so [maxSev] returns its second argument,
    whichever of the two that is.  An override with such a label therefore
    replaces the label the resolver had reached, also [block]. *)
Theorem maxSev_inherited_name
        (pol : Policy) (key team : string) (teams : list string)
        (teamPolicy : SevMap) (a b : string) :
  inherited a = true -> inherited b = false ->
  (maxSev a b = b /\ maxSev b a = a) /\
  (POLICY_OVERRIDES_BY_OWNER pol !! team = Some teamPolicy ->
   teamPolicy !! key = Some a ->
   sevForOwner pol key teams = b ->
   sevForOwner pol key (teams ++ [team]) = a).
Proof.
  intros Ha Hb.
  assert (Hva : exists text, rank_value a = RankText text).
  { unfold inherited in Ha. unfold rank_value.
    destruct (assoc a Object_prototype) as [text|] eqn:E; [|discriminate].
    apply assoc_In in E.
    assert (Hown : SEV_RANK !! a = None).
    { repeat (destruct E as [[= <- _]|E]; [reflexivity|]). destruct E. }
    rewrite Hown. eauto. }
  destruct Hva as (text & Hva).
  assert (Hmax : maxSev a b = b /\ maxSev b a = a).
  { unfold maxSev. rewrite Hva, (rank_value_plain b Hb). split; reflexivity. }
  split; [exact Hmax|].
  intros Hteam Hover Hres. unfold sevForOwner in *.
  rewrite fold_left_app. cbn [fold_left]. rewrite Hteam, Hover, Hres.
  assert (Hne : nonempty a = true).
  { destruct a; [discriminate Ha | reflexivity]. }
  rewrite Hne. apply Hmax.
Qed.

Lemma maxSev_inherited_name_witness :
  DEFAULT_POLICY !! "TYPE_CHANGED" = Some "block" /\
  sevForOwner (load_policy cfg_inherited_label) "TYPE_CHANGED" ["team-a"]
  = "constructor".
Proof.
  split; [reflexivity|].
  apply (maxSev_inherited_name (load_policy cfg_inherited_label)
           "TYPE_CHANGED" "team-a" []
           {[ "TYPE_CHANGED" := "constructor" ]} "constructor" "block");
    reflexivity.
Defined.

Lemma sevForOwner_applied pol key teams :
  sevForOwner pol key teams =
  fold_left maxSev (applied_overrides pol key teams) (start_severity pol key).
Proof.
  unfold sevForOwner, start_severity, applied_overrides.
  generalize (match POLICY_DEFAULT pol !! key with
              | Some d => if nonempty d then d else "warn"
              | None => "warn"
              end) as s.
  induction teams as [|team teams IH]; intros s; simpl; [reflexivity|].
  rewrite fold_left_app, IH.
  destruct (POLICY_OVERRIDES_BY_OWNER pol !! team) as [tp|]; [|reflexivity].
  destruct (tp !! key) as [o|]; [|reflexivity].
  destruct (nonempty o); reflexivity.
Qed.

Lemma applied_overrides_nonempty pol key teams o :
  In o (applied_overrides pol key teams) -> o <> "".
Proof.
  unfold applied_overrides. rewrite in_flat_map. intros (team & _ & H).
  destruct (POLICY_OVERRIDES_BY_OWNER pol !! team) as [tp|]; [|destruct H].
  destruct (tp !! key) as [o'|]; [|destruct H].
  destruct (nonempty o') eqn:E; [|destruct H].
  destruct H as [<-|[]]. intros ->. discriminate.
Qed.

Lemma start_severity_nonempty pol key : start_severity pol key <> "".
Proof.
  unfold start_severity.
  destruct (POLICY_DEFAULT pol !! key) as [d|]; [|discriminate].
  destruct (nonempty d) eqn:E; [|discriminate].
  intros ->. discriminate.
Qed.

(** For labels outside the three severities too, as long as none is the
    name of an inherited member: [sevForOwner] returns the starting label
    or one of the applied overrides, never the empty string; no applied
    label ranks higher than the result; and the rank of the result is the
    same for every reordering of the owner teams. *)
Theorem sevForOwner_rank_for_any_labels
        (pol : Policy) (key : string) (ownerTeams : list string) :
  let labels := start_severity pol key :: applied_overrides pol key ownerTeams in
  Forall (fun x => inherited x = false) labels ->
  let r := sevForOwner pol key ownerTeams in
  In r labels /\
  r <> "" /\
  (forall x, In x labels -> rank x <= rank r) /\
  (forall teams',
      Permutation ownerTeams teams' ->
      rank (sevForOwner pol key teams') = rank r).
Proof.
  cbv zeta. intros Hplain. rewrite sevForOwner_applied.
  destruct (fold_maxSev (applied_overrides pol key ownerTeams)
              (start_severity pol key) Hplain) as [Hin Hmax].
  split; [exact Hin|]. split.
  { destruct Hin as [<-|Hin]; [apply start_severity_nonempty|].
    eapply applied_overrides_nonempty, Hin. }
  split; [exact Hmax|].
  intros teams' Hperm. rewrite sevForOwner_applied.
  assert (Hp : Permutation
                 (start_severity pol key :: applied_overrides pol key ownerTeams)
                 (start_severity pol key :: applied_overrides pol key teams')).
  { constructor. apply Permutation_flat_map, Hperm. }
  destruct (fold_maxSev (applied_overrides pol key teams')
              (start_severity pol key)) as [Hin' Hmax'].
  { eapply Permutation_Forall; [exact Hp | exact Hplain]. }
  pose proof (Hmax' _ (Permutation_in _ Hp Hin)).
  pose proof (Hmax _ (Permutation_in _ (Permutation_sym Hp) Hin')).
  lia.
Qed.

Lemma sevForOwner_rank_for_any_labels_witness :
  sevForOwner (load_policy cfg_unknown_labels) "FILE_ADDED" ["team-a"; "team-b"]
    = "error" /\
  rank (sevForOwner (load_policy cfg_unknown_labels) "FILE_ADDED"
          ["team-b"; "team-a"]) = 1.
Proof.
  split; [reflexivity|].
  destruct (sevForOwner_rank_for_any_labels (load_policy cfg_unknown_labels)
              "FILE_ADDED" ["team-a"; "team-b"]) as (_ & _ & _ & Hperm).
  - repeat constructor.
  - rewrite (Hperm ["team-b"; "team-a"]); [reflexivity | apply perm_swap].
Defined.

Lemma fold_maxSev_rank_le l : forall s,
  Forall (fun x => inherited x = false) (s :: l) ->
  rank s <= rank (fold_left maxSev l s).
Proof.
  intros s Hplain. destruct (fold_maxSev l s Hplain) as [_ H]. apply H.
  left. reflexivity.
Qed.

(** Ownership never loosens, as long as no label is the name of an
    inherited member: the result for more owner teams ranks at least as
    high as the result for the first of them, and the result for any teams
    ranks at least as high as the result for none, which is the default of
    the key. *)
Theorem sevForOwner_never_loosens
        (pol : Policy) (key : string) (teams more : list string) :
  Forall (fun x => inherited x = false)
    (start_severity pol key :: applied_overrides pol key (teams ++ more)) ->
  rank (sevForOwner pol key teams) <= rank (sevForOwner pol key (teams ++ more)) /\
  rank (sevForOwner pol key []) <= rank (sevForOwner pol key teams) /\
  sevForOwner pol key [] = start_severity pol key.
Proof.
  intros Hplain. rewrite !sevForOwner_applied. unfold applied_overrides in *.
  rewrite flat_map_app in *. rewrite fold_left_app. simpl.
  inversion Hplain as [|? ? Hs Hall]; subst.
  apply Forall_app in Hall. destruct Hall as [Hteams Hmore].
  assert (Hfirst : Forall (fun x => inherited x = false)
                     (start_severity pol key
                        :: flat_map
                             (fun team =>
                                match POLICY_OVERRIDES_BY_OWNER pol !! team with
                                | Some teamPolicy =>
                                    match teamPolicy !! key with
                                    | Some override =>
                                        if nonempty override then [override] else []
                                    | None => []
                                    end
                                | None => []
                                end) teams))
    by (constructor; assumption).
  split; [|split; [apply fold_maxSev_rank_le, Hfirst | reflexivity]].
  apply fold_maxSev_rank_le. constructor; [|exact Hmore].
  destruct (fold_maxSev_In
              (flat_map
                 (fun team =>
                    match POLICY_OVERRIDES_BY_OWNER pol !! team with
                    | Some teamPolicy =>
                        match teamPolicy !! key with
                        | Some override =>
                            if nonempty override then [override] else []
                        | None => []
                        end
                    | None => []
                    end) teams) (start_severity pol key)) as [<-|Hin];
    [exact Hs|].
  rewrite List.Forall_forall in Hteams. apply Hteams, Hin.
Qed.

Lemma sevForOwner_never_loosens_witness :
  rank (sevForOwner (load_policy cfg_two_owners) "FIELD_REMOVED_OPTIONAL"
          ["team-a"]) <=
  rank (sevForOwner (load_policy cfg_two_owners) "FIELD_REMOVED_OPTIONAL"
          (["team-a"] ++ ["team-b"])).
Proof.
  apply (sevForOwner_never_loosens (load_policy cfg_two_owners)
           "FIELD_REMOVED_OPTIONAL" ["team-a"] ["team-b"]).
  repeat constructor.
Defined.

(** A team that has no policy, or no entry for the rule key, or an empty
    entry, has no effect wherever it stands among the owner teams. *)
Theorem sevForOwner_ignores_silent_team
        (pol : Policy) (key team : string) (before after : list string) :
  applied_overrides pol key [team] = [] ->
  sevForOwner pol key (before ++ team :: after) =
  sevForOwner pol key (before ++ after).
Proof.
  intros H. rewrite !sevForOwner_applied. f_equal.
  unfold applied_overrides in *. rewrite !flat_map_app. simpl in *.
  rewrite app_nil_r in H. rewrite H. reflexivity.
Qed.

Lemma sevForOwner_ignores_silent_team_witness :
  applied_overrides (load_policy cfg_two_owners) "FIELD_REMOVED_OPTIONAL"
    ["team-unknown"] = [] /\
  sevForOwner (load_policy cfg_two_owners) "FIELD_REMOVED_OPTIONAL"
    (["team-a"] ++ "team-unknown" :: ["team-b"]) =
  sevForOwner (load_policy cfg_two_owners) "FIELD_REMOVED_OPTIONAL"
    (["team-a"] ++ ["team-b"]).
Proof.
  split; [reflexivity|].
  apply (sevForOwner_ignores_silent_team (load_policy cfg_two_owners)
           "FIELD_REMOVED_OPTIONAL" "team-unknown" ["team-a"] ["team-b"]).
  reflexivity.
Defined.

(** ** normalizeType, flatten and enumDiff *)

Lemma strictly_sorted_unique (l l' : list string) :
  StronglySorted str_lt l -> StronglySorted str_lt l' ->
  (forall x, In x l <-> In x l') -> l = l'.
Proof.
  intros Hl. revert l'. induction Hl as [|x l Hs IH Hx]; intros l' Hl' Hsame.
  - destruct l' as [|y l']; [reflexivity|].
    exfalso. apply (proj2 (Hsame y)). left. reflexivity.
  - destruct Hl' as [|y l' Hs' Hy].
    { exfalso. apply (proj1 (Hsame x)). left. reflexivity. }
    rewrite List.Forall_forall in Hx, Hy.
    assert (Hxy : x = y).
    { destruct (proj1 (Hsame x) (or_introl eq_refl)) as [E|Hin]; [auto|].
      destruct (proj2 (Hsame y) (or_introl eq_refl)) as [E|Hin']; [auto|].
      exfalso. apply (StrOrd.lt_irrefl x).
      eapply StrOrd.lt_trans; [apply Hx, Hin' | apply Hy, Hin]. }
    subst y. f_equal. apply IH; [exact Hs'|].
    intros z. split; intros Hz.
    + destruct (proj1 (Hsame z) (or_intror Hz)) as [E|Hin]; [|exact Hin].
      subst z. exfalso. apply (StrOrd.lt_irrefl x), Hx, Hz.
    + destruct (proj2 (Hsame z) (or_intror Hz)) as [E|Hin]; [|exact Hin].
      subst z. exfalso. apply (StrOrd.lt_irrefl x), Hy, Hz.
Qed.

(** The order and the repetitions of the names in a type array do not
    matter: two arrays with the same names give the same type and the same
    nullable flag. *)
Theorem normalizeType_same_names (a a' : nat) (names names' : list string) :
  (forall n, In n names <-> In n names') ->
  normalizeType (Some (VArr a (map VStr names))) =
  normalizeType (Some (VArr a' (map VStr names'))).
Proof.
  intros Hsame. rewrite !normalizeType_names.
  assert (Ht : type_names names = type_names names').
  { apply strictly_sorted_unique; try apply type_names_sorted.
    intros x. rewrite !type_names_In, Hsame. reflexivity. }
  assert (Hn : set_has String.eqb (set_from String.eqb names) "null" =
               set_has String.eqb (set_from String.eqb names') "null").
  { apply eq_true_iff_eq.
    rewrite !string_set_has, !string_set_from_In. apply Hsame. }
  rewrite Ht, Hn. reflexivity.
Qed.

Lemma normalizeType_same_names_witness :
  normalizeType (Some (VArr 0 [VStr "string"; VStr "null"; VStr "number"])) =
  normalizeType
    (Some (VArr 7 [VStr "number"; VStr "number"; VStr "null"; VStr "string"])).
Proof.
  apply (normalizeType_same_names 0 7 ["string"; "null"; "number"]
           ["number"; "number"; "null"; "string"]).
  intros n. simpl. tauto.
Defined.

(** An invariant of every step of [walk]. *)
Lemma walk_invariant (P : Fields -> Prop) :
  (forall node path rn fields,
      P fields -> P (record_field node path rn fields)) ->
  forall node path rn fields, P fields -> P (walk node path rn fields).
Proof.
  intros Hrec node. induction node as [node IH] using walk_ind.
  intros path rn fields HP. rewrite walk_eq. unfold walk_body.
  destruct (truthy node); simpl; [|exact HP].
  apply (Hrec node path rn) in HP.
  destruct (get_prop node "properties") as [[| | | | |a entries]|] eqn:Hp;
    try exact HP.
  revert HP. generalize (record_field node path rn fields) as fs.
  assert (Hsub : incl entries entries) by apply incl_refl.
  revert Hsub. generalize entries at 1 3 as es.
  induction es as [|[k child] es IHes]; simpl; intros Hincl fs HP; [exact HP|].
  apply IHes; [intros x Hx; apply Hincl; right; exact Hx|].
  eapply IH; [reflexivity | apply Hincl; left; reflexivity | exact HP].
Qed.

Lemma map_set_keys {V : Type} (m : list (string * V)) k v :
  map_keys (map_set m k v) =
  if set_has String.eqb (map_keys m) k then map_keys m
  else (map_keys m ++ [k])%list.
Proof.
  unfold map_keys, set_has. induction m as [|[k0 v0] m IH]; simpl; [reflexivity|].
  destruct (String.eqb k k0); simpl; [reflexivity|].
  rewrite IH. destruct (existsb (String.eqb k) (map fst m)); reflexivity.
Qed.

Lemma map_set_In {V : Type} (m : list (string * V)) k v q d :
  In (q, d) (map_set m k v) -> (q = k /\ d = v) \/ In (q, d) m.
Proof.
  induction m as [|[k0 v0] m IH]; simpl.
  - intros [[= <- <-]|[]]. auto.
  - destruct (String.eqb_spec k k0) as [->|Hne]; simpl.
    + intros [[= <- <-]|H]; auto.
    + intros [H|H]; [auto|]. apply IH in H. tauto.
Qed.

(** A snapshot is a map: no path occurs twice in [flatten schema], no path
    is empty, and every descriptor carries the path it is stored at. *)
Theorem flatten_is_a_snapshot (schema : value) :
  List.NoDup (map_keys (flatten schema)) /\
  (forall q d, In (q, d) (flatten schema) -> q <> "" /\ f_path d = q) /\
  (forall q d, In (q, d) (flatten schema) <-> map_get (flatten schema) q = Some d).
Proof.
  assert (Hnd : List.NoDup (map_keys (flatten schema))).
  { apply (walk_invariant (fun fs => List.NoDup (map_keys fs)));
      [|constructor].
    intros node path rn fields H. unfold record_field.
    destruct (String.eqb path ""); [exact H|].
    rewrite map_set_keys.
    destruct (set_has String.eqb (map_keys fields) path) eqn:E; [exact H|].
    apply List.NoDup_app; [exact H | repeat constructor; auto |].
    intros x Hx [<-|[]].
    apply (string_set_has (map_keys fields) path) in Hx. congruence. }
  assert (Hkey : forall q d, In (q, d) (flatten schema) -> q <> "" /\ f_path d = q).
  { apply (walk_invariant
             (fun fs => forall q d, In (q, d) fs -> q <> "" /\ f_path d = q));
      [|intros q d []].
    intros node path rn fields H q d. unfold record_field.
    destruct (String.eqb_spec path "") as [|Hne]; [apply H|].
    intros Hin. apply map_set_In in Hin.
    destruct Hin as [[-> ->]|Hin]; [split; [exact Hne | reflexivity]|].
    apply H, Hin. }
  split; [exact Hnd|]. split; [exact Hkey|].
  intros q d. revert Hnd. unfold map_get, map_keys.
  generalize (flatten schema) as m.
  induction m as [|[k v] m IH]; simpl; intros Hnd.
  - split; [contradiction | discriminate].
  - inversion Hnd as [|? ? Hnotin Hnd']; subst.
    destruct (String.eqb_spec q k) as [->|Hne].
    + split.
      * intros [[= ->]|Hin]; [reflexivity|].
        exfalso. apply Hnotin. apply in_map_iff. exists (k, d). auto.
      * intros [= ->]. auto.
    + rewrite <- (IH Hnd'). split; [intros [[= -> _]|H]; [contradiction|exact H]|auto].
Qed.

Lemma only_in_nil_iff l m :
  only_in l m = [] <-> forall v, In v l -> in_set v m.
Proof.
  split.
  - intros E v Hv.
    destruct (set_has sameValueZero m v) eqn:Eh; [apply in_set_has, Eh|].
    assert (Hn : ~ in_set v m) by (rewrite in_set_has; congruence).
    destruct (only_in_complete l m v Hv Hn) as (w & Hw & _).
    rewrite E in Hw. destruct Hw.
  - intros Hall. destruct (only_in l m) as [|v rest] eqn:E; [reflexivity|].
    destruct (only_in_sound l m v) as [Hv Hn]; [rewrite E; left; reflexivity|].
    exfalso. apply Hn, Hall, Hv.
Qed.

Lemma enumDiff_sides_empty (oldEnum newEnum : option (list value)) :
  (removed (enumDiff oldEnum newEnum) = [] <->
   forall v, In v (or_empty oldEnum) -> in_set v (or_empty newEnum)) /\
  (added (enumDiff oldEnum newEnum) = [] <->
   forall v, In v (or_empty newEnum) -> in_set v (or_empty oldEnum)).
Proof.
  rewrite enumDiff_sides. cbn [removed added]. split; apply only_in_nil_iff.
Qed.

(** [removed] is empty exactly when every old value is a member of the new
    list, and [added] is empty exactly when every new value is a member of
    the old list. *)
Theorem enumDiff_empty_iff (oldEnum newEnum : option (list value)) :
  (removed (enumDiff oldEnum newEnum) = [] <->
   forall v, In v (or_empty oldEnum) -> in_set v (or_empty newEnum)) /\
  (added (enumDiff oldEnum newEnum) = [] <->
   forall v, In v (or_empty newEnum) -> in_set v (or_empty oldEnum)).
Proof.
  rewrite enumDiff_sides. cbn [removed added].
  split; apply only_in_nil_iff.
Qed.

(** No value is a member of both [removed] and [added], membership being
    that of a [Set]. *)
Theorem enumDiff_removed_added_disjoint
        (oldEnum newEnum : option (list value)) (v : value) :
  set_has sameValueZero (removed (enumDiff oldEnum newEnum)) v &&
  set_has sameValueZero (added (enumDiff oldEnum newEnum)) v = false.
Proof.
  destruct (set_has sameValueZero (removed (enumDiff oldEnum newEnum)) v) eqn:Er;
    [|reflexivity].
  destruct (set_has sameValueZero (added (enumDiff oldEnum newEnum)) v) eqn:Ea;
    [|reflexivity].
  exfalso. apply in_set_has in Er, Ea. revert Er Ea.
  rewrite enumDiff_sides. cbn [removed added].
  intros (x & Hx & Hvx) (y & Hy & Hvy).
  apply only_in_sound in Hx, Hy. destruct Hx as [Hxo Hxn], Hy as [Hyn Hyo].
  apply Hxn. exists y. split; [exact Hyn|].
  apply sameValueZero_trans with v; [|exact Hvy].
  rewrite sameValueZero_sym. exact Hvx.
Qed.

Lemma relabel_primitive f v : is_compound v = false -> relabel f v = v.
Proof. destruct v; simpl; congruence. Qed.

Lemma is_compound_relabel f v : is_compound (relabel f v) = is_compound v.
Proof. destruct v; reflexivity. Qed.

(** An enum against a second copy of itself, the copy's arrays and objects
    being at the addresses given by [f]: no primitive value is ever removed
    or added, and when no array or object of the list shares its address
    with one of the copy, every array and object of the list is removed. *)
Theorem enumDiff_against_a_copy (f : nat -> nat) (l : list value) :
  (forall v w,
      In v l -> In w l -> is_compound v = true ->
      sameValueZero v (relabel f w) = false) ->
  let r := enumDiff (Some l) (Some (map (relabel f) l)) in
  (forall v, In v (removed r) -> is_compound v = true) /\
  (forall v, In v (added r) -> is_compound v = true) /\
  (forall v, In v l -> is_compound v = true -> in_set v (removed r)).
Proof.
  intros Hfresh r. subst r. rewrite enumDiff_sides. cbn [removed added or_empty].
  split; [|split].
  - intros v Hv. apply only_in_sound in Hv. destruct Hv as [Hv Hn].
    destruct (is_compound v) eqn:E; [reflexivity|].
    exfalso. apply Hn. exists v. split; [|apply sameValueZero_refl].
    apply in_map_iff. exists v. split; [apply relabel_primitive, E | exact Hv].
  - intros v Hv. apply only_in_sound in Hv. destruct Hv as [Hv Hn].
    apply in_map_iff in Hv. destruct Hv as (w & <- & Hw).
    rewrite is_compound_relabel. destruct (is_compound w) eqn:E; [reflexivity|].
    exfalso. apply Hn. exists w. split; [exact Hw|].
    rewrite (relabel_primitive f w E). apply sameValueZero_refl.
  - intros v Hv Hc. apply only_in_complete; [exact Hv|].
    intros (x & Hx & Hvx). apply in_map_iff in Hx.
    destruct Hx as (w & <- & Hw). rewrite (Hfresh v w Hv Hw Hc) in Hvx.
    discriminate.
Qed.

Lemma enumDiff_against_a_copy_witness :
  let l := [VStr "card"; VObj 4 [("kind", VStr "cash")]; VNum 3] in
  in_set (VObj 4 [("kind", VStr "cash")])
    (removed (enumDiff (Some l) (Some (map (relabel (fun a => (a + 10)%nat)) l)))).
Proof.
  cbv zeta.
  apply (enumDiff_against_a_copy (fun a => (a + 10)%nat)
           [VStr "card"; VObj 4 [("kind", VStr "cash")]; VNum 3]).
  - intros v w [<-|[<-|[<-|[]]]] [<-|[<-|[<-|[]]]] Hc;
      try discriminate Hc; reflexivity.
  - right. left. reflexivity.
  - reflexivity.
Defined.

(** ** What diff reports *)

Lemma changes_at_kind pol owners path a b K :
  (exists c, In c (changes_at pol owners path a b) /\ c_kind c = K) <->
  kind_condition K a b.
Proof.
  destruct a as [a|], b as [b|]; unfold changes_at, kind_condition; cbv zeta.
  - destruct (f_required a), (f_required b);
      destruct (type_differs a b);
      destruct (removed (enumDiff (f_enum a) (f_enum b))) as [|rv rl];
      destruct (added (enumDiff (f_enum a) (f_enum b))) as [|av al];
      cbn [app negb andb Bool.eqb Nat.ltb Nat.leb length];
      (split;
       [ intros (c & Hin & <-); simpl in Hin;
         repeat (destruct Hin as [<-|Hin]; [choose_disjunct|]); destruct Hin
       | intros H; decompose [and or] H; clear H; subst;
         first [congruence | pick_change] ]).
  - split; [intros (c & [<-|[]] & <-); reflexivity | intros ->; pick_change].
  - split; [intros (c & [<-|[]] & <-); reflexivity | intros ->; pick_change].
  - split; [intros (c & [] & _) | intros []].
Qed.

Lemma kind_condition_present K a b : kind_condition K a b -> a <> None \/ b <> None.
Proof.
  destruct a, b; simpl; intros H;
    [left; discriminate | left; discriminate | right; discriminate | destruct H].
Qed.

Lemma reported_iff pol owners oldSchema newSchema K p :
  reported pol owners oldSchema newSchema K p <->
  kind_condition K (map_get (flatten oldSchema) p) (map_get (flatten newSchema) p).
Proof.
  unfold reported, diff. cbn [changes summarize]. split.
  - intros (c & Hin & HK & Hp). apply in_flat_map in Hin.
    destruct Hin as (q & Hq & Hc).
    assert (q = p) by (rewrite <- Hp; symmetry; eapply changes_at_path, Hc).
    subst q. apply (changes_at_kind pol owners p). eauto.
  - intros H. pose proof (kind_condition_present _ _ _ H) as Hpres.
    apply (changes_at_kind pol owners p) in H. destruct H as (c & Hc & HK).
    exists c. split; [|split; [exact HK | eapply changes_at_path, Hc]].
    apply in_flat_map. exists p. split; [|exact Hc].
    apply diff_paths_In. unfold map_keys. rewrite !(assoc_In_key p).
    unfold map_get in Hpres.
    destruct Hpres as [Hn|Hn]; [left|right];
      match goal with
      | |- exists v, ?x = Some v => destruct x; [eauto | congruence]
      end.
Qed.

Lemma not_in_keys {V : Type} p (m : list (string * V)) :
  map_get m p = None <-> ~ In p (map_keys m).
Proof.
  unfold map_get, map_keys. rewrite (assoc_In_key p). split.
  - intros E (v & H). congruence.
  - intros H. destruct (assoc p m) eqn:E; [|reflexivity].
    exfalso. apply H. eauto.
Qed.

Lemma in_keys {V : Type} p (m : list (string * V)) :
  In p (map_keys m) <-> map_get m p <> None.
Proof.
  unfold map_get, map_keys. rewrite (assoc_In_key p). split.
  - intros (v & ->). discriminate.
  - intros H. destruct (assoc p m); [eauto | congruence].
Qed.

(** A field is reported removed exactly when it is a field of the old
    schema and not of the new one, and added exactly in the opposite case;
    for such a field nothing else is reported. *)
Theorem diff_reports_removed_and_added_fields
        (pol : Policy) (owners : list string) (oldSchema newSchema : value)
        (p : string) :
  let A := map_keys (flatten oldSchema) in
  let B := map_keys (flatten newSchema) in
  (reported pol owners oldSchema newSchema "FIELD_REMOVED" p <->
   In p A /\ ~ In p B) /\
  (reported pol owners oldSchema newSchema "FIELD_ADDED" p <->
   ~ In p A /\ In p B) /\
  (forall K,
      reported pol owners oldSchema newSchema K p ->
      (In p A /\ ~ In p B -> K = "FIELD_REMOVED") /\
      (~ In p A /\ In p B -> K = "FIELD_ADDED")).
Proof.
  cbv zeta. rewrite !reported_iff, !in_keys.
  split; [|split].
  - destruct (map_get (flatten oldSchema) p), (map_get (flatten newSchema) p);
      simpl; split; intros H; try discriminate H; try contradiction;
      decompose [and or] H; clear H;
      first [ discriminate | reflexivity | absurd_presence
            | split; presence ].
  - destruct (map_get (flatten oldSchema) p), (map_get (flatten newSchema) p);
      simpl; split; intros H; try discriminate H; try contradiction;
      decompose [and or] H; clear H;
      first [ discriminate | reflexivity | absurd_presence
            | split; presence ].
  - intros K. rewrite reported_iff, !in_keys.
    destruct (map_get (flatten oldSchema) p), (map_get (flatten newSchema) p);
      simpl; intros H; split; intros [H1 H2];
      first [ assumption | absurd_presence | destruct H ].
Qed.

Lemma removed_nonempty_iff o n :
  removed (enumDiff o n) <> [] <->
  exists v, In v (or_empty o) /\ ~ in_set v (or_empty n).
Proof.
  rewrite enumDiff_sides. cbn [removed]. split.
  - destruct (only_in (or_empty o) (or_empty n)) as [|v l] eqn:E; [congruence|].
    intros _. exists v. apply only_in_sound. rewrite E. left. reflexivity.
  - intros (v & Hv & Hn) E.
    destruct (only_in_complete _ _ v Hv Hn) as (w & Hw & _).
    rewrite E in Hw. destruct Hw.
Qed.

Lemma added_nonempty_iff o n :
  added (enumDiff o n) <> [] <->
  exists v, In v (or_empty n) /\ ~ in_set v (or_empty o).
Proof.
  rewrite enumDiff_sides. cbn [added].
  rewrite <- (removed_nonempty_iff n o), enumDiff_sides. reflexivity.
Qed.

Lemma both_sides K (cond : Field -> Field -> Prop) (ga gb : option Field) :
  K <> "FIELD_REMOVED" -> K <> "FIELD_ADDED" ->
  (forall a b, kind_condition K (Some a) (Some b) <-> cond a b) ->
  (kind_condition K ga gb <->
   exists a b, ga = Some a /\ gb = Some b /\ cond a b).
Proof.
  intros Hr Ha Hc. destruct ga as [a|], gb as [b|].
  - rewrite Hc. split; [eauto|]. intros (a' & b' & [= <-] & [= <-] & H). exact H.
  - simpl. split; [contradiction|]. intros (? & ? & _ & [=] & _).
  - simpl. split; [contradiction|]. intros (? & ? & [=] & _).
  - simpl. split; [contradiction|]. intros (? & ? & [=] & _).
Qed.

(** For a field of both schemas: a type change is reported exactly when
    the two types are not strictly equal or the nullable flags differ; a
    change of the required flag is reported under the rule key of its
    direction; an enum value removed (added) is reported exactly when some
    old (new) value is not a member of the new (old) enum. *)
Theorem diff_reports_descriptor_changes
        (pol : Policy) (owners : list string) (oldSchema newSchema : value)
        (p : string) :
  let both (cond : Field -> Field -> Prop) :=
    exists a b,
      map_get (flatten oldSchema) p = Some a /\
      map_get (flatten newSchema) p = Some b /\ cond a b in
  (reported pol owners oldSchema newSchema "TYPE_CHANGED" p <->
   both (fun a b =>
           strict_eq (f_type a) (f_type b) = false \/
           f_nullable a <> f_nullable b)) /\
  (reported pol owners oldSchema newSchema "REQUIRED_BECOMES_REQUIRED" p <->
   both (fun a b => f_required a = false /\ f_required b = true)) /\
  (reported pol owners oldSchema newSchema "REQUIRED_BECOMES_OPTIONAL" p <->
   both (fun a b => f_required a = true /\ f_required b = false)) /\
  (reported pol owners oldSchema newSchema "ENUM_VALUE_REMOVED" p <->
   both (fun a b =>
           exists v, In v (or_empty (f_enum a)) /\
                     ~ in_set v (or_empty (f_enum b)))) /\
  (reported pol owners oldSchema newSchema "ENUM_VALUE_ADDED" p <->
   both (fun a b =>
           exists v, In v (or_empty (f_enum b)) /\
                     ~ in_set v (or_empty (f_enum a)))).
Proof.
  cbv zeta. rewrite !reported_iff.
  assert (Htd : forall a b,
             type_differs a b = true <->
             strict_eq (f_type a) (f_type b) = false \/
             f_nullable a <> f_nullable b).
  { intros a b. unfold type_differs.
    destruct (strict_eq (f_type a) (f_type b)), (f_nullable a), (f_nullable b);
      simpl; split; intros H; try reflexivity; try discriminate; auto;
      destruct H; congruence. }
  split; [|split; [|split; [|split]]];
    (apply both_sides; [discriminate | discriminate |]);
    intros a b; simpl;
    (split;
     [ intros H; decompose [and or] H; clear H; try discriminate
     | intros H ]).
  - apply Htd. assumption.
  - right. right. left. split; [reflexivity | apply Htd, H].
  - tauto.
  - left. tauto.
  - tauto.
  - right. left. tauto.
  - apply removed_nonempty_iff. assumption.
  - right. right. right. left. split; [reflexivity|].
    apply removed_nonempty_iff, H.
  - apply added_nonempty_iff. assumption.
  - right. right. right. right. split; [reflexivity|].
    apply added_nonempty_iff, H.
Qed.

Lemma type_differs_sym a b : type_differs a b = type_differs b a.
Proof.
  unfold type_differs, strict_eq. rewrite sameValueZero_sym.
  destruct (f_nullable a), (f_nullable b); reflexivity.
Qed.

(** Exchanging the two schemas mirrors the report: removed fields become
    added fields, a required flag gained becomes one lost, removed enum
    values become added ones, and a type change stays a type change, at the
    same paths. *)
Theorem diff_of_exchanged_schemas
        (pol : Policy) (owners : list string) (oldSchema newSchema : value)
        (p : string) :
  let fwd := reported pol owners oldSchema newSchema in
  let bwd := reported pol owners newSchema oldSchema in
  (fwd "FIELD_REMOVED" p <-> bwd "FIELD_ADDED" p) /\
  (fwd "FIELD_ADDED" p <-> bwd "FIELD_REMOVED" p) /\
  (fwd "REQUIRED_BECOMES_REQUIRED" p <-> bwd "REQUIRED_BECOMES_OPTIONAL" p) /\
  (fwd "REQUIRED_BECOMES_OPTIONAL" p <-> bwd "REQUIRED_BECOMES_REQUIRED" p) /\
  (fwd "TYPE_CHANGED" p <-> bwd "TYPE_CHANGED" p) /\
  (fwd "ENUM_VALUE_REMOVED" p <-> bwd "ENUM_VALUE_ADDED" p) /\
  (fwd "ENUM_VALUE_ADDED" p <-> bwd "ENUM_VALUE_REMOVED" p).
Proof.
  cbv zeta. rewrite !reported_iff.
  destruct (map_get (flatten oldSchema) p) as [a|],
           (map_get (flatten newSchema) p) as [b|]; cbn [kind_condition];
    try (repeat split; intros H; first [discriminate H | reflexivity | contradiction]).
  rewrite (type_differs_sym b a).
  rewrite (enumDiff_sides (f_enum b) (f_enum a)),
          (enumDiff_sides (f_enum a) (f_enum b)).
  cbn [removed added].
  repeat split; intros H; decompose [and or] H; clear H; try discriminate;
    choose_disjunct.
Qed.

Lemma in_set_incl l m :
  (forall v, In v l -> in_set v m) <-> (forall v, in_set v l -> in_set v m).
Proof.
  split.
  - intros H v (w & Hw & Hvw). destruct (H w Hw) as (x & Hx & Hwx).
    exists x. split; [exact Hx|]. eapply sameValueZero_trans; eassumption.
  - intros H v Hv. apply H. exists v. split; [exact Hv|].
    apply sameValueZero_refl.
Qed.

Lemma changes_nil_iff pol owners oldSchema newSchema :
  changes (diff pol oldSchema newSchema owners) = [] <->
  forall K p, ~ reported pol owners oldSchema newSchema K p.
Proof.
  unfold reported. split.
  - intros -> K p (c & [] & _).
  - intros H. destruct (changes _) as [|c cs]; [reflexivity|].
    exfalso. apply (H (c_kind c) (c_path c)). exists c. simpl. auto.
Qed.

(** [diff] reports nothing exactly when the two schemas have the same
    fields and every field has, on both sides, the same required flag,
    strictly equal types, the same nullable flag and enums with the same
    members. *)
Theorem diff_reports_nothing_iff
        (pol : Policy) (owners : list string) (oldSchema newSchema : value) :
  changes (diff pol oldSchema newSchema owners) = [] <->
  (forall p,
      In p (map_keys (flatten oldSchema)) <-> In p (map_keys (flatten newSchema))) /\
  (forall p a b,
      map_get (flatten oldSchema) p = Some a ->
      map_get (flatten newSchema) p = Some b ->
      f_required a = f_required b /\
      strict_eq (f_type a) (f_type b) = true /\
      f_nullable a = f_nullable b /\
      (forall v, in_set v (or_empty (f_enum a)) <->
                 in_set v (or_empty (f_enum b)))).
Proof.
  rewrite changes_nil_iff. split.
  - intros H.
    assert (Hk : forall K p,
               ~ kind_condition K (map_get (flatten oldSchema) p)
                   (map_get (flatten newSchema) p))
      by (intros K p Hc; apply (H K p), reported_iff, Hc).
    clear H. split.
    + intros p. rewrite !in_keys.
      specialize (Hk "FIELD_REMOVED" p) as Hr.
      specialize (Hk "FIELD_ADDED" p) as Ha.
      destruct (map_get (flatten oldSchema) p), (map_get (flatten newSchema) p);
        simpl in Hr, Ha; split; intros Hp; congruence.
    + intros p a b Ea Eb.
      assert (Hk' : forall K, ~ kind_condition K (Some a) (Some b))
        by (intros K; rewrite <- Ea, <- Eb; apply Hk).
      clear Hk. cbn [kind_condition] in Hk'.
      assert (Hreq : f_required a = f_required b).
      { destruct (f_required a) eqn:Ra, (f_required b) eqn:Rb; try reflexivity;
          exfalso.
        - apply (Hk' "REQUIRED_BECOMES_OPTIONAL"). right. left. auto.
        - apply (Hk' "REQUIRED_BECOMES_REQUIRED"). left. auto. }
      assert (Htd : type_differs a b = false).
      { destruct (type_differs a b) eqn:E; [|reflexivity]. exfalso.
        apply (Hk' "TYPE_CHANGED"). right. right. left. auto. }
      assert (Hrm : removed (enumDiff (f_enum a) (f_enum b)) = []).
      { destruct (removed (enumDiff (f_enum a) (f_enum b))) eqn:E;
          [reflexivity|]. exfalso.
        apply (Hk' "ENUM_VALUE_REMOVED"). right. right. right. left.
        split; [reflexivity | congruence]. }
      assert (Had : added (enumDiff (f_enum a) (f_enum b)) = []).
      { destruct (added (enumDiff (f_enum a) (f_enum b))) eqn:E;
          [reflexivity|]. exfalso.
        apply (Hk' "ENUM_VALUE_ADDED"). right. right. right. right.
        split; [reflexivity | congruence]. }
      split; [exact Hreq|].
      unfold type_differs in Htd. apply orb_false_iff in Htd.
      destruct Htd as [Ht Hn]. apply negb_false_iff in Ht, Hn.
      split; [exact Ht|]. split; [apply Bool.eqb_prop, Hn|].
      pose proof (proj1 (proj1 (enumDiff_sides_empty (f_enum a) (f_enum b))) Hrm)
        as Hrm'.
      pose proof (proj1 (proj2 (enumDiff_sides_empty (f_enum a) (f_enum b))) Had)
        as Had'.
      rewrite in_set_incl in Hrm', Had'. intros v. split; auto.
  - intros [Hkeys Hdesc] K p Hrep. apply reported_iff in Hrep.
    specialize (Hkeys p). rewrite !in_keys in Hkeys.
    destruct (map_get (flatten oldSchema) p) as [a|] eqn:Ea,
             (map_get (flatten newSchema) p) as [b|] eqn:Eb;
      cbn [kind_condition] in Hrep.
    + destruct (Hdesc p a b Ea Eb) as (Hreq & Ht & Hn & Hen).
      assert (Hrm : removed (enumDiff (f_enum a) (f_enum b)) = []).
      { apply (proj2 (proj1 (enumDiff_sides_empty (f_enum a) (f_enum b)))).
        apply in_set_incl. intros v. apply Hen. }
      assert (Had : added (enumDiff (f_enum a) (f_enum b)) = []).
      { apply (proj2 (proj2 (enumDiff_sides_empty (f_enum a) (f_enum b)))).
        apply in_set_incl. intros v. apply Hen. }
      assert (Htd : type_differs a b = false).
      { unfold type_differs. rewrite Ht, Hn, Bool.eqb_reflx. reflexivity. }
      decompose [and or] Hrep; congruence.
    + apply (proj1 Hkeys); [discriminate | reflexivity].
    + apply (proj2 Hkeys); [discriminate | reflexivity].
    + exact Hrep.
Qed.

(** ** Summaries *)

Lemma count_severity_le cs :
  (count_severity "block" cs + count_severity "warn" cs
   + count_severity "pass" cs <= length cs)%nat /\
  ((forall c, In c cs -> is_sev (c_severity c)) ->
   (count_severity "block" cs + count_severity "warn" cs
    + count_severity "pass" cs = length cs)%nat).
Proof.
  unfold count_severity. induction cs as [|c cs [IHle IHeq]]; simpl.
  - split; [lia | reflexivity].
  - destruct (String.eqb_spec (c_severity c) "block") as [Eb|Eb];
      destruct (String.eqb_spec (c_severity c) "warn") as [Ew|Ew];
      destruct (String.eqb_spec (c_severity c) "pass") as [Ep|Ep];
      try congruence; simpl; (split; [lia|]); intros H;
      try (rewrite <- IHeq by (intros; apply H; auto); lia).
    exfalso. destruct (H c (or_introl eq_refl)) as [E|[E|E]]; congruence.
Qed.

Lemma count_severity_pos sev cs :
  (0 < count_severity sev cs)%nat <-> exists c, In c cs /\ c_severity c = sev.
Proof.
  unfold count_severity. induction cs as [|c cs IH]; simpl.
  - split; [lia | intros (c & [] & _)].
  - destruct (String.eqb_spec (c_severity c) sev) as [E|E]; simpl.
    + split; [eauto | lia].
    + rewrite IH. split.
      * intros (x & Hx & Hs). eauto.
      * intros (x & [<-|Hx] & Hs); [contradiction | eauto].
Qed.

Lemma changes_at_severity pol owners path a b c :
  In c (changes_at pol owners path a b) ->
  exists key, In key diff_rule_keys /\ c_severity c = sevForOwner pol key owners.
Proof.
  unfold changes_at, diff_rule_keys.
  destruct a as [a|], b as [b|]; cbv zeta; rewrite ?in_app_iff; intros H.
  - destruct H as [H|[H|[H|H]]]; revert H;
      match goal with |- In _ (if ?x then _ else _) -> _ => destruct x end;
      simpl; intros H; try contradiction; destruct H as [<-|[]]; simpl;
      try match goal with
          | |- context [if ?x then _ else _] => destruct x
          end;
      eexists; (split; [|reflexivity]); simpl; auto 12.
  - destruct H as [<-|[]]. simpl. destruct (f_required a);
      eexists; (split; [|reflexivity]); simpl; auto 12.
  - destruct H as [<-|[]]. simpl. destruct (f_required b);
      eexists; (split; [|reflexivity]); simpl; auto 12.
  - destruct H.
Qed.

(** The summary of [diff] against its changes: the three counts are the
    numbers of changes of severity [block], [warn] and [pass]; the decision
    is [FAIL] exactly when some change has severity [block] and [PASS]
    otherwise; every severity is the one [sevForOwner] gives for one of the
    nine rule keys of [diff]; the counts add up to at most the number of
    changes, and to exactly that number when all severities are among the
    three.  In the plain variant they always add up to it. *)
Theorem diff_summary_matches_changes
        (pol : Policy) (owners : list string) (oldSchema newSchema : value) :
  let r := diff pol oldSchema newSchema owners in
  let total := (blocks (summary r) + warns (summary r) + passes (summary r))%nat in
  blocks (summary r) = count_severity "block" (changes r) /\
  warns (summary r) = count_severity "warn" (changes r) /\
  passes (summary r) = count_severity "pass" (changes r) /\
  (decision (summary r) = "FAIL" <->
   exists c, In c (changes r) /\ c_severity c = "block") /\
  (decision (summary r) = "FAIL" \/ decision (summary r) = "PASS") /\
  (forall c, In c (changes r) ->
             exists key, In key diff_rule_keys /\
                         c_severity c = sevForOwner pol key owners) /\
  (total <= length (changes r))%nat /\
  ((forall c, In c (changes r) -> is_sev (c_severity c)) ->
   total = length (changes r)) /\
  (let q := Plain.diff oldSchema newSchema in
   (blocks (summary q) + warns (summary q) + passes (summary q))%nat
   = length (changes q)).
Proof.
  cbv zeta. unfold diff, Plain.diff.
  cbn [summary changes summarize blocks warns passes decision].
  do 3 (split; [reflexivity|]).
  split.
  { rewrite <- count_severity_pos.
    destruct (Nat.ltb_spec 0
                (count_severity "block"
                   (flat_map
                      (fun path =>
                         changes_at pol owners path
                           (map_get (flatten oldSchema) path)
                           (map_get (flatten newSchema) path))
                      (diff_paths (flatten oldSchema) (flatten newSchema)))));
      split; intros; try reflexivity; try discriminate; try assumption; lia. }
  split; [destruct (0 <? _)%nat; auto|].
  split.
  { intros c Hc. apply in_flat_map in Hc. destruct Hc as (p & _ & Hc).
    eapply changes_at_severity, Hc. }
  split; [apply count_severity_le|].
  split; [apply count_severity_le|].
  apply count_severity_le. intros c Hc. apply in_flat_map in Hc.
  destruct Hc as (p & _ & Hc). revert Hc. unfold Plain.changes_at.
  destruct (map_get (flatten oldSchema) p) as [a|],
           (map_get (flatten newSchema) p) as [b|];
    cbv zeta; rewrite ?in_app_iff; intros H.
  - destruct H as [H|[H|[H|H]]]; revert H;
      match goal with |- In _ (if ?x then _ else _) -> _ => destruct x end;
      simpl; intros H; try contradiction; destruct H as [<-|[]]; simpl;
      try match goal with
          | |- context [if ?x then _ else _] => destruct x
          end;
      unfold is_sev; auto.
  - destruct H as [<-|[]]. simpl. destruct (f_required a); unfold is_sev; auto.
  - destruct H as [<-|[]]. simpl. destruct (f_required b); unfold is_sev; auto.
  - destruct H.
Qed.

Lemma sevForOwner_builtin key owners :
  sevForOwner (load_policy None) key owners = start_severity (load_policy None) key.
Proof.
  rewrite (sevForOwner_no_overrides (load_policy None)) by reflexivity.
  reflexivity.
Qed.

Lemma plain_changes_at_builtin owners path a b :
  Plain.changes_at path a b =
  map to_plain (changes_at (load_policy None) owners path a b).
Proof.
  unfold Plain.changes_at, changes_at. rewrite !sevForOwner_builtin.
  destruct a as [a|], b as [b|]; cbv zeta; try reflexivity.
  - rewrite !map_app.
    destruct (f_required a), (f_required b), (type_differs a b),
      (0 <? length (removed (enumDiff (f_enum a) (f_enum b))))%nat,
      (0 <? length (added (enumDiff (f_enum a) (f_enum b))))%nat;
      reflexivity.
Qed.

Lemma count_severity_to_plain sev cs :
  count_severity sev (map to_plain cs) = count_severity sev cs.
Proof.
  unfold count_severity. induction cs as [|c cs IH]; simpl; [reflexivity|].
  destruct (String.eqb (c_severity c) sev); simpl; rewrite ?IH; reflexivity.
Qed.

Lemma plain_changes_builtin owners oldSchema newSchema :
  changes (Plain.diff oldSchema newSchema) =
    map to_plain (changes (diff (load_policy None) oldSchema newSchema owners)).
Proof.
  unfold Plain.diff, diff. cbn [changes summarize].
  generalize (diff_paths (flatten oldSchema) (flatten newSchema)) as paths.
  induction paths as [|p paths IH]; cbn [flat_map List.map]; [reflexivity|].
  rewrite List.map_app, <- IH, <- plain_changes_at_builtin. reflexivity.
Qed.

Lemma plain_diff_builtin owners oldSchema newSchema :
  changes (Plain.diff oldSchema newSchema) =
    map to_plain (changes (diff (load_policy None) oldSchema newSchema owners)) /\
  summary (Plain.diff oldSchema newSchema) =
    summary (diff (load_policy None) oldSchema newSchema owners).
Proof.
  pose proof (plain_changes_builtin owners oldSchema newSchema) as H.
  split; [exact H|].
  unfold Plain.diff, diff in *. cbn [changes summary summarize] in *.
  rewrite H, !count_severity_to_plain. reflexivity.
Qed.

(** Without a configuration the two variants agree: for any owner teams
    the policy-aware [diff] gives the changes of the plain [diff], with the
    same severities, paths and messages and the same summary; only the kind
    of a change of the required flag is named after its direction. *)
Theorem plain_diff_is_diff_without_configuration
        (owners : list string) (oldSchema newSchema : value) :
  changes (Plain.diff oldSchema newSchema) =
    map to_plain (changes (diff (load_policy None) oldSchema newSchema owners)) /\
  summary (Plain.diff oldSchema newSchema) =
    summary (diff (load_policy None) oldSchema newSchema owners).
Proof.
  pose proof (plain_changes_builtin owners oldSchema newSchema) as H.
  split; [exact H|].
  unfold Plain.diff, diff in *. cbn [changes summary summarize] in *.
  rewrite H, !count_severity_to_plain. reflexivity.
Qed.

(** ** Runs *)

Lemma Forall2_In_l {A B} (P : A -> B -> Prop) l l' x :
  Forall2 P l l' -> In x l -> exists y, In y l' /\ P x y.
Proof.
  induction 1 as [|a b l l' Hab _ IH]; intros Hin; [destruct Hin|].
  destruct Hin as [<-|Hin].
  - exists b. split; [left; reflexivity | exact Hab].
  - destruct (IH Hin) as (y & Hy & Hp). exists y. split; [right|]; assumption.
Qed.

Lemma Forall2_map_l {A B} (P : A -> B -> Prop) (g : A -> B) l l' :
  Forall2 P l l' -> (forall x y, In x l -> P x y -> y = g x) -> l' = map g l.
Proof.
  induction 1 as [|a b l l' Hab _ IH]; intros Hg; [reflexivity|].
  simpl. f_equal.
  - apply Hg; [left; reflexivity | exact Hab].
  - apply IH. intros x y Hx. apply Hg. right. exact Hx.
Qed.

Lemma list_sum_ge {A} (f : A -> nat) l x :
  In x l -> (f x <= list_sum (map f l))%nat.
Proof.
  induction l as [|a l IH]; intros Hin; [destruct Hin|].
  simpl. destruct Hin as [<-|Hin]; [lia | specialize (IH Hin); lia].
Qed.

Lemma case_has_block w pol path n :
  lost_or_invalid w path ->
  (exists side,
      file_case w (base_of w) (head_of w) path n = FileRemoved \/
      file_case w (base_of w) (head_of w) path n = InvalidJson side) /\
  file_summary
    (report_of_case w pol path (file_case w (base_of w) (head_of w) path n))
  = {| decision := "FAIL"; blocks := 1; warns := 0; passes := 0 |}.
Proof.
  unfold lost_or_invalid, file_case.
  destruct (git_show w (base_of w) path) as [old|],
           (git_show w (head_of w) path) as [new|]; intros H;
    try contradiction; try (split; [exists ""; auto | reflexivity]).
  - destruct H as [H|H].
    + rewrite (H n). split; [eauto | reflexivity].
    + rewrite (H (S n)).
      destruct (JSON_parse w n (content_text (Some old)));
        (split; [eauto | reflexivity]).
  - destruct H as [H|H].
    + rewrite (H n). split; [eauto | reflexivity].
    + rewrite (H (S n)).
      destruct (JSON_parse w n (content_text None));
        (split; [eauto | reflexivity]).
Qed.

(** A run that passes the usage check and prints no report ended on an
    exception. *)
Lemma main_silent w :
  usage_ok w = true -> final (main w) = None ->
  exit_code (main w) = 1 /\ (git_diff_names w = Some [] -> False).
Proof.
  intros Hok Hfin. destruct (git_diff_names w) as [changed|] eqn:Hl.
  - pose proof (main_usage_ok w changed Hok Hl) as Hm.
    destruct (loop w _ _ _ changed _) as [st|st].
    + destruct (collect_owners w (ls_reports st) []).
      * destruct Hm as (_ & _ & rep & Hfin' & _). congruence.
      * destruct Hm as [-> Hne]. split; [reflexivity|]. congruence.
    + destruct Hm as [-> Hne]. split; [reflexivity|]. congruence.
  - rewrite (main_listing_fails w Hok Hl). split; [reflexivity | discriminate].
Qed.

(** A printed report comes with the listing it was made from. *)
Lemma main_printed w rep :
  usage_ok w = true -> final (main w) = Some rep ->
  exists changed, git_diff_names w = Some changed.
Proof.
  intros Hok Hfin. destruct (git_diff_names w) as [changed|] eqn:Hl; [eauto|].
  rewrite (main_listing_fails w Hok Hl) in Hfin. discriminate.
Qed.

(** A changed file that is lost or cannot be parsed fails the run whatever
    the configuration and the owners say: when the head revision no longer
    has the file, or [JSON.parse] rejects one of its two versions, the exit
    code is 1; and whenever the run prints its report, the run's decision
    is [FAIL] with a positive number of blocks, and the file's own report
    has decision [FAIL] with one block.  The report is printed when the
    round of every changed file returns. *)
Theorem lost_or_invalid_file_fails_the_run
        (w : World) (changed : list string) (path : string) :
  usage_ok w = true ->
  git_diff_names w = Some changed ->
  In path changed ->
  lost_or_invalid w path ->
  exit_code (main w) = 1 /\
  (Forall (round_returns w) changed -> exists rep, final (main w) = Some rep) /\
  forall rep,
    final (main w) = Some rep ->
    decision (run_summary rep) = "FAIL" /\
    (0 < blocks (run_summary rep))%nat /\
    exists r,
      In r (reports rep) /\ file r = path /\
      decision (file_summary r) = "FAIL" /\ blocks (file_summary r) = 1%nat.
Proof.
  intros Hok Hl Hin Hlost.
  assert (Hrep : forall rep,
             final (main w) = Some rep ->
             exit_code (main w) = 1 /\
             decision (run_summary rep) = "FAIL" /\
             (0 < blocks (run_summary rep))%nat /\
             exists r,
               In r (reports rep) /\ file r = path /\
               decision (file_summary r) = "FAIL" /\
               blocks (file_summary r) = 1%nat).
  { intros rep Hfin.
    destruct (main_reports w changed rep Hok Hl Hfin)
      as (Hall & Hdec & Hexit & Hb & _).
    destruct (Forall2_In_l _ _ _ _ Hall Hin) as (r & Hr & n & ->).
    destruct (case_has_block w (load_policy (config w)) path n Hlost)
      as [_ Hblock].
    assert (Hany : existsb has_block (reports rep) = true).
    { apply existsb_exists. eexists. split; [exact Hr|].
      unfold has_block. rewrite Hblock. reflexivity. }
    rewrite Hany in Hdec, Hexit. split; [exact Hexit|].
    split; [exact Hdec|]. split.
    - rewrite Hb, sum_of_list_sum.
      pose proof (list_sum_ge (fun r => blocks (file_summary r)) _ _ Hr) as Hge.
      cbv beta in Hge. rewrite Hblock in Hge. simpl in Hge. lia.
    - eexists. split; [exact Hr|]. split; [apply report_file|].
      rewrite Hblock. split; reflexivity. }
  split; [|split; [apply main_prints; assumption|]].
  - destruct (final (main w)) as [rep|] eqn:Hfin.
    + apply (Hrep rep eq_refl).
    + apply main_silent; assumption.
  - intros rep Hfin. apply (Hrep rep Hfin).
Qed.

Lemma lost_or_invalid_file_fails_the_run_witness :
  usage_ok world_removed_relaxed = true /\
  lost_or_invalid world_removed_relaxed "schemas/old.json" /\
  sevForOwner (load_policy (config world_removed_relaxed)) "FILE_REMOVED" []
    = "pass" /\
  exit_code (main world_removed_relaxed) = 1.
Proof.
  split; [reflexivity|]. split; [exact I|]. split; [reflexivity|].
  apply (lost_or_invalid_file_fails_the_run world_removed_relaxed
           ["schemas/old.json"] "schemas/old.json").
  - reflexivity.
  - reflexivity.
  - left. reflexivity.
  - exact I.
Defined.

Lemma sum_of_map (f : Summary -> nat) {A} (g : A -> FileReport) l :
  sum_of f (map g l) = list_sum (map (fun x => f (file_summary (g x))) l).
Proof.
  rewrite sum_of_list_sum, map_map. reflexivity.
Qed.

Lemma list_sum_const {A} (l : list A) (k : nat) :
  list_sum (map (fun _ => k) l) = (k * length l)%nat.
Proof. induction l as [|a l IH]; simpl; [lia|]. rewrite IH. lia. Qed.

Lemma existsb_none {A} (p : A -> bool) l :
  (forall x, In x l -> p x = false) -> existsb p l = false.
Proof.
  induction l as [|a l IH]; intros H; [reflexivity|]. simpl.
  rewrite (H a) by (left; reflexivity). apply IH. intros x Hx. apply H.
  right. exact Hx.
Qed.

Lemma case_added w base head path n :
  git_show w base path = None -> git_show w head path <> None ->
  file_case w base head path n = FileAdded.
Proof.
  unfold file_case. intros -> H.
  destruct (git_show w head path); [reflexivity | contradiction].
Qed.

(** A run in which every changed file is new (absent at base, present at
    head) and has its owners listed passes whatever the configuration says
    about [FILE_ADDED]: the reports are one per file, each with the literal
    summary of one pass and one [FILE_ADDED] change whose severity is the
    resolved one; the run's decision is [PASS] with no blocks, no warns and
    as many passes as there are files, and the exit code is 0. *)
Theorem added_files_never_fail_the_run (w : World) (changed : list string) :
  usage_ok w = true ->
  git_diff_names w = Some changed ->
  (forall path, In path changed -> only_at_head w path /\ owners_listed w path) ->
  exit_code (main w) = 0 /\
  exists rep,
    final (main w) = Some rep /\
    reports rep =
      map (fun path =>
             report_of_case w (load_policy (config w)) path FileAdded)
        changed /\
    run_summary rep =
      {| decision := "PASS"; blocks := 0; warns := 0;
         passes := length changed |}.
Proof.
  intros Hok Hl Hnew.
  destruct (main_prints w changed Hok Hl) as (rep & Hfin).
  { apply List.Forall_forall. intros path Hin.
    destruct (Hnew path Hin) as [[Hbase Hhead] Hlisted].
    split; [exact Hlisted|]. intros n ov nv Hcase.
    rewrite (case_added w _ _ path n Hbase Hhead) in Hcase. discriminate. }
  destruct (main_reports w changed rep Hok Hl Hfin)
    as (Hall & Hdec & Hexit & Hb & Hw & Hp & _).
  assert (Hreps :
            reports rep =
            map (fun path =>
                   report_of_case w (load_policy (config w)) path FileAdded)
              changed).
  { apply (Forall2_map_l _ _ _ _ Hall). intros path r Hin (n & ->).
    destruct (Hnew path Hin) as [[Hbase Hhead] _].
    rewrite (case_added w _ _ path n Hbase Hhead). reflexivity. }
  assert (Hany : existsb has_block (reports rep) = false).
  { apply existsb_none. intros r Hr. rewrite Hreps in Hr.
    apply in_map_iff in Hr. destruct Hr as (path & <- & _). reflexivity. }
  rewrite Hany in Hdec, Hexit. split; [exact Hexit|].
  exists rep. split; [exact Hfin|]. split; [exact Hreps|].
  rewrite Hreps in Hb, Hw, Hp. rewrite sum_of_map in Hb, Hw, Hp.
  cbn [report_of_case file_summary blocks warns passes] in Hb, Hw, Hp.
  rewrite list_sum_const in Hb, Hw, Hp.
  destruct (run_summary rep) as [d b wn p]. simpl in *. subst.
  f_equal; lia.
Qed.

Lemma added_files_never_fail_the_run_witness :
  usage_ok world_added_blocking = true /\
  only_at_head world_added_blocking "schemas/new.json" /\
  owners_listed world_added_blocking "schemas/new.json" /\
  sevForOwner (load_policy (config world_added_blocking)) "FILE_ADDED" []
    = "block" /\
  exit_code (main world_added_blocking) = 0.
Proof.
  split; [reflexivity|]. split; [split; [reflexivity | discriminate]|].
  split; [discriminate|]. split; [reflexivity|].
  apply (added_files_never_fail_the_run world_added_blocking
           ["schemas/new.json"]).
  - reflexivity.
  - reflexivity.
  - intros path [<-|[]]. split; [split; [reflexivity | discriminate]|].
    discriminate.
Defined.

Lemma loop_app w pol base head before rest : forall st,
  loop w pol base head (before ++ rest) st =
  match loop w pol base head before st with
  | Normal st' => loop w pol base head rest st'
  | Thrown st' => Thrown st'
  end.
Proof.
  induction before as [|path before IH]; intros st; [reflexivity|].
  cbn [app loop]. destruct (step w pol base head st path); [apply IH|].
  reflexivity.
Qed.

Lemma step_unlisted w pol base head st path :
  ~ owners_listed w path ->
  match file_case w base head path (parses st) with
  | Delegated _ _ => False
  | _ => True
  end ->
  exists st',
    step w pol base head st path = Thrown st' /\
    shows st' = (shows st ++ [(base, path); (head, path)])%list.
Proof.
  unfold owners_listed. intros Hn.
  assert (E : owners_lookup w (eventNameFromFile path) = None).
  { destruct (owners_lookup w (eventNameFromFile path)); [|reflexivity].
    exfalso. apply Hn. discriminate. }
  unfold step, file_case, tryGitShow, sevForOwner_of, safeJsonParse.
  rewrite E.
  destruct (git_show w base path) as [old|],
           (git_show w head path) as [new|];
    cbn [ok content negb andb content_text];
    try (intros _; eexists; split; reflexivity);
    parse_cases w st; intros H; try contradiction;
    eexists; split; reflexivity.
Qed.

Lemma step_comparison_throws w pol base head st path oldValue newValue :
  file_case w base head path (parses st) = Delegated oldValue newValue ->
  diff_throws oldValue newValue = true ->
  exists st',
    step w pol base head st path = Thrown st' /\
    shows st' = (shows st ++ [(base, path); (head, path)])%list.
Proof.
  unfold step, file_case, tryGitShow, safeJsonParse, diff_of.
  destruct (git_show w base path) as [old|],
           (git_show w head path) as [new|];
    cbn [ok content negb andb content_text];
    try discriminate;
    parse_cases w st; intros H; try discriminate H;
    injection H as <- <-; intros ->; eexists; split; reflexivity.
Qed.

(** The first changed file whose round throws ends the run.  The round
    throws when the owners of the file are not listed (its name is one that
    every object inherits, and the owners document has no entry for it) and
    the file is new, lost or unparsable, so that the severity of its change
    is resolved; and when the comparison of its two versions reaches a
    conversion that throws.  The exit code is then 1, no report and no line
    is printed, and the files after it are never retrieved. *)
Theorem throwing_round_ends_the_run
        (w : World) (before after : list string) (path : string) :
  usage_ok w = true ->
  git_diff_names w = Some (before ++ path :: after)%list ->
  Forall (round_returns w) before ->
  (~ owners_listed w path /\ (only_at_head w path \/ lost_or_invalid w path)) \/
  comparison_throws w path ->
  exit_code (main w) = 1 /\
  final (main w) = None /\
  console w = [] /\
  retrievals (main w) =
    flat_map (fun p => [(base_of w, p); (head_of w, p)]) (before ++ [path]).
Proof.
  intros Hok Hl Hbefore Hcase.
  pose proof (main_usage_ok w _ Hok Hl) as Hm.
  assert (Hcon : console w =
                 match
                   loop w (load_policy (config w)) (base_of w) (head_of w)
                     (before ++ path :: after)
                     {| ls_reports := []; anyBlock := false; parses := 0;
                        shows := [] |}
                 with
                 | Thrown _ => []
                 | Normal _ => console w
                 end).
  { unfold console, base_of, head_of. unfold usage_ok in Hok.
    apply andb_true_iff in Hok. destruct Hok as [Hb Hh].
    rewrite Hb, Hh, Hl. cbn [negb orb].
    destruct before; cbn [app length Nat.eqb]; cbv iota;
      destruct (loop w _ _ _ _ _); reflexivity. }
  rewrite loop_app in Hm, Hcon.
  pose proof (loop_spec w (load_policy (config w)) (base_of w) (head_of w)
                before
                {| ls_reports := []; anyBlock := false; parses := 0; shows := [] |})
    as Hloop.
  destruct (loop_listed w (load_policy (config w)) (base_of w) (head_of w)
              before
              {| ls_reports := []; anyBlock := false; parses := 0; shows := [] |}
              Hbefore) as (st & E).
  rewrite E in Hm, Hcon, Hloop. cbn [loop] in Hm, Hcon.
  destruct Hloop as (reps & _ & _ & _ & Hshows). simpl in Hshows.
  assert (Hthrown : exists st',
             step w (load_policy (config w)) (base_of w) (head_of w) st path
             = Thrown st' /\
             shows st' =
               (shows st ++ [(base_of w, path); (head_of w, path)])%list).
  { destruct Hcase as [[Hn Hcase]|Hthrows].
    - apply step_unlisted; [exact Hn|].
      destruct Hcase as [[Hbase Hhead]|Hlost].
      + rewrite (case_added w _ _ path _ Hbase Hhead). exact I.
      + destruct (case_has_block w (load_policy (config w)) path (parses st)
                    Hlost) as [(side & [->| ->]) _]; exact I.
    - destruct (Hthrows (parses st)) as (ov & nv & Hc & Ht).
      apply (step_comparison_throws w _ _ _ st path ov nv Hc Ht). }
  destruct Hthrown as (st' & Hstep & Hs').
  rewrite Hstep in Hm, Hcon. destruct Hm as [-> _].
  split; [reflexivity|]. split; [reflexivity|]. split; [exact Hcon|].
  cbn [uncaught retrievals]. rewrite Hs', Hshows, flat_map_app. reflexivity.
Qed.

Lemma throwing_round_ends_the_run_witness :
  ~ owners_listed world_constructor_file "schemas/constructor.json" /\
  retrievals (main world_constructor_file) =
    [("abc", "schemas/constructor.json"); ("def", "schemas/constructor.json")] /\
  comparison_throws world_toString_type "schemas/checkout_completed.json" /\
  exit_code (main world_toString_type) = 1.
Proof.
  assert (Hn : ~ owners_listed world_constructor_file "schemas/constructor.json").
  { intros H. apply H. reflexivity. }
  assert (Ht : comparison_throws world_toString_type
                 "schemas/checkout_completed.json").
  { intros n. eexists. eexists. split; reflexivity. }
  split; [exact Hn|]. split; [|split; [exact Ht|]].
  - apply (throwing_round_ends_the_run world_constructor_file []
             ["schemas/checkout_completed.json"] "schemas/constructor.json").
    + reflexivity.
    + reflexivity.
    + constructor.
    + left. split; [exact Hn|]. left. split; [reflexivity | discriminate].
  - apply (throwing_round_ends_the_run world_toString_type []
             ["schemas/new.json"] "schemas/checkout_completed.json").
    + reflexivity.
    + reflexivity.
    + constructor.
    + right. exact Ht.
Defined.

Lemma count_severity_app sev cs cs' :
  count_severity sev (cs ++ cs') =
  (count_severity sev cs + count_severity sev cs')%nat.
Proof.
  unfold count_severity. rewrite List.filter_app, length_app. reflexivity.
Qed.

Lemma count_severity_all sev rs :
  count_severity sev (all_changes rs) =
  list_sum (map (fun r => count_severity sev (file_changes r)) rs).
Proof.
  unfold all_changes. induction rs as [|r rs IH]; simpl; [reflexivity|].
  rewrite count_severity_app, IH. reflexivity.
Qed.

Lemma existsb_has_block rs :
  existsb has_block rs =
  (0 <? list_sum (map (fun r => blocks (file_summary r)) rs))%nat.
Proof.
  induction rs as [|r rs IH]; [reflexivity|]. simpl. rewrite IH.
  unfold has_block.
  destruct (Nat.ltb_spec 0 (blocks (file_summary r)));
    destruct (Nat.ltb_spec 0
                (list_sum (map (fun r => blocks (file_summary r)) rs)));
    destruct (Nat.ltb_spec 0
                (blocks (file_summary r) +
                 list_sum (map (fun r => blocks (file_summary r)) rs)));
    simpl; try reflexivity; lia.
Qed.

Lemma report_counts_builtin w path c :
  counts_match
    (file_summary (report_of_case w (load_policy None) path c))
    (file_changes (report_of_case w (load_policy None) path c)).
Proof.
  destruct c; cbn [report_of_case file_summary file_changes];
    rewrite ?sevForOwner_builtin; repeat split.
Qed.

Lemma counts_without_configuration (w : World) (rep : RunReport) :
  usage_ok w = true ->
  config w = None ->
  final (main w) = Some rep ->
  Forall (fun r => counts_match (file_summary r) (file_changes r))
    (reports rep) /\
  counts_match (run_summary rep) (all_changes (reports rep)).
Proof.
  intros Hok Hcfg Hfin.
  destruct (main_printed w rep Hok Hfin) as (changed & Hl).
  destruct (main_reports w changed rep Hok Hl Hfin)
    as (Hall & Hdec & Hexit & Hb & Hw & Hp & _).
  rewrite Hcfg in Hall.
  assert (Hreps : Forall (fun r => counts_match (file_summary r) (file_changes r))
                    (reports rep)).
  { revert Hall. generalize (reports rep) changed. clear.
    intros rs paths. induction 1 as [|path r paths rs (n & ->) _ IH];
      constructor; [apply report_counts_builtin | exact IH]. }
  split; [exact Hreps|].
  assert (Hsum : forall sev (f : Summary -> nat),
             Forall (fun r => f (file_summary r) = count_severity sev (file_changes r))
               (reports rep) ->
             sum_of f (reports rep) = count_severity sev (all_changes (reports rep))).
  { intros sev f. generalize (reports rep). intros rs H.
    rewrite sum_of_list_sum, count_severity_all.
    induction H as [|r rs E _ IH]; simpl; [reflexivity|].
    rewrite E, IH. reflexivity. }
  unfold counts_match. rewrite Hb, Hw, Hp.
  repeat split; apply Hsum;
    (eapply List.Forall_impl; [|exact Hreps]); intros r (E1 & E2 & E3);
    assumption.
Qed.

(** Without a configuration the counts of a printed report are the counts
    of the changes it lists: in every file report, and in the run's summary
    over the changes of all reports, [blocks], [warns] and [passes] are the
    numbers of changes of severity [block], [warn] and [pass]; and the exit
    code is 1 exactly when some listed change has severity [block]. *)
Theorem counts_match_changes_without_configuration
        (w : World) (rep : RunReport) :
  usage_ok w = true ->
  config w = None ->
  final (main w) = Some rep ->
  Forall (fun r => counts_match (file_summary r) (file_changes r))
    (reports rep) /\
  counts_match (run_summary rep) (all_changes (reports rep)) /\
  (exit_code (main w) = 1 <->
   exists c, In c (all_changes (reports rep)) /\ c_severity c = "block").
Proof.
  intros Hok Hcfg Hfin.
  destruct (counts_without_configuration w rep Hok Hcfg Hfin)
    as (Hreps & Hcounts).
  destruct (main_printed w rep Hok Hfin) as (changed & Hl).
  destruct (main_reports w changed rep Hok Hl Hfin)
    as (_ & _ & Hexit & Hb & _).
  split; [exact Hreps|]. split; [exact Hcounts|].
  rewrite <- count_severity_pos.
  destruct Hcounts as (<- & _).
  rewrite Hb, sum_of_list_sum, Hexit, existsb_has_block.
  destruct (Nat.ltb_spec 0
              (list_sum (map (fun r => blocks (file_summary r)) (reports rep))));
    split; intros; try reflexivity; try discriminate; try assumption; lia.
Qed.

Lemma counts_match_changes_without_configuration_witness :
  exists rep,
    final (main world_three_files) = Some rep /\
    length (reports rep) = 3%nat /\
    counts_match (run_summary rep) (all_changes (reports rep)).
Proof.
  destruct (final (main world_three_files)) as [rep|] eqn:Hfin;
    [|vm_compute in Hfin; discriminate].
  exists rep. split; [reflexivity|].
  destruct (counts_match_changes_without_configuration world_three_files rep
              eq_refl eq_refl Hfin) as (_ & Hcounts & _).
  split; [|exact Hcounts].
  vm_compute in Hfin. injection Hfin as <-. reflexivity.
Defined.

Lemma plain_step w base head st path :
  owners_listed w path ->
  PlainRun.step w base head (plain_state st) path =
  plain_completion (step w (load_policy None) base head st path).
Proof.
  intros Hlisted. apply owners_listed_lookup in Hlisted.
  unfold PlainRun.step, step, plain_state, tryGitShow, sevForOwner_of, diff_of,
    PlainRun.diff_of, plain_completion.
  rewrite Hlisted.
  destruct (git_show w base path) as [old|], (git_show w head path) as [new|];
    cbn [ok content negb andb ls_reports anyBlock parses shows];
    rewrite ?sevForOwner_builtin;
    try (unfold plain_state; cbn [ls_reports anyBlock parses shows];
         rewrite List.map_app; reflexivity).
  - destruct (safeJsonParse w (parses st) (Some old)) as [ov|],
             (safeJsonParse w (S (parses st)) (Some new)) as [nv|];
      rewrite ?sevForOwner_builtin;
      try (unfold plain_state; cbn [ls_reports anyBlock parses shows];
           rewrite List.map_app; reflexivity).
    destruct (diff_throws ov nv); [reflexivity|].
    unfold plain_state. cbn [ls_reports anyBlock parses shows].
    rewrite List.map_app.
    destruct (plain_diff_builtin (owners_of w path) ov nv) as [Hc Hs].
    rewrite Hc, Hs. reflexivity.
  - destruct (safeJsonParse w (parses st) None) as [ov|],
             (safeJsonParse w (S (parses st)) None) as [nv|];
      rewrite ?sevForOwner_builtin;
      try (unfold plain_state; cbn [ls_reports anyBlock parses shows];
           rewrite List.map_app; reflexivity).
    destruct (diff_throws ov nv); [reflexivity|].
    unfold plain_state. cbn [ls_reports anyBlock parses shows].
    rewrite List.map_app.
    destruct (plain_diff_builtin (owners_of w path) ov nv) as [Hc Hs].
    rewrite Hc, Hs. reflexivity.
Qed.

Lemma plain_loop w base head changed : forall st,
  Forall (owners_listed w) changed ->
  PlainRun.loop w base head changed (plain_state st) =
  plain_completion (loop w (load_policy None) base head changed st).
Proof.
  induction changed as [|path changed IH]; intros st Hlisted;
    cbn [loop PlainRun.loop]; [reflexivity|].
  inversion Hlisted as [|? ? Hp Hrest]; subst.
  rewrite (plain_step w base head st path Hp).
  destruct (step w (load_policy None) base head st path) as [st1|st1];
    cbn [plain_completion]; [apply IH, Hrest | reflexivity].
Qed.

Lemma sum_of_plain f rs : sum_of f (map plain_report rs) = sum_of f rs.
Proof. rewrite !sum_of_list_sum, map_map. reflexivity. Qed.

(** The two scripts against each other.  Without a configuration, and when
    the owners of every changed file are listed, the policy-aware script
    and the plain one end with the same exit code after the same
    [git show] commands.  When some file changed they print the same run
    report, up to the kind of a change of the required flag; when none
    changed, the plain script prints an object of the shape of a [diff]
    result, [{summary, changes: []}], where the policy-aware one prints a
    run report with no reports; when one prints no report neither does, and
    that is on a usage error, when [git diff] fails, and when the comparison
    of a changed file reaches a conversion that throws. *)
Theorem plain_run_is_run_without_configuration (w : World) :
  config w = None ->
  (forall changed,
      git_diff_names w = Some changed -> Forall (owners_listed w) changed) ->
  PlainRun.p_exit_code (PlainRun.main w) = exit_code (main w) /\
  PlainRun.p_retrievals (PlainRun.main w) = retrievals (main w) /\
  match PlainRun.p_printed (PlainRun.main w), final (main w) with
  | None, None =>
      usage_ok w = false \/ git_diff_names w = None \/
      exists changed path,
        git_diff_names w = Some changed /\ In path changed /\
        ~ converts w (base_of w) (head_of w) path
  | Some (PlainRun.PrintedRun r), Some rep =>
      (exists changed, git_diff_names w = Some changed /\ changed <> []) /\
      r = plain_run rep
  | Some (PlainRun.PrintedDiff d), Some rep =>
      git_diff_names w = Some [] /\ changes d = [] /\ reports rep = [] /\
      summary d = run_summary rep /\
      summary d = {| decision := "PASS"; blocks := 0; warns := 0; passes := 0 |}
  | _, _ => False
  end.
Proof.
  intros Hcfg Hlisted. unfold PlainRun.main, main, usage_ok, base_of, head_of.
  rewrite Hcfg.
  destruct (arg_truthy (args_get (map parse_arg (argv w)) "base")),
           (arg_truthy (args_get (map parse_arg (argv w)) "head"));
    cbn [negb orb andb]; try (repeat split; left; reflexivity).
  destruct (git_diff_names w) as [[|path changed]|] eqn:E.
  - cbn [length Nat.eqb]. cbv iota. simpl. repeat split; reflexivity.
  - cbn [length Nat.eqb]. cbv iota zeta.
    specialize (Hlisted _ eq_refl).
    pose proof (plain_loop w
                  (arg_text (args_get (map parse_arg (argv w)) "base"))
                  (arg_text (args_get (map parse_arg (argv w)) "head"))
                  (path :: changed)
                  {| ls_reports := []; anyBlock := false; parses := 0;
                     shows := [] |}
                  Hlisted) as Hplain.
    change (plain_state
              {| ls_reports := []; anyBlock := false; parses := 0; shows := [] |})
      with {| ls_reports := []; anyBlock := false; parses := 0; shows := [] |}
      in Hplain.
    rewrite Hplain.
    pose proof (loop_spec w (load_policy None)
                  (arg_text (args_get (map parse_arg (argv w)) "base"))
                  (arg_text (args_get (map parse_arg (argv w)) "head"))
                  (path :: changed)
                  {| ls_reports := []; anyBlock := false; parses := 0;
                     shows := [] |}) as Hspec.
    destruct (loop w (load_policy None) _ _ (path :: changed) _) as [st|st];
      cbn [plain_completion].
    + pose proof (collect_owners_spec w (ls_reports st) []) as Hc.
      destruct (collect_owners w (ls_reports st) []) as [teams|].
      * unfold plain_state, plain_run.
        cbn [PlainRun.p_exit_code PlainRun.p_retrievals PlainRun.p_printed
             exit_code retrievals final anyBlock shows ls_reports
             run_base run_head run_dir run_summary reports].
        rewrite !sum_of_plain.
        split; [reflexivity|]. split; [reflexivity|].
        split; [|reflexivity]. eexists. split; [reflexivity | discriminate].
      * exfalso. destruct Hc as (r & Hr & Hn).
        destruct Hspec as (reps & Hreps & Hall & _). simpl in Hreps.
        rewrite Hreps in Hr. clear -Hall Hr Hn Hlisted.
        induction Hall as [|p r' ps rs (n & ->) _ IH]; [destruct Hr|].
        inversion Hlisted; subst.
        destruct Hr as [<-|Hr]; [|auto].
        rewrite report_file in Hn. contradiction.
    + cbn [PlainRun.p_exit_code PlainRun.p_retrievals PlainRun.p_printed
           uncaught exit_code retrievals final plain_state shows].
      split; [reflexivity|]. split; [reflexivity|]. right. right.
      destruct Hspec as (before & p & after & Hsplit & Hwhy & _).
      exists (path :: changed), p. split; [reflexivity|]. split.
      * rewrite Hsplit. apply in_or_app. right. left. reflexivity.
      * destruct Hwhy as [Hn|Hn]; [|exact Hn].
        exfalso. apply Hn.
        apply (proj1 (List.Forall_forall _ _) Hlisted).
        rewrite Hsplit. apply in_or_app. right. left. reflexivity.
  - repeat split. right. left. reflexivity.
Qed.

Lemma plain_run_is_run_without_configuration_witness :
  config world_three_files = None /\
  PlainRun.p_exit_code (PlainRun.main world_three_files) = 1 /\
  exit_code (main world_three_files) = 1 /\
  config world_toString_type = None /\
  PlainRun.p_printed (PlainRun.main world_toString_type) = None /\
  final (main world_toString_type) = None.
Proof.
  split; [reflexivity|].
  destruct (plain_run_is_run_without_configuration world_three_files eq_refl)
    as (Hexit & _).
  - intros changed [= <-].
    repeat (constructor; [discriminate|]). constructor.
  - split; [reflexivity|]. split; [rewrite <- Hexit; reflexivity|].
    repeat split.
Defined.

(** ** The listing of changed files *)

Lemma trim_start_le s : (String.length (trim_start s) <= String.length s)%nat.
Proof.
  induction s as [|c s IH]; simpl; [lia|].
  destruct (is_space c); simpl; lia.
Qed.

Lemma trim_start_head c s :
  trim_start (String c s) = String c s -> is_space c = false.
Proof.
  simpl. destruct (is_space c); [|reflexivity]. intros E.
  pose proof (trim_start_le s) as H. rewrite E in H. simpl in H. lia.
Qed.

Lemma trim_start_idem s : trim_start (trim_start s) = trim_start s.
Proof.
  induction s as [|c s IH]; [reflexivity|]. simpl.
  destruct (is_space c) eqn:E; [exact IH|]. simpl. rewrite E. reflexivity.
Qed.

Lemma trim_start_app s t :
  s <> "" -> trim_start s = s -> trim_start (s ++ t) = s ++ t.
Proof.
  destruct s as [|c s]; [contradiction|]. intros _ E.
  apply trim_start_head in E. simpl. rewrite E. reflexivity.
Qed.

Lemma trim_end_le s : (String.length (trim_end s) <= String.length s)%nat.
Proof.
  induction s as [|c s IH]; simpl; [lia|].
  destruct (trim_end s); [destruct (is_space c)|]; simpl in *; lia.
Qed.

Lemma trim_end_idem s : trim_end (trim_end s) = trim_end s.
Proof.
  induction s as [|c s IH]; [reflexivity|]. simpl.
  destruct (trim_end s) as [|d e] eqn:E.
  - destruct (is_space c) eqn:Ec; [reflexivity|]. simpl. rewrite Ec. reflexivity.
  - change (trim_end (String c (String d e))) with
      (match trim_end (String d e) with
       | "" => if is_space c then "" else String c ""
       | String a t => String c (String a t)
       end).
    rewrite IH. reflexivity.
Qed.

Lemma trim_end_head c s :
  is_space c = false -> exists t, trim_end (String c s) = String c t.
Proof.
  intros E. simpl. destruct (trim_end s); [rewrite E|]; eauto.
Qed.

Lemma trim_end_app_keep s t :
  trim_end t <> "" -> trim_end (s ++ t) = s ++ trim_end t.
Proof.
  intros Ht. induction s as [|c s IH]; [reflexivity|].
  change (trim_end (String c s ++ t)) with
    (match trim_end (s ++ t) with
     | "" => if is_space c then "" else String c ""
     | String a u => String c (String a u)
     end).
  rewrite IH.
  change (String c s ++ trim_end t) with (String c (s ++ trim_end t)).
  destruct (s ++ trim_end t) as [|a u] eqn:E; [|reflexivity].
  destruct s; simpl in E; [contradiction | discriminate].
Qed.

Lemma trim_end_app_drop s t :
  trim_end t = "" -> trim_end (s ++ t) = trim_end s.
Proof.
  intros Ht. induction s as [|c s IH]; [exact Ht|].
  simpl. rewrite IH. reflexivity.
Qed.

Lemma trim_fix s : trim s = s -> trim_start s = s /\ trim_end s = s.
Proof.
  unfold trim. intros E.
  assert (Hs : trim_start s = s).
  { destruct s as [|c s]; [reflexivity|]. simpl.
    destruct (is_space c) eqn:Ec; [|reflexivity]. exfalso.
    simpl in E. rewrite Ec in E.
    pose proof (trim_end_le (trim_start s)) as H1.
    pose proof (trim_start_le s) as H2. rewrite E in H1. simpl in H1. lia. }
  rewrite Hs in E. split; assumption.
Qed.

Lemma trim_idem s : trim (trim s) = trim s.
Proof.
  unfold trim.
  assert (H : trim_start (trim_end (trim_start s)) = trim_end (trim_start s)).
  { pose proof (trim_start_idem s) as E.
    destruct (trim_start s) as [|c t]; [reflexivity|].
    apply trim_start_head in E.
    destruct (trim_end_head c t E) as (u & ->). simpl. rewrite E. reflexivity. }
  rewrite H. apply trim_end_idem.
Qed.

Lemma contains_app c s t : contains c (s ++ t) = contains c s || contains c t.
Proof.
  induction s as [|a s IH]; [reflexivity|]. simpl. rewrite IH.
  rewrite orb_assoc. reflexivity.
Qed.

Lemma contains_trim_start c s :
  contains c s = false -> contains c (trim_start s) = false.
Proof.
  induction s as [|a s IH]; [reflexivity|]. simpl.
  destruct (is_space a); [|exact (fun H => H)].
  intros H. apply orb_false_iff in H. apply IH, H.
Qed.

Lemma contains_trim_end c s :
  contains c s = false -> contains c (trim_end s) = false.
Proof.
  induction s as [|a s IH]; [reflexivity|]. simpl. intros H.
  apply orb_false_iff in H. destruct H as [Ha Hs]. specialize (IH Hs).
  destruct (trim_end s); [destruct (is_space a)|]; simpl in *;
    rewrite ?Ha, ?IH; reflexivity.
Qed.

Lemma split_on_nonempty sep x : split_on sep x <> [].
Proof.
  destruct x as [|c x]; simpl; [discriminate|].
  destruct (Ascii.eqb c sep); [discriminate|].
  destruct (split_on sep x); discriminate.
Qed.

Lemma split_on_none sep s : contains sep s = false -> split_on sep s = [s].
Proof.
  induction s as [|c s IH]; [reflexivity|]. simpl. intros H.
  apply orb_false_iff in H. destruct H as [Hc Hs].
  rewrite Hc, (IH Hs). reflexivity.
Qed.

Lemma split_on_app sep a b :
  split_on sep (a ++ String sep b) = (split_on sep a ++ split_on sep b)%list.
Proof.
  induction a as [|c a IH]; simpl.
  - rewrite Ascii.eqb_refl. reflexivity.
  - destruct (Ascii.eqb c sep); rewrite IH; [reflexivity|].
    pose proof (split_on_nonempty sep a) as Hne.
    destruct (split_on sep a); [contradiction | reflexivity].
Qed.

Lemma split_on_parts sep x part :
  In part (split_on sep x) -> contains sep part = false.
Proof.
  revert part. induction x as [|c x IH]; simpl; intros part H.
  - destruct H as [<-|[]]. reflexivity.
  - destruct (Ascii.eqb c sep) eqn:E.
    + destruct H as [<-|H]; [reflexivity | apply IH, H].
    + pose proof (split_on_nonempty sep x) as Hne.
      destruct (split_on sep x) as [|p ps]; [contradiction|].
      destruct H as [<-|H].
      * simpl. rewrite E. apply IH. left. reflexivity.
      * apply IH. right. exact H.
Qed.

Lemma nonempty_true s : nonempty s = true <-> s <> "".
Proof.
  unfold nonempty. destruct (String.eqb_spec s ""); simpl; split; congruence.
Qed.

Lemma changed_of_plain stdout : Forall plain_name (changed_of stdout).
Proof.
  apply List.Forall_forall. intros name Hin. unfold changed_of in Hin.
  apply filter_In in Hin. destruct Hin as [Hin Hne].
  apply in_map_iff in Hin. destruct Hin as (part & <- & Hpart).
  split; [apply nonempty_true, Hne|]. split; [apply trim_idem|].
  unfold trim. apply contains_trim_end, contains_trim_start.
  eapply split_on_parts, Hpart.
Qed.

Lemma join_lines_cons name names :
  names <> [] ->
  join_with id (String "010" "") (name :: names) =
  name ++ String "010" (join_with id (String "010" "") names).
Proof. destruct names; [contradiction | reflexivity]. Qed.

Lemma join_lines_nonempty names :
  names <> [] -> Forall plain_name names ->
  join_with id (String "010" "") names <> "".
Proof.
  destruct names as [|name names]; [contradiction|]. intros _ H.
  inversion H as [|? ? (Hne & _) _]; subst.
  destruct names; simpl; unfold id; destruct name; try contradiction;
    discriminate.
Qed.

Lemma trim_end_name_lines names :
  Forall plain_name names ->
  trim_end (name_lines names) = join_with id (String "010" "") names.
Proof.
  induction 1 as [|name names (Hne & Htrim & _) Hall IH]; [reflexivity|].
  apply trim_fix in Htrim. destruct Htrim as [_ Hend].
  destruct names as [|next names].
  - simpl name_lines. rewrite trim_end_app_drop by reflexivity. exact Hend.
  - rewrite join_lines_cons by discriminate.
    assert (Hrest : join_with id (String "010" "") (next :: names) <> "").
    { apply join_lines_nonempty; [discriminate | exact Hall]. }
    change (name_lines (name :: next :: names)) with
      (name ++ String "010" (name_lines (next :: names))).
    assert (E : trim_end (String "010" (name_lines (next :: names))) =
                String "010" (join_with id (String "010" "") (next :: names))).
    { change (trim_end (String "010" (name_lines (next :: names)))) with
        (match trim_end (name_lines (next :: names)) with
         | "" => if is_space "010" then "" else String "010" ""
         | String a u => String "010" (String a u)
         end).
      rewrite IH.
      destruct (join_with id (String "010" "") (next :: names));
        [contradiction | reflexivity]. }
    rewrite trim_end_app_keep; rewrite E; [reflexivity | discriminate].
Qed.

Lemma trim_name_lines names :
  Forall plain_name names ->
  trim (name_lines names) = join_with id (String "010" "") names.
Proof.
  intros H. unfold trim.
  destruct H as [|name names (Hne & Htrim & Hnl) Hall]; [reflexivity|].
  change (name_lines (name :: names)) with
    (name ++ String "010" (name_lines names)).
  rewrite trim_start_app; [|exact Hne | apply trim_fix, Htrim].
  apply (trim_end_name_lines (name :: names)).
  constructor; [repeat split|]; assumption.
Qed.

Lemma split_join_lines names :
  names <> [] -> Forall plain_name names ->
  split_on "010" (join_with id (String "010" "") names) = names.
Proof.
  intros Hne H. induction H as [|name names (_ & _ & Hnl) Hall IH];
    [contradiction|].
  destruct names as [|next names].
  - simpl. unfold id. apply split_on_none, Hnl.
  - rewrite join_lines_cons by discriminate.
    rewrite split_on_app, (split_on_none _ _ Hnl), IH by discriminate.
    reflexivity.
Qed.

Lemma changed_of_name_lines names :
  Forall plain_name names -> changed_of (name_lines names) = names.
Proof.
  intros H. unfold changed_of. rewrite (trim_name_lines names H).
  destruct names as [|name names]; [reflexivity|].
  rewrite split_join_lines by (discriminate || exact H).
  induction H as [|n ns (Hne & Htrim & _) _ IH]; [reflexivity|].
  cbn [List.map List.filter]. rewrite Htrim.
  rewrite (proj2 (nonempty_true n) Hne). f_equal. exact IH.
Qed.

(** The listing of changed files.  Writing a list of names out, each
    followed by a line feed, and reading it with [changed_of] gives the
    list back when every name is plain: not empty, without white space at
    either end, without a line feed.  The lists that [changed_of] can give
    are exactly the lists of plain names; in particular the loop never sees
    an empty name or one with surrounding white space. *)
Theorem changed_of_reads_the_listing (names : list string) :
  (Forall plain_name names -> changed_of (name_lines names) = names) /\
  ((exists stdout, changed_of stdout = names) <-> Forall plain_name names).
Proof.
  split; [apply changed_of_name_lines|]. split.
  - intros (stdout & <-). apply changed_of_plain.
  - intros H. exists (name_lines names). apply changed_of_name_lines, H.
Qed.

(** ** The command line *)

Lemma assoc_app_skip {V} k (l l' : list (string * V)) :
  Forall (fun e => fst e <> k) l -> assoc k (l ++ l') = assoc k l'.
Proof.
  induction 1 as [|[k' v] l Hk _ IH]; [reflexivity|]. simpl in *.
  destruct (String.eqb_spec k k'); [congruence | exact IH].
Qed.

Lemma split_flag k tail :
  contains "=" k = false ->
  split_on "=" ("--" ++ k ++ String "=" tail) =
  ("--" ++ k) :: split_on "=" tail.
Proof.
  intros Hk.
  change ("--" ++ k ++ String "=" tail) with (("--" ++ k) ++ String "=" tail).
  rewrite split_on_app, split_on_none; [reflexivity|].
  simpl. exact Hk.
Qed.

(** Reading the command line.  For a key [k] without an equals sign, the
    argument [--k] reads as [k] set to [true] and [--k=v] as [k] set to
    the text [v]; what follows a second equals sign is dropped.  Of several
    arguments for one key the last one wins, so the value of [args.k] is
    [v] after [--k=v] when no later argument names [k], and it passes the
    usage check exactly when [v] is not empty. *)
Theorem command_line_reading (k v : string) :
  contains "=" k = false ->
  contains "=" v = false ->
  parse_arg ("--" ++ k) = (k, ArgTrue) /\
  parse_arg ("--" ++ k ++ "=" ++ v) = (k, ArgStr v) /\
  (forall rest, parse_arg ("--" ++ k ++ "=" ++ v ++ "=" ++ rest) = (k, ArgStr v)) /\
  (forall before after,
     Forall (fun x => fst (parse_arg x) <> k) after ->
     let args :=
       map parse_arg (List.app before (("--" ++ k ++ "=" ++ v) :: after)) in
     args_get args k = Some (ArgStr v) /\
     arg_text (args_get args k) = v /\
     arg_truthy (args_get args k) = nonempty v).
Proof.
  intros Hk Hv.
  assert (Hkv : parse_arg ("--" ++ k ++ "=" ++ v) = (k, ArgStr v)).
  { unfold parse_arg. change ("=" ++ v) with (String "=" v).
    rewrite (split_flag k v Hk), (split_on_none _ _ Hv). reflexivity. }
  split.
  - unfold parse_arg. rewrite split_on_none by exact Hk. reflexivity.
  - split; [exact Hkv|]. split.
    + intros rest. unfold parse_arg.
      change ("=" ++ v ++ "=" ++ rest) with (String "=" (v ++ String "=" rest)).
      rewrite (split_flag k _ Hk), split_on_app, (split_on_none _ _ Hv).
      reflexivity.
    + intros before after Hafter. cbv zeta.
      assert (E : args_get
                    (map parse_arg
                       (List.app before (("--" ++ k ++ "=" ++ v) :: after))) k
                  = Some (ArgStr v)).
      { unfold args_get.
        rewrite List.map_app, rev_app_distr. cbn [List.map rev].
        rewrite Hkv, <- !app_assoc, assoc_app_skip.
        - simpl. rewrite String.eqb_refl. reflexivity.
        - apply List.Forall_forall. intros e He. apply in_rev in He.
          apply in_map_iff in He. destruct He as (x & <- & Hx).
          rewrite List.Forall_forall in Hafter. apply Hafter, Hx. }
      rewrite E. repeat split.
Qed.

Lemma command_line_reading_witness :
  args_get (map parse_arg argv_repeated) "base" = Some (ArgStr "abc") /\
  parse_arg "--head=def=ghi" = ("head", ArgStr "def").
Proof.
  destruct (command_line_reading "base" "abc" eq_refl eq_refl)
    as (_ & _ & _ & Hlast).
  destruct (command_line_reading "head" "def" eq_refl eq_refl)
    as (_ & _ & Hcut & _).
  split.
  - apply (Hlast ["--base=old"; "--dir=events"] ["--head=def=ghi"]).
    constructor; [discriminate | constructor].
  - apply (Hcut "ghi").
Defined.

(** ** File names *)

Lemma string_length_app s t :
  String.length (s ++ t) = (String.length s + String.length t)%nat.
Proof. induction s as [|c s IH]; simpl; [reflexivity | rewrite IH; reflexivity]. Qed.

Lemma substring_skip s t m :
  substring (String.length s) m (s ++ t) = substring 0 m t.
Proof. induction s as [|c s IH]; [reflexivity | exact IH]. Qed.

Lemma substring_prefix s t :
  substring 0 (String.length s) (s ++ t) = s.
Proof.
  induction s as [|c s IH]; simpl; [destruct t; reflexivity|].
  rewrite IH. reflexivity.
Qed.

Lemma strip_json_suffix name : strip_json (name ++ ".json") = name.
Proof.
  unfold strip_json. rewrite string_length_app. simpl String.length.
  replace (String.length name + 5 - 5)%nat with (String.length name) by lia.
  rewrite substring_skip, substring_prefix.
  destruct (Nat.leb_spec 5 (String.length name + 5)); [reflexivity | lia].
Qed.

Lemma basename_of_file dir file :
  file <> "" -> contains "/" file = false ->
  basename (dir ++ "/" ++ file) = file /\ basename file = file.
Proof.
  intros Hne Hfile. unfold basename.
  change ("/" ++ file) with (String "/" file).
  rewrite split_on_app, (split_on_none _ _ Hfile), List.filter_app.
  cbn [List.filter]. rewrite (proj2 (nonempty_true file) Hne).
  split; [apply List.last_last | reflexivity].
Qed.

(** The event name of a schema file is its base name without the
    extension: for a name without a slash, [dir/name.json] and [name.json]
    both give [name], whatever the directory.  So the lookup of the owners
    of a changed file does not depend on the directory it is in: it gives
    the teams that the owners document has for [name]; without such an
    entry it gives no team, unless [name] is the name of a member that
    every object inherits, when it gives that member and no list. *)
Theorem eventNameFromFile_of_schema_file (dir name : string) :
  contains "/" name = false ->
  eventNameFromFile (dir ++ "/" ++ name ++ ".json") = name /\
  eventNameFromFile (name ++ ".json") = name /\
  forall w,
    owners_lookup w (eventNameFromFile (dir ++ "/" ++ name ++ ".json")) =
    match OWNERS w !! name with
    | Some teams => Some teams
    | None => if inherited name then None else Some []
    end.
Proof.
  intros Hname.
  assert (Hfile : contains "/" (name ++ ".json") = false).
  { rewrite contains_app, Hname. reflexivity. }
  assert (Hne : name ++ ".json" <> "").
  { destruct name; discriminate. }
  destruct (basename_of_file dir _ Hne Hfile) as [Hdir Hbare].
  assert (E : eventNameFromFile (dir ++ "/" ++ name ++ ".json") = name).
  { unfold eventNameFromFile. rewrite Hdir. apply strip_json_suffix. }
  split; [exact E|]. split.
  - unfold eventNameFromFile. rewrite Hbare. apply strip_json_suffix.
  - intros w. rewrite E. reflexivity.
Qed.

Lemma eventNameFromFile_of_schema_file_witness :
  eventNameFromFile ("schemas/v2" ++ "/" ++ "checkout_completed" ++ ".json")
  = "checkout_completed".
Proof.
  apply (eventNameFromFile_of_schema_file "schemas/v2" "checkout_completed").
  reflexivity.
Defined.

(** ** The lines before the report *)

Lemma reports_files w pol base head paths rs :
  Forall2
    (fun path r =>
       exists n, r = report_of_case w pol path (file_case w base head path n))
    paths rs ->
  flat_map (fun r => owners_of w (file r)) rs = flat_map (owners_of w) paths.
Proof.
  induction 1 as [|path r paths rs (n & ->) _ IH]; [reflexivity|].
  simpl. rewrite report_file, IH. reflexivity.
Qed.

Lemma change_lines_length cs :
  length (flat_map change_lines cs) =
  (count_severity "block" cs + count_severity "warn" cs)%nat.
Proof.
  unfold count_severity. induction cs as [|c cs IH]; [reflexivity|].
  simpl. rewrite !length_app, IH. unfold change_lines.
  destruct (String.eqb_spec (c_severity c) "block") as [E|E];
    destruct (String.eqb_spec (c_severity c) "warn") as [E'|E'];
    try congruence; simpl; lia.
Qed.

Lemma flat_map_flat_map {A B C} (f : A -> list B) (g : B -> list C) l :
  flat_map (fun x => flat_map g (f x)) l = flat_map g (flat_map f l).
Proof.
  induction l as [|x l IH]; [reflexivity|]. simpl.
  rewrite IH, flat_map_app. reflexivity.
Qed.

(** The shape of the output of a run that prints its report over some
    changed file. *)
Lemma console_shape w changed rep :
  usage_ok w = true ->
  git_diff_names w = Some changed ->
  changed <> [] ->
  final (main w) = Some rep ->
  Forall (owners_listed w) changed /\
  console w =
    headline (label (exit_code (main w) =? 1) (warns (run_summary rep)))
      (run_summary rep)
    :: (owner_lines (set_from String.eqb (flat_map (owners_of w) changed))
        ++ flat_map change_lines (all_changes (reports rep)))%list.
Proof.
  intros Hok Hl Hne Hfin.
  destruct (main_reports w changed rep Hok Hl Hfin) as (Hall & _).
  pose proof (reports_files _ _ _ _ _ _ Hall) as Hfiles.
  assert (Hpaths : map file (reports rep) = changed).
  { clear -Hall. induction Hall as [|p r ps rs (n & ->) _ IH]; [reflexivity|].
    simpl. rewrite report_file, IH. reflexivity. }
  revert Hfin Hfiles Hpaths. clear Hall.
  unfold usage_ok in Hok. apply andb_true_iff in Hok. destruct Hok as [Hb Hh].
  unfold console, main. rewrite Hb, Hh, Hl. cbn [negb orb].
  destruct changed as [|path changed]; [contradiction|].
  cbn [length Nat.eqb]. cbv iota zeta.
  destruct (loop w _ _ _ (path :: changed) _) as [st|st]; [|discriminate].
  pose proof (collect_owners_spec w (ls_reports st) []) as Hc.
  destruct (collect_owners w (ls_reports st) []) as [teams|]; [|discriminate].
  destruct Hc as [Hlisted ->].
  cbn [final exit_code]. intros [= <-].
  cbn [run_summary reports warns]. intros Hfiles Hpaths. split.
  - rewrite <- Hpaths. clear -Hlisted.
    induction Hlisted; constructor; assumption.
  - unfold all_changes. rewrite <- flat_map_flat_map, Hfiles.
    destruct (anyBlock st); reflexivity.
Qed.

(** The lines of a run that prints its report over some changed file
    follow the report.  The first line carries the label [FAIL] exactly
    when the exit code is 1, [WARN] when it is 0 and the run counts a warn,
    [PASS] otherwise, and the three counts of the run's summary.  Then come
    the two owner lines, and then one [BLOCK:] or [WARN:] line per listed
    change of that severity, so as many lines as there are such changes;
    without a configuration that is the sum of the [blocks] and [warns] of
    the first line. *)
Theorem console_follows_the_report
        (w : World) (changed : list string) (rep : RunReport) :
  usage_ok w = true ->
  git_diff_names w = Some changed ->
  changed <> [] ->
  final (main w) = Some rep ->
  exists lbl teams,
    console w =
      headline lbl (run_summary rep)
      :: (owner_lines teams
          ++ flat_map change_lines (all_changes (reports rep)))%list /\
    (lbl = "FAIL" <-> exit_code (main w) = 1) /\
    (lbl = "WARN" <->
     exit_code (main w) = 0 /\ (0 < warns (run_summary rep))%nat) /\
    (lbl = "PASS" <->
     exit_code (main w) = 0 /\ warns (run_summary rep) = 0%nat) /\
    length (owner_lines teams) = 2%nat /\
    length (flat_map change_lines (all_changes (reports rep))) =
      (count_severity "block" (all_changes (reports rep))
       + count_severity "warn" (all_changes (reports rep)))%nat /\
    (config w = None ->
     length (flat_map change_lines (all_changes (reports rep))) =
       (blocks (run_summary rep) + warns (run_summary rep))%nat).
Proof.
  intros Hok Hl Hne Hfin.
  destruct (console_shape w changed rep Hok Hl Hne Hfin) as (_ & Hcon).
  destruct (main_reports w changed rep Hok Hl Hfin) as (_ & _ & Hexit & _).
  exists (label (exit_code (main w) =? 1) (warns (run_summary rep))),
    (set_from String.eqb (flat_map (owners_of w) changed)).
  split; [exact Hcon|].
  rewrite Hexit. unfold label.
  split; [|split; [|split; [|split; [|split]]]].
  - destruct (existsb has_block (reports rep)); simpl;
      [|destruct (0 <? _)%nat]; split; congruence.
  - destruct (existsb has_block (reports rep)); simpl;
      [|destruct (Nat.ltb_spec 0 (warns (run_summary rep)))];
      (split; [intros H' | intros [H1 H2]]);
      try discriminate; try reflexivity; try lia;
      split; try reflexivity; lia.
  - destruct (existsb has_block (reports rep)); simpl;
      [|destruct (Nat.ltb_spec 0 (warns (run_summary rep)))];
      (split; [intros H' | intros [H1 H2]]);
      try discriminate; try reflexivity; try lia;
      split; try reflexivity; lia.
  - unfold owner_lines. destruct (0 <? _)%nat; reflexivity.
  - apply change_lines_length.
  - intros Hcfg.
    destruct (counts_without_configuration w rep Hok Hcfg Hfin)
      as (_ & (Hb & Hw & _)).
    rewrite change_lines_length, Hb, Hw. reflexivity.
Qed.

Lemma console_follows_the_report_witness :
  exists rep,
    final (main world_three_files) = Some rep /\
    nth 0 (console world_three_files) "" =
      "EventDiff: FAIL | blocks=2 warns=0 passes=1".
Proof.
  destruct (final (main world_three_files)) as [rep|] eqn:Hfin;
    [|vm_compute in Hfin; discriminate].
  exists rep. split; [reflexivity|].
  destruct (console_follows_the_report world_three_files
              ["schemas/checkout_completed.json"; "schemas/old.json";
               "schemas/new.json"] rep eq_refl eq_refl)
    as (lbl & teams & Hcon & _); [discriminate | exact Hfin |].
  vm_compute. reflexivity.
Defined.

(** When a run that passes the usage check prints no report, nothing was
    written to the standard output but, at most, the first line: the
    collection of the owner teams comes after that line, and an exception
    there leaves a first line, possibly with the label [PASS], on a run that
    ends with exit code 1. *)
Theorem console_without_report (w : World) :
  usage_ok w = true ->
  final (main w) = None ->
  exit_code (main w) = 1 /\
  (console w = [] \/ exists lbl s, console w = [headline lbl s]).
Proof.
  intros Hok Hfin. split; [apply main_silent; assumption|].
  revert Hfin. unfold usage_ok in Hok. apply andb_true_iff in Hok.
  destruct Hok as [Hb Hh]. unfold console, main. rewrite Hb, Hh.
  cbn [negb orb].
  destruct (git_diff_names w) as [[|path changed]|]; [discriminate| |auto].
  cbn [length Nat.eqb]. cbv iota zeta.
  destruct (loop w _ _ _ (path :: changed) _) as [st|st]; [|auto].
  destruct (collect_owners w (ls_reports st) []); [discriminate|].
  intros _. right. eauto.
Qed.

Lemma console_without_report_witness :
  exit_code (main world_constructor_quiet) = 1 /\
  console world_constructor_quiet =
    ["EventDiff: PASS | blocks=0 warns=0 passes=0"].
Proof.
  split; [|reflexivity].
  apply (console_without_report world_constructor_quiet); reflexivity.
Defined.

(** The owner line of a run that prints its report names every owner team
    of the changed files once, in the order of their first appearance over
    the changed files, all of which have their owners listed; the line after
    it asks to add an owners mapping exactly when no changed file has an
    owner team, and to request a review otherwise. *)
Theorem owner_line_names_each_team_once
        (w : World) (changed : list string) (rep : RunReport) :
  usage_ok w = true ->
  git_diff_names w = Some changed ->
  changed <> [] ->
  final (main w) = Some rep ->
  Forall (owners_listed w) changed /\
  exists teams,
    List.NoDup teams /\
    (forall t, In t teams <->
               exists path, In path changed /\ In t (owners_of w path)) /\
    nth 1 (console w) "" =
      (if (0 <? length teams)%nat
       then "Owner: " ++ join_with id ", " teams
       else "Owner: (none configured)") /\
    (nth 2 (console w) "" = "ACTION: Add owners.json mapping for this event" <->
     forall path, In path changed -> owners_of w path = []) /\
    (nth 2 (console w) "" = "ACTION: Request review from owner team(s) above" <->
     exists path, In path changed /\ owners_of w path <> []).
Proof.
  intros Hok Hl Hne Hfin.
  destruct (console_shape w changed rep Hok Hl Hne Hfin) as (Hlisted & Hcon).
  split; [exact Hlisted|].
  set (teams := set_from String.eqb (flat_map (owners_of w) changed)) in *.
  assert (Hmem : forall t, In t teams <->
                   exists path, In path changed /\ In t (owners_of w path)).
  { intros t. unfold teams. rewrite <- in_flat_map. split.
    - apply set_from_In.
    - intros Hin.
      pose proof (set_from_has String.eqb String.eqb_refl _ _ Hin) as Hhas.
      apply set_has_true in Hhas. destruct Hhas as (y & Hy & E).
      apply String.eqb_eq in E. subst. exact Hy. }
  assert (Hline : nth 1 (console w) "" =
                  (if (0 <? length teams)%nat
                   then "Owner: " ++ join_with id ", " teams
                   else "Owner: (none configured)")).
  { rewrite Hcon. unfold owner_lines. cbn [nth].
    destruct (0 <? length teams)%nat; reflexivity. }
  exists teams. split.
  - apply distinct_strings_NoDup, set_from_distinct. apply String.eqb_sym.
  - split; [exact Hmem|]. split; [exact Hline|].
    assert (Haction : nth 2 (console w) "" =
                      (if (0 <? length teams)%nat
                       then "ACTION: Request review from owner team(s) above"
                       else "ACTION: Add owners.json mapping for this event")).
    { rewrite Hcon. unfold owner_lines. cbn [nth].
      destruct (0 <? length teams)%nat; reflexivity. }
    rewrite Haction. clear Hline Haction Hcon.
    destruct teams as [|t teams'] eqn:E; cbn [length Nat.ltb Nat.leb].
    + assert (Hnone : forall path, In path changed -> owners_of w path = []).
      { intros path Hpath.
        destruct (owners_of w path) as [|t ts] eqn:Ep; [reflexivity|].
        exfalso. apply (proj2 (Hmem t)). exists path. split; [exact Hpath|].
        rewrite Ep. left. reflexivity. }
      split; split; try discriminate; auto.
      intros (path & Hpath & Hsome). exfalso. apply Hsome, Hnone, Hpath.
    + destruct (proj1 (Hmem t) (or_introl eq_refl)) as (path & Hpath & Ht).
      split; split; try discriminate.
      * intros Hnone. rewrite (Hnone path Hpath) in Ht. destruct Ht.
      * intros _. exists path. split; [exact Hpath|].
        intros E'. rewrite E' in Ht. destruct Ht.
      * reflexivity.
Qed.

Lemma owner_line_names_each_team_once_witness :
  exists rep,
    final (main world_three_files) = Some rep /\
    nth 1 (console world_three_files) "" = "Owner: team-payments-platform".
Proof.
  destruct (final (main world_three_files)) as [rep|] eqn:Hfin;
    [|vm_compute in Hfin; discriminate].
  exists rep. split; [reflexivity|].
  destruct (owner_line_names_each_team_once world_three_files
              ["schemas/checkout_completed.json"; "schemas/old.json";
               "schemas/new.json"] rep eq_refl eq_refl)
    as (_ & teams & _); [discriminate | exact Hfin |].
  vm_compute. reflexivity.
Defined.

(** ** The configuration *)

Lemma DEFAULT_POLICY_nonempty key d :
  DEFAULT_POLICY !! key = Some d -> nonempty d = true.
Proof.
  unfold DEFAULT_POLICY. intros H. apply elem_of_list_to_map_2 in H.
  repeat (apply elem_of_cons in H; destruct H as [[= -> ->]|H]; [reflexivity|]).
  apply elem_of_nil in H. destruct H.
Qed.

(** The default of a rule key under a configuration, as [sevForOwner]
    resolves it for a file without owners: the label the configuration
    gives the key, in either format, replaces the built-in one; an empty
    configured label resolves to [warn], not to the built-in label; a key
    the configuration does not name keeps its built-in label, and a key
    that neither names resolves to [warn]. *)
Theorem default_of_configuration (cfg : option PolicyDoc) (key : string) :
  key <> "overrides_by_owner" ->
  sevForOwner (load_policy cfg) key [] =
    match configured_default cfg !! key with
    | Some s => if nonempty s then s else "warn"
    | None =>
        match DEFAULT_POLICY !! key with
        | Some s => s
        | None => "warn"
        end
    end.
Proof.
  intros Hkey. unfold sevForOwner. cbn [fold_left].
  assert (Hlookup :
            POLICY_DEFAULT (load_policy cfg) !! key =
            match configured_default cfg !! key with
            | Some s => Some s
            | None => DEFAULT_POLICY !! key
            end).
  { destruct cfg as [[d o|f [o|]]|]; simpl;
      rewrite ?union_default_lookup, ?lookup_empty; try reflexivity.
    rewrite lookup_insert_ne by congruence. reflexivity. }
  rewrite Hlookup.
  destruct (configured_default cfg !! key) as [s|]; [reflexivity|].
  destruct (DEFAULT_POLICY !! key) as [d|] eqn:E; [|reflexivity].
  rewrite (DEFAULT_POLICY_nonempty key d E). reflexivity.
Qed.

Lemma default_of_configuration_witness :
  DEFAULT_POLICY !! "TYPE_CHANGED" = Some "block" /\
  sevForOwner (load_policy cfg_empty_label) "TYPE_CHANGED" [] = "warn".
Proof.
  split; [reflexivity|].
  rewrite (default_of_configuration cfg_empty_label "TYPE_CHANGED");
    [reflexivity | discriminate].
Defined.

(** ** A schema against a second parse of itself *)

Lemma copy_removed f l v :
  In v (only_in l (map (relabel f) l)) -> In v l /\ is_compound v = true.
Proof.
  intros Hv. apply only_in_sound in Hv. destruct Hv as [Hv Hn].
  split; [exact Hv|]. destruct (is_compound v) eqn:E; [reflexivity|].
  exfalso. apply Hn. exists v. split; [|apply sameValueZero_refl].
  apply in_map_iff. exists v. split; [apply relabel_primitive, E | exact Hv].
Qed.

Lemma copy_added f l v :
  In v (only_in (map (relabel f) l) l) ->
  exists w, In w l /\ is_compound w = true.
Proof.
  intros Hv. apply only_in_sound in Hv. destruct Hv as [Hv Hn].
  apply in_map_iff in Hv. destruct Hv as (w & <- & Hw).
  exists w. split; [exact Hw|].
  destruct (is_compound w) eqn:E; [reflexivity|].
  exfalso. apply Hn. exists w. split; [exact Hw|].
  rewrite (relabel_primitive f w E). apply sameValueZero_refl.
Qed.

Lemma second_parse_kind f d K :
  kind_condition K (Some d) (Some (relabel_field f d)) ->
  (K = "TYPE_CHANGED" /\ is_compound (f_type d) = true) \/
  ((K = "ENUM_VALUE_REMOVED" \/ K = "ENUM_VALUE_ADDED") /\
   exists v, In v (or_empty (f_enum d)) /\ is_compound v = true).
Proof.
  unfold kind_condition. rewrite enumDiff_sides.
  cbn [relabel_field f_required f_enum removed added].
  rewrite or_empty_relabel.
  intros [(_ & E1 & E2)|[(_ & E1 & E2)|[(-> & Ht)|[(-> & He)|(-> & He)]]]];
    try congruence.
  - left. split; [reflexivity|].
    destruct (is_compound (f_type d)) eqn:E; [reflexivity|]. exfalso.
    unfold type_differs, strict_eq in Ht. cbn [relabel_field f_type f_nullable] in Ht.
    rewrite (relabel_primitive f _ E), sameValueZero_refl in Ht.
    destruct (f_nullable d); discriminate.
  - right. split; [left; reflexivity|].
    destruct (only_in (or_empty (f_enum d)) (map (relabel f) (or_empty (f_enum d))))
      as [|v rest] eqn:E; [contradiction|].
    exists v. apply (copy_removed f). rewrite E. left. reflexivity.
  - right. split; [right; reflexivity|].
    destruct (only_in (map (relabel f) (or_empty (f_enum d))) (or_empty (f_enum d)))
      as [|v rest] eqn:E; [contradiction|].
    apply (copy_added f _ v). rewrite E. left. reflexivity.
Qed.

(** A schema against a second parse of the same document, whose arrays
    and objects are other objects ([f] gives their addresses).  [diff]
    never reports a field removed or added nor a change of the required
    flag; it reports a type change only at a field whose type is an array
    or an object, and an enum change only at a field whose enum holds an
    array or an object.  So when all types and enum values of the schema
    are primitive values, the two parses differ in nothing. *)
Theorem diff_against_a_second_parse
        (pol : Policy) (owners : list string) (f : nat -> nat) (S : value) :
  (forall a b, f a = f b -> a = b) ->
  (forall K p,
      reported pol owners S (relabel f S) K p ->
      exists d,
        map_get (flatten S) p = Some d /\
        ((K = "TYPE_CHANGED" /\ is_compound (f_type d) = true) \/
         ((K = "ENUM_VALUE_REMOVED" \/ K = "ENUM_VALUE_ADDED") /\
          exists v, In v (or_empty (f_enum d)) /\ is_compound v = true))) /\
  ((forall p d, map_get (flatten S) p = Some d -> primitive_field d) ->
   changes (diff pol S (relabel f S) owners) = []).
Proof.
  intros Hinj.
  assert (Hrep : forall K p,
             reported pol owners S (relabel f S) K p ->
             exists d,
               map_get (flatten S) p = Some d /\
               ((K = "TYPE_CHANGED" /\ is_compound (f_type d) = true) \/
                ((K = "ENUM_VALUE_REMOVED" \/ K = "ENUM_VALUE_ADDED") /\
                 exists v, In v (or_empty (f_enum d)) /\ is_compound v = true))).
  { intros K p H. apply reported_iff in H.
    rewrite (flatten_relabel f Hinj), map_get_relabel in H.
    destruct (map_get (flatten S) p) as [d|]; [|destruct H].
    exists d. split; [reflexivity|]. apply (second_parse_kind f), H. }
  split; [exact Hrep|].
  intros Hprim. apply changes_nil_iff. intros K p H.
  destruct (Hrep K p H) as (d & Hd & Hcase).
  destruct (Hprim p d Hd) as [Ht He].
  destruct Hcase as [(_ & Hc)|(_ & v & Hv & Hc)].
  - congruence.
  - rewrite (He v Hv) in Hc. discriminate.
Qed.

Lemma diff_against_a_second_parse_witness :
  changes
    (diff (load_policy cfg_two_owners) checkout_v1
       (relabel (fun a => (a + 10)%nat) checkout_v1) ["team-a"]) = [].
Proof.
  apply (diff_against_a_second_parse (load_policy cfg_two_owners) ["team-a"]
           (fun a => (a + 10)%nat) checkout_v1).
  - intros a b H. exact (proj1 (Nat.add_cancel_r a b 10) H).
  - intros p d H. apply assoc_In in H.
    destruct H as [[= <- <-]|[[= <- <-]|[]]]; split;
      try reflexivity; intros v [].
Defined.

(** ** One changed file *)

Lemma file_case_spec w base head path n :
  let oldContent := git_show w base path in
  let newContent := git_show w head path in
  let oldParsed := JSON_parse w n (content_text oldContent) in
  let newParsed := JSON_parse w (S n) (content_text newContent) in
  let c := file_case w base head path n in
  let both_or_neither := (oldContent = None <-> newContent = None) in
  (c = FileAdded <-> oldContent = None /\ newContent <> None) /\
  (c = FileRemoved <-> oldContent <> None /\ newContent = None) /\
  (forall side,
      c = InvalidJson side <->
      both_or_neither /\
      ((oldParsed = None /\ side = "base") \/
       (oldParsed <> None /\ newParsed = None /\ side = "head"))) /\
  (forall oldValue newValue,
      c = Delegated oldValue newValue <->
      both_or_neither /\ oldParsed = Some oldValue /\ newParsed = Some newValue).
Proof.
  cbv zeta. unfold file_case.
  destruct (git_show w base path) as [old|], (git_show w head path) as [new|];
    destruct (JSON_parse w n _) as [ov|],
             (JSON_parse w (S n) _) as [nv|].
  all: split; [case_iff|].
  all: split; [case_iff|].
  all: split; [intros side; case_iff | intros oldValue newValue; case_iff].
Qed.

(** The outcome of a changed file whose owners are listed.  The cases are
    told apart in this order: absent at base and present at head is
    [FILE_ADDED], with decision [PASS]; present at base and absent at head
    is [FILE_REMOVED], with decision [FAIL]; otherwise a text that
    [JSON.parse] rejects on either side is [INVALID_JSON], with decision
    [FAIL] and a message naming [base] when the base side was rejected and
    [head] when only the head side was; otherwise the file is handed to
    [diff] on the two parsed values.  The round of the loop pushes exactly
    one report, the one of the file's case, unless the file is handed to
    [diff] and the comparison reaches a conversion that throws: then the
    round throws.  The severity of the single change is resolved by the
    policy, and without a configuration it is [pass], [block] and [block].
    A run over files whose rounds all return reports every changed file, in
    order. *)
Theorem file_outcomes
        (w : World) (pol : Policy) (base head : string) (st : LoopState)
        (path : string) :
  owners_listed w path ->
  let oldContent := git_show w base path in
  let newContent := git_show w head path in
  let oldParsed := JSON_parse w (parses st) (content_text oldContent) in
  let newParsed := JSON_parse w (S (parses st)) (content_text newContent) in
  let c := file_case w base head path (parses st) in
  let owners := owners_of w path in
  let both_or_neither := (oldContent = None <-> newContent = None) in
  ((forall oldValue newValue,
       c = Delegated oldValue newValue -> diff_throws oldValue newValue = false) ->
   exists st',
     step w pol base head st path = Normal st' /\
     ls_reports st' = (ls_reports st ++ [report_of_case w pol path c])%list /\
     anyBlock st' = anyBlock st || has_block (report_of_case w pol path c)) /\
  (forall oldValue newValue,
      c = Delegated oldValue newValue -> diff_throws oldValue newValue = true ->
      exists st', step w pol base head st path = Thrown st') /\
  (c = FileAdded <-> oldContent = None /\ newContent <> None) /\
  (c = FileRemoved <-> oldContent <> None /\ newContent = None) /\
  (forall side,
      c = InvalidJson side <->
      both_or_neither /\
      ((oldParsed = None /\ side = "base") \/
       (oldParsed <> None /\ newParsed = None /\ side = "head"))) /\
  (forall oldValue newValue,
      c = Delegated oldValue newValue <->
      both_or_neither /\ oldParsed = Some oldValue /\ newParsed = Some newValue) /\
  report_of_case w pol path FileAdded =
    {| file := path;
       file_summary := {| decision := "PASS"; blocks := 0; warns := 0; passes := 1 |};
       file_changes :=
         [{| c_severity := sevForOwner pol "FILE_ADDED" owners;
             c_kind := "FILE_ADDED"; c_path := path;
             c_message := "Schema file added: " ++ path |}] |} /\
  report_of_case w pol path FileRemoved =
    {| file := path;
       file_summary := {| decision := "FAIL"; blocks := 1; warns := 0; passes := 0 |};
       file_changes :=
         [{| c_severity := sevForOwner pol "FILE_REMOVED" owners;
             c_kind := "FILE_REMOVED"; c_path := path;
             c_message := "Schema file removed: " ++ path |}] |} /\
  (forall side,
      report_of_case w pol path (InvalidJson side) =
        {| file := path;
           file_summary := {| decision := "FAIL"; blocks := 1; warns := 0; passes := 0 |};
           file_changes :=
             [{| c_severity := sevForOwner pol "INVALID_JSON" owners;
                 c_kind := "INVALID_JSON"; c_path := path;
                 c_message :=
                   "Invalid JSON in " ++ side ++ " version of " ++ path ++ "." |}] |}) /\
  (forall oldValue newValue,
      report_of_case w pol path (Delegated oldValue newValue) =
        {| file := path;
           file_summary := summary (diff pol oldValue newValue owners);
           file_changes := changes (diff pol oldValue newValue owners) |}) /\
  (sevForOwner (load_policy None) "FILE_ADDED" owners = "pass" /\
   sevForOwner (load_policy None) "FILE_REMOVED" owners = "block" /\
   sevForOwner (load_policy None) "INVALID_JSON" owners = "block") /\
  (forall changed,
      usage_ok w = true ->
      git_diff_names w = Some changed ->
      Forall (round_returns w) changed ->
      exists rep,
        final (main w) = Some rep /\
        map file (reports rep) = changed /\
        Forall2
          (fun path r =>
             exists n,
               r = report_of_case w (load_policy (config w)) path
                     (file_case w (base_of w) (head_of w) path n))
          changed (reports rep)).
Proof.
  intros Hlisted. cbv zeta.
  split.
  { intros Hconv.
    pose proof (step_spec w pol base head st path) as Hs. cbv zeta in Hs.
    destruct (step w pol base head st path) as [st'|st'].
    - destruct Hs as (Hr & Hb & _). eauto.
    - destruct Hs as [[Hnone|(ov & nv & Hcase & Ht)] _]; [contradiction|].
      rewrite (Hconv _ _ Hcase) in Ht. discriminate. }
  split.
  { intros ov nv Hcase Ht.
    destruct (step_comparison_throws w pol base head st path ov nv Hcase Ht)
      as (st' & E & _).
    eauto. }
  destruct (file_case_spec w base head path (parses st)) as (H1 & H2 & H3 & H4).
  split; [exact H1|]. split; [exact H2|]. split; [exact H3|]. split; [exact H4|].
  do 4 (split; [reflexivity|]).
  split.
  { rewrite !sevForOwner_builtin. repeat split. }
  intros changed Hok Hl Hall.
  destruct (main_prints w changed Hok Hl Hall) as (rep & Hfin).
  destruct (main_reports w changed rep Hok Hl Hfin) as (Hreps & _).
  exists rep. split; [exact Hfin|]. split; [|exact Hreps].
  clear -Hreps.
  induction Hreps as [|p r ps rs (n & ->) _ IH]; simpl; [reflexivity|].
  rewrite report_file, IH. reflexivity.
Qed.

Lemma file_outcomes_witness :
  owners_listed world_three_files "schemas/checkout_completed.json" /\
  exists st',
    step world_three_files (load_policy None) "abc" "def"
      {| ls_reports := []; anyBlock := false; parses := 0; shows := [] |}
      "schemas/checkout_completed.json" = Normal st' /\
    anyBlock st' = true.
Proof.
  assert (Hlisted : owners_listed world_three_files
                      "schemas/checkout_completed.json") by discriminate.
  split; [exact Hlisted|].
  destruct (file_outcomes world_three_files (load_policy None) "abc" "def"
              {| ls_reports := []; anyBlock := false; parses := 0; shows := [] |}
              "schemas/checkout_completed.json" Hlisted)
    as (Hreturns & _).
  destruct Hreturns as (st' & Hstep & _ & Hb).
  - intros ov nv [= <- <-]. reflexivity.
  - exists st'. split; [exact Hstep|]. rewrite Hb. reflexivity.
Defined.

(** ** Severities apart *)

Lemma changes_at_unrated pol pol' owners owners' path a b :
  map unrated (changes_at pol owners path a b) =
  map unrated (changes_at pol' owners' path a b).
Proof.
  unfold changes_at.
  destruct a as [a|], b as [b|]; cbv zeta; try reflexivity.
  - rewrite !List.map_app.
    destruct (f_required a), (f_required b), (type_differs a b),
      (0 <? length (removed (enumDiff (f_enum a) (f_enum b))))%nat,
      (0 <? length (added (enumDiff (f_enum a) (f_enum b))))%nat;
      reflexivity.
Qed.

(** The policy and the owner teams decide severities and nothing else:
    for any two policies and lists of owner teams, [diff] gives the same
    changes but for their severities (the same kinds, paths and messages,
    in the same order).  In particular whether [diff] has a change to
    report, and so whether it resolves a severity at all, does not depend
    on the owners: with owners that are not a list, [diff] throws exactly
    when it reaches a conversion that throws or has a change to report. *)
Theorem diff_without_severities
        (pol pol' : Policy) (owners owners' : list string)
        (oldSchema newSchema : value) :
  map unrated (changes (diff pol oldSchema newSchema owners)) =
    map unrated (changes (diff pol' oldSchema newSchema owners')) /\
  (changes (diff pol oldSchema newSchema owners) = [] <->
   changes (diff pol' oldSchema newSchema owners') = []) /\
  (diff_of pol oldSchema newSchema None = None <->
   diff_throws oldSchema newSchema = true \/
   changes (diff pol oldSchema newSchema owners) <> []) /\
  (diff_throws oldSchema newSchema = false ->
   changes (diff pol oldSchema newSchema owners) = [] ->
   diff_of pol oldSchema newSchema None =
     Some {| summary :=
               {| decision := "PASS"; blocks := 0; warns := 0; passes := 0 |};
             changes := [] |}).
Proof.
  assert (H : forall p o p' o',
             map unrated (changes (diff p oldSchema newSchema o)) =
             map unrated (changes (diff p' oldSchema newSchema o'))).
  { intros p o p' o'. unfold diff. cbn [changes summarize].
    generalize (diff_paths (flatten oldSchema) (flatten newSchema)) as paths.
    induction paths as [|q paths IH]; cbn [flat_map List.map]; [reflexivity|].
    rewrite !List.map_app, IH, (changes_at_unrated p p' o o'). reflexivity. }
  assert (Hnil : forall p o p' o',
             changes (diff p oldSchema newSchema o) = [] ->
             changes (diff p' oldSchema newSchema o') = []).
  { intros p o p' o' E. pose proof (H p o p' o') as Hm. rewrite E in Hm.
    destruct (changes (diff p' oldSchema newSchema o')); [reflexivity|].
    discriminate. }
  split; [apply H|]. split; [split; apply Hnil|].
  unfold diff_of. cbv zeta.
  destruct (diff_throws oldSchema newSchema).
  { split; [split; [left; reflexivity | reflexivity] | discriminate]. }
  split.
  - destruct (changes (diff pol oldSchema newSchema [])) eqn:E; split.
    + discriminate.
    + intros [Habs|Hne]; [discriminate|].
      exfalso. apply Hne. apply (Hnil pol [] pol owners), E.
    + intros _. right. intros Habs.
      apply (Hnil pol owners pol []) in Habs. congruence.
    + reflexivity.
  - intros _ E. apply (Hnil pol owners pol []) in E. rewrite E.
    f_equal. unfold diff in *. cbn [changes summarize] in *. rewrite E.
    reflexivity.
Qed.

(** ** Conversions that throw *)

(** [walk_throws] satisfies the equation of the source: a truthy node
    throws at [normalizeType(node.type)] or in the call on one of the
    entries of [node.properties]. *)
Lemma walk_throws_eq node :
  walk_throws node =
  if negb (truthy node) then false
  else
    normalizeType_throws (get_prop node "type")
    || match get_prop node "properties" with
       | Some (VObj _ entries) =>
           existsb (fun kc => walk_throws (snd kc)) entries
       | _ => false
       end.
Proof.
  destruct node as [|b|n|s|a items|a own]; simpl;
    try (repeat match goal with
                | |- context [if ?c then _ else _] => destruct c
                end; reflexivity).
  rewrite (assoc_map
             (fun v =>
                match v with
                | VObj _ entries =>
                    Some (existsb (fun kc => walk_throws (snd kc)) entries)
                | _ => None
                end)).
  destruct (assoc "properties" own) as [[| | | | |a' entries]|]; reflexivity.
Qed.

(** [flatten] throws exactly when [walk] is called on a node whose type
    array has several entries left, one of them an object with a property
    [toString] of its own. *)
Theorem flatten_throws_at_a_visited_node (schema : value) :
  flatten_throws schema = true <->
  exists node path requiredNames,
    visited schema node path requiredNames /\
    truthy node = true /\
    normalizeType_throws (get_prop node "type") = true.
Proof.
  unfold flatten_throws. split.
  - cut (forall node,
            walk_throws node = true ->
            forall path rn,
              visited schema node path rn ->
              exists node' path' rn',
                visited schema node' path' rn' /\
                truthy node' = true /\
                normalizeType_throws (get_prop node' "type") = true).
    { intros H Ht. apply (H schema Ht "" []). constructor. }
    intros node. pattern node. apply walk_ind. clear node.
    intros node IH Ht path rn Hv. rewrite walk_throws_eq in Ht.
    destruct (truthy node) eqn:Etruthy; [|discriminate].
    cbn [negb] in Ht. apply orb_true_iff in Ht. destruct Ht as [Ht|Ht].
    + exists node, path, rn. auto.
    + destruct (get_prop node "properties") as [[| | | | |a entries]|] eqn:Ep;
        try discriminate.
      apply existsb_exists in Ht. destruct Ht as ([k child] & Hin & Hc).
      apply (IH a entries k child eq_refl Hin Hc
               (child_path path k)
               (childReq_of path (array_or_empty (get_prop node "required")))).
      apply (visited_child schema node path rn a entries k child); assumption.
  - intros (node & path & rn & Hv & Htruthy & Ht).
    assert (Hnode : walk_throws node = true).
    { rewrite walk_throws_eq, Htruthy, Ht. reflexivity. }
    clear Htruthy Ht. induction Hv as [|parent path rn a entries k child Hv IH Htruthy Hp Hin];
      [exact Hnode|].
    apply IH. rewrite walk_throws_eq, Htruthy, Hp. cbn [negb].
    apply orb_true_iff. right. apply existsb_exists.
    exists (k, child). split; [exact Hin | exact Hnode].
Qed.

Lemma all_convertible l :
  (forall x, In x l -> convertible x = true) -> forallb convertible l = true.
Proof. intros H. apply forallb_forall. exact H. Qed.

Lemma some_unconvertible l :
  negb (forallb convertible l) = true ->
  exists x, In x l /\ convertible x = false.
Proof.
  induction l as [|x l IH]; simpl; [discriminate|].
  destruct (convertible x) eqn:E; simpl.
  - intros H. destruct (IH H) as (y & Hy & Hc). exists y. auto.
  - intros _. exists x. auto.
Qed.

Lemma kept_entries_In items x :
  In x (set_delete sameValueZero (set_from sameValueZero items) (VStr "null")) ->
  In x items.
Proof.
  unfold set_delete. intros H. apply filter_In in H. destruct H as [H _].
  apply (set_from_In sameValueZero _ _ H).
Qed.

(** [normalizeType] throws only on a type array with an entry that does not
    convert. *)
Lemma normalizeType_throws_entry t :
  normalizeType_throws t = true ->
  exists a items x,
    t = Some (VArr a items) /\ In x items /\ convertible x = false.
Proof.
  destruct t as [[| | | |a items|]|]; try discriminate.
  unfold normalizeType_throws. cbv zeta.
  set (kept := set_delete sameValueZero (set_from sameValueZero items)
                 (VStr "null")).
  intros H.
  assert (Hbad : exists x, In x kept /\ convertible x = false).
  { apply orb_true_iff in H. destruct H as [H|H].
    - unfold sort_throws in H. apply andb_true_iff in H.
      apply some_unconvertible, H.
    - destruct (sort_values kept) as [|y [|z rest]] eqn:E; try discriminate.
      apply some_unconvertible in H. destruct H as (x & Hx & Hc).
      exists x. split; [|exact Hc].
      apply (sort_by_In ToString). unfold sort_values in E. rewrite E.
      exact Hx. }
  destruct Hbad as (x & Hx & Hc). exists a, items, x.
  split; [reflexivity|]. split; [|exact Hc]. apply kept_entries_In, Hx.
Qed.

Lemma nt_type_convertible t :
  (forall a items x, t = Some (VArr a items) -> In x items ->
                     convertible x = true) ->
  convertible (nt_type (normalizeType t)) = true.
Proof.
  destruct t as [[| | | |a items|]|]; try reflexivity.
  intros H. unfold normalizeType. cbv zeta. cbn [nt_type].
  destruct (sort_values _) as [|y [|z rest]] eqn:E; try reflexivity.
  apply (H a items y eq_refl). apply kept_entries_In.
  apply (sort_by_In ToString). unfold sort_values in E. rewrite E.
  left. reflexivity.
Qed.

Lemma enum_sides_In oldEnum newEnum x :
  In x (removed (enumDiff oldEnum newEnum)) \/
  In x (added (enumDiff oldEnum newEnum)) ->
  In x (or_empty oldEnum) \/ In x (or_empty newEnum).
Proof.
  unfold enumDiff. cbn [removed added]. unfold sort_values.
  rewrite !sort_by_In, !filter_In.
  intros [[H _]|[H _]]; [left|right];
    apply (set_from_In sameValueZero _ _ H).
Qed.

(** A comparison throws at no conversion when, at every node that [walk]
    is called on in either document, the entries of the type array and the
    enum values all convert: that is, when none of them is or holds an
    object with a property [toString] of its own. *)
Lemma diff_returns_when_types_and_enums_convert (oldSchema newSchema : value) :
  (forall node path requiredNames,
      visited oldSchema node path requiredNames \/
      visited newSchema node path requiredNames ->
      truthy node = true -> converts_at node) ->
  diff_throws oldSchema newSchema = false.
Proof.
  intros Hconv.
  assert (Hflat : forall schema,
             (forall node path rn, visited schema node path rn ->
                                   truthy node = true -> converts_at node) ->
             flatten_throws schema = false).
  { intros schema H. destruct (flatten_throws schema) eqn:E; [|reflexivity].
    apply flatten_throws_at_a_visited_node in E.
    destruct E as (node & path & rn & Hv & Htruthy & Ht).
    apply normalizeType_throws_entry in Ht.
    destruct Ht as (a & items & x & Ht & Hx & Hc).
    destruct (H node path rn Hv Htruthy) as [Htype _].
    rewrite (Htype a items x Ht Hx) in Hc. discriminate. }
  assert (Hfield : forall schema,
             (forall node path rn, visited schema node path rn ->
                                   truthy node = true -> converts_at node) ->
             forall p d,
               map_get (flatten schema) p = Some d ->
               convertible (f_type d) = true /\
               forall x, In x (or_empty (f_enum d)) -> convertible x = true).
  { intros schema H p d Hd.
    destruct (flatten_recorded schema p d Hd)
      as (_ & node & rn & Hv & Htruthy & ->).
    destruct (H node p rn Hv Htruthy) as [Htype Henum].
    cbn [descriptor_of f_type f_enum]. split.
    - apply nt_type_convertible. exact Htype.
    - destruct (enum_of node) as [items|]; [|intros x []].
      intros x Hx. apply (Henum items x eq_refl Hx). }
  unfold diff_throws.
  rewrite (Hflat oldSchema), (Hflat newSchema) by (intros; eapply Hconv; eauto).
  cbn [orb]. cbv zeta. apply existsb_none. intros p _.
  destruct (map_get (flatten oldSchema) p) as [a|] eqn:Ea; [|reflexivity].
  destruct (map_get (flatten newSchema) p) as [b|] eqn:Eb; [|reflexivity].
  destruct (Hfield oldSchema (fun n q r H => Hconv n q r (or_introl H)) p a Ea)
    as [Hta Hea].
  destruct (Hfield newSchema (fun n q r H => Hconv n q r (or_intror H)) p b Eb)
    as [Htb Heb].
  assert (Hside : forall x,
             In x (removed (enumDiff (f_enum a) (f_enum b))) \/
             In x (added (enumDiff (f_enum a) (f_enum b))) ->
             convertible x = true).
  { intros x Hx. destruct (enum_sides_In _ _ x Hx); auto. }
  unfold changes_throw, type_message_throws, enumDiff_throws, sort_throws,
    join_throws.
  cbv zeta. rewrite Hta, Htb. cbn [negb orb]. rewrite andb_false_r.
  rewrite !all_convertible; cbn [negb]; rewrite ?andb_false_r; try reflexivity.
  all: intros x Hx; apply Hside.
  all: first
         [ left; exact Hx
         | right; exact Hx
         | left; unfold enumDiff; cbn [removed]; unfold sort_values;
           apply sort_by_In; exact Hx
         | right; unfold enumDiff; cbn [added]; unfold sort_values;
           apply sort_by_In; exact Hx ].
Qed.
